(** * assdiff3: three-way merge of ASS subtitle files

    A shallow embedding of [assdiff3.py] and the verification of its merge
    core: the field-level record merge ([ASSLine.merge]), the key/value
    section merge ([merge_keyval]), the extradata reconciliation
    ([merge_extradata]), the sequence matcher ([LineMatcher]) and the
    three-way walk ([diff3]).

    Conventions of the embedding.
    - A Python [int] is a [Z]; a [str] is a [string] (a string of bytes: the
      model's texts are ASCII, so the digit class of the regular expression is
      the ASCII digits).
    - A [dict] whose order is never observed is a [gmap]; an [OrderedDict]
      whose order is observed is an association list with unique keys.
    - A function that may raise returns an [option]; [None] stands for a
      raised exception.  A function that returns Python's [None] on purpose
      (the conflict outcome of [merge]) returns [Some None]. *)

From Stdlib Require Import ZArith Lia String Ascii List DecimalString.
From stdpp Require Import gmap strings list fin_maps sorting.

Local Open Scope Z_scope.


(** ** Field values and decimal spellings *)

(** Every field holds a [str], except a data line's [Id], which
    [DataLine.__init__] turns into an [int]. *)
Inductive value :=
  | VStr (s : string)
  | VInt (n : Z).

#[global] Instance value_eq_dec : EqDecision value.
Proof. solve_decision. Defined.

(** [str(n)] for an int. *)
Definition str_of_int (n : Z) : string :=
  NilZero.string_of_int (Z.to_int n).

(** [str(v)], as [format] applies it to a field value. *)
Definition py_str (v : value) : string :=
  match v with
  | VStr s => s
  | VInt n => str_of_int n
  end.

Definition is_digit (c : ascii) : bool :=
  ((48 <=? Z.of_nat (nat_of_ascii c)) && (Z.of_nat (nat_of_ascii c) <=? 57))%Z.

Definition digit_val (c : ascii) : Z := Z.of_nat (nat_of_ascii c) - 48.

(** [int(s)] for a string of digits, as the constructor of a dialogue line
    applies it to each group the regular expression captured. *)
Definition int_of_digits (s : string) : Z :=
  fold_left (fun acc c => 10 * acc + digit_val c) (list_ascii_of_string s) 0.

Fixpoint all_digits (s : string) : bool :=
  match s with
  | EmptyString => true
  | String c s' => is_digit c && all_digits s'
  end.

(** [int(v)] in [DataLine.__init__]: the identity on an int; on a string, the
    value of an optionally signed, non-empty run of digits, and a
    [ValueError] otherwise.  (Python also accepts blanks around the number
    and underscores between digits; no data line of the merge has them, its
    [Id] being an int already.) *)
Definition py_int (v : value) : option Z :=
  match v with
  | VInt n => Some n
  | VStr (String "-" s) =>
      if all_digits s && negb (s =? "")%string then Some (- int_of_digits s) else None
  | VStr (String "+" s) =>
      if all_digits s && negb (s =? "")%string then Some (int_of_digits s) else None
  | VStr s =>
      if all_digits s && negb (s =? "")%string then Some (int_of_digits s) else None
  end.

(** ** The reference prefix of a dialogue text

    The pattern that [DialogueLine.__init__] matches against the text: an
    opening brace, one or more groups of an equals sign and digits, a closing
    brace, and the rest of the line, up to the end.  The groups are read
    greedily; no other reading can succeed, since the character after a group
    decides alone how the match goes on. *)

(** The groups after the opening brace, and what follows the closing brace.
    [cur] holds the digits read so far in the current group. *)
Fixpoint scan_groups (s : string) (groups : list string) (cur : string)
  : option (list string * string) :=
  match s with
  | EmptyString => None
  | String c s' =>
      if is_digit c then scan_groups s' groups (cur +:+ String c EmptyString)
      else if Ascii.eqb c "=" then
        if (cur =? "")%string then None
        else scan_groups s' (groups ++ [cur]) ""
      else if Ascii.eqb c "}" then
        if (cur =? "")%string then None
        else Some (groups ++ [cur], s')
      else None
  end.

Definition newline : ascii := "010"%char.

(** The rest of the line, up to the end: the dot matches no newline, and the
    end anchor also matches just before a newline that ends the string. *)
Fixpoint rest_of_line (s : string) : option string :=
  match s with
  | EmptyString => Some ""
  | String c s' =>
      if Ascii.eqb c newline then
        if (s' =? "")%string then Some "" else None
      else String c <$> rest_of_line s'
  end.

(** The whole match: [Some (indices, text)] with
    [indices] the ints of the groups (the first capture, split at the equals
    signs) and [text] the second capture,
    or [None] when the text has no reference prefix. *)
Definition match_prefix (s : string) : option (list Z * string) :=
  match s with
  | String "{" (String "=" s') =>
      match scan_groups s' [] "" with
      | Some (groups, after) =>
          match rest_of_line after with
          | Some text => Some (int_of_digits <$> groups, text)
          | None => None
          end
      | None => None
      end
  | _ => None
  end.

(** The text with its prefix again, as the [Text] property formats it: the
    indices, each after an equals sign, between braces, then the text. *)
Definition format_prefix (indices : list Z) (text : string) : string :=
  "{=" +:+ String.concat "=" (str_of_int <$> indices) +:+ "}" +:+ text.

(** ** Records *)

Inductive cls := KeyValueLine | StyleLine | DialogueLine | DataLine.

#[global] Instance cls_eq_dec : EqDecision cls.
Proof. solve_decision. Defined.

Definition FIELDS (c : cls) : list string :=
  match c with
  | DialogueLine =>
      ["Layer"; "Start"; "End"; "Style"; "Name"; "MarginL";
       "MarginR"; "MarginV"; "Effect"; "Text"]
  | StyleLine =>
      ["Name"; "Fontname"; "Fontsize"; "PrimaryColour"; "SecondaryColour";
       "OutlineColour"; "BackColour"; "Bold"; "Italic"; "Underline";
       "StrikeOut"; "ScaleX"; "ScaleY"; "Spacing"; "Angle"; "BorderStyle";
       "Outline"; "Shadow"; "Alignment"; "MarginL"; "MarginR"; "MarginV";
       "Encoding"]
  | DataLine => ["Id"; "Key"; "Value"]
  | KeyValueLine => ["Value"]
  end.

Definition VALID_TYPES (c : cls) : option (list string) :=
  match c with
  | DialogueLine => Some ["Dialogue"; "Comment"]
  | StyleLine => Some ["Style"]
  | DataLine => Some ["Data"]
  | KeyValueLine => None
  end.

(** An [ASSLine] object: its class, and the attributes [source_file],
    [fields] and (for a dialogue line; empty otherwise) [extra_indices].
    An attribute assigned under the name of a field ([line.Name = ...]) is read
    back by every later access to that field, so it is modelled as an update
    of [fields]. *)
Record ASSLine := mkLine {
  line_cls : cls;
  source_file : option string;
  fields : gmap string value;
  extra_indices : list Z
}.

#[global] Instance ASSLine_eq_dec : EqDecision ASSLine.
Proof. solve_decision. Defined.

(** The [Text] property of a dialogue line, [v] being the [Text] entry of
    [fields]. *)
Definition Text_property (extra : list Z) (v : value) : value :=
  match extra with
  | [] => v
  | _ => VStr (format_prefix extra (py_str v))
  end.

(** The names that [getattr] finds on a line or on its class before
    [__getattr__] is asked: the attributes that the constructors set, the
    attributes and methods of the classes, the methods that [Mapping] mixes
    in, and the names that begin with an underscore (the special and the
    private ones, all taken as such).  The [Text] property of a dialogue
    line is left out of them, since [getitem] follows it.  No field of a
    class has such a name. *)
Definition attribute_name (c : cls) (item : string) : bool :=
  bool_decide (item ∈ ["source_file"; "fields"; "FIELDS"; "VALID_TYPES";
                       "merge"; "keys"; "items"; "values"; "get"])
  || (bool_decide (c = DialogueLine) && bool_decide (item = "extra_indices"))
  || match item with
     | String "_" _ => true
     | _ => false
     end.

(** [self[item]], that is [getattr(self, item)], for a name that is no
    [attribute_name]: the [Text] property on a dialogue line, the entry of
    [fields] otherwise; a [KeyError] when [fields] has no such entry.  (For
    an attribute name, [getattr] returns the attribute, which is no field
    value; the records that the constructors build, whose keys are [Type]
    and the fields of their class, have no such key.) *)
Definition getitem (x : ASSLine) (item : string) : option value :=
  v ← fields x !! item;
  if decide (line_cls x = DialogueLine ∧ item = "Text")
  then Some (Text_property (extra_indices x) v)
  else Some v.

(** What the mapping shows: every key of [fields] with [self[key]]. *)
Definition view (x : ASSLine) : gmap string value :=
  map_imap (fun k v =>
    if decide (line_cls x = DialogueLine ∧ k = "Text")
    then Some (Text_property (extra_indices x) v)
    else Some v) (fields x).

(** [dict(self.items())]: [__iter__] yields [Type] first and then the keys
    of [fields], so the items are those of [view], and reading them raises a
    [KeyError] when [fields] has no [Type]. *)
Definition items (x : ASSLine) : option (gmap string value) :=
  if decide (is_Some (fields x !! "Type")) then Some (view x) else None.

(** [Mapping.__eq__]: [dict(self.items()) == dict(other.items())]. *)
Definition line_eq (x y : ASSLine) : option bool :=
  ix ← items x;
  iy ← items y;
  Some (bool_decide (ix = iy)).

(** ** Constructors: [cls(fields=..., source_file=...)] *)

(** [ASSLine.__init__] with [fields] given: the type check of a class that
    has [VALID_TYPES] ([self.Type] raises a [KeyError] without the entry,
    and a type outside the valid ones a [ValueError]). *)
Definition check_type (c : cls) (fs : gmap string value) : option unit :=
  match VALID_TYPES c with
  | None => Some ()
  | Some valid =>
      t ← fs !! "Type";
      if decide (t ∈ VStr <$> valid) then Some () else None
  end.

(** The constructor of each class.  A dialogue line moves the reference
    prefix of its text into [extra_indices] (a text that is no [str] is a
    [TypeError] of [re.match]); a data line turns its [Id] into an int. *)
Definition init (c : cls) (fs : gmap string value) (src : option string)
  : option ASSLine :=
  _ ← check_type c fs;
  match c with
  | DialogueLine =>
      t ← fs !! "Text";
      match t with
      | VStr s =>
          match match_prefix s with
          | Some (indices, text) =>
              Some (mkLine c src (<["Text" := VStr text]> fs) indices)
          | None => Some (mkLine c src fs [])
          end
      | VInt _ => None
      end
  | DataLine =>
      v ← fs !! "Id";
      n ← py_int v;
      Some (mkLine c src (<["Id" := VInt n]> fs) [])
  | _ => Some (mkLine c src fs [])
  end.

(** ** [ASSLine.merge] *)

(** [{field: value for field, value in x.items() if value != parent[field]}];
    [parent[field]] raises a [KeyError] for a field the parent lacks. *)
Definition changed (x parent : ASSLine) : option (gmap string value) :=
  ix ← items x;
  if decide (dom ix ⊆ dom (fields parent))
  then Some (filter (fun kv => getitem parent kv.1 ≠ Some kv.2) ix)
  else None.

(** [{**parent, **changed_a, **changed_b}]: later entries override. *)
Definition merged_fields (parent_items changed_a changed_b : gmap string value)
  : gmap string value :=
  changed_b ∪ (changed_a ∪ parent_items).

Definition merge (c : cls) (a parent b : ASSLine) : option (option ASSLine) :=
  changed_a ← changed a parent;
  changed_b ← changed b parent;
  if decide (dom changed_a ∩ dom changed_b ≠ ∅)
  then Some None
  else
    ip ← items parent;
    line ← init c (merged_fields ip changed_a changed_b) (Some "?");
    Some (Some line).

(** ** Records of one kind, and the fields a side changed *)

(** A record of class [c], as the constructors leave it: the entries of
    [fields] are [Type] and the fields of the class. *)
Definition is_record (c : cls) (x : ASSLine) : Prop :=
  line_cls x = c ∧ dom (fields x) = list_to_set ("Type" :: FIELDS c).

(** The fields that [x] shows with another value than [parent]. *)
Definition changed_fields (x parent : ASSLine) : gset string :=
  filter (fun f => view x !! f ≠ view parent !! f) (dom (fields x)).

(** A text that the constructor of a dialogue line reads back as it was
    written: either it has no reference prefix, or formatting the indices and
    the text it splits into gives the same string again. *)
Definition reads_back (s : string) : Prop :=
  match match_prefix s with
  | None => True
  | Some (indices, text) => indices ≠ [] ∧ format_prefix indices text = s
  end.

Section view_facts.
Implicit Types (x y : ASSLine) (k : string).

Lemma lookup_view x k :
  view x !! k =
    (fields x !! k) ≫= (fun v =>
      if decide (line_cls x = DialogueLine ∧ k = "Text")
      then Some (Text_property (extra_indices x) v) else Some v).
Proof. unfold view. by rewrite map_lookup_imap. Qed.

Lemma getitem_view x k : getitem x k = view x !! k.
Proof. by rewrite lookup_view. Qed.

Lemma view_is_Some x k : is_Some (view x !! k) ↔ is_Some (fields x !! k).
Proof.
  rewrite lookup_view. destruct (fields x !! k) as [v|]; simpl.
  - case_decide; split; eauto.
  - split; intros [? ?]; done.
Qed.

Lemma dom_view x : dom (view x) = dom (fields x).
Proof.
  apply set_eq. intros k. rewrite !elem_of_dom. apply view_is_Some.
Qed.

Lemma items_record c x : is_record c x → items x = Some (view x).
Proof.
  intros [_ Hdom]. unfold items. rewrite decide_True; [done|].
  apply elem_of_dom. rewrite Hdom. set_solver.
Qed.

Lemma changed_record c x parent :
  is_record c x → is_record c parent →
  changed x parent =
    Some (filter (fun kv => view parent !! kv.1 ≠ Some kv.2) (view x)).
Proof.
  intros Hx Hp. unfold changed. rewrite (items_record c x Hx). simpl.
  rewrite decide_True.
  - f_equal. apply map_filter_ext. intros k v _. by rewrite getitem_view.
  - rewrite dom_view. destruct Hx as [_ ->], Hp as [_ ->]. done.
Qed.

Lemma dom_changed x parent :
  dom (filter (fun kv => view parent !! kv.1 ≠ Some kv.2) (view x))
  = changed_fields x parent.
Proof.
  apply set_eq. intros k. unfold changed_fields.
  rewrite elem_of_dom, elem_of_filter, <- dom_view, elem_of_dom.
  split.
  - intros [v [Hv Hne]%map_lookup_filter_Some]. simpl in Hne.
    split; [congruence | eauto].
  - intros [Hne [v Hv]]. exists v. apply map_lookup_filter_Some.
    split; [done|]. simpl. congruence.
Qed.
End view_facts.

(** C1. For records [a], [parent], [b] of one class, [merge] returns the
    conflict outcome (Python's [None]) whenever some field is changed, against
    the parent, by both [a] and [b]; what the two new values are, equal or
    not, plays no part. *)
Theorem merge_conflict_on_overlap (c : cls) (a parent b : ASSLine) :
  is_record c a → is_record c parent → is_record c b →
  changed_fields a parent ∩ changed_fields b parent ≠ ∅ →
  merge c a parent b = Some None.
Proof.
  intros Ha Hp Hb Hov. unfold merge.
  rewrite (changed_record c a parent Ha Hp), (changed_record c b parent Hb Hp).
  simpl. rewrite !dom_changed. by rewrite decide_True.
Qed.

(** ** Sample records *)

(** A dialogue line with the given type, times and text (the other fields as
    in the conflict line of the program), holding the reference indices
    [extra]. *)
Definition sample_dialogue (ty start stop text : string) (extra : list Z)
  : ASSLine :=
  mkLine DialogueLine (Some "Own")
    (list_to_map
       [("Layer", VStr "0"); ("Start", VStr start); ("End", VStr stop);
        ("Style", VStr "Default"); ("Name", VStr ""); ("MarginL", VStr "0");
        ("MarginR", VStr "0"); ("MarginV", VStr "0"); ("Effect", VStr "");
        ("Text", VStr text); ("Type", VStr ty)])
    extra.

Lemma sample_dialogue_record ty start stop text extra :
  is_record DialogueLine (sample_dialogue ty start stop text extra).
Proof. split; [done|]. by vm_compute. Qed.

(** Both sides replace the text [old] by the same text [new]: a conflict. *)
Lemma merge_conflict_on_overlap_witness :
  merge DialogueLine
    (sample_dialogue "Dialogue" "0:00:00.00" "0:00:05.00" "new" [])
    (sample_dialogue "Dialogue" "0:00:00.00" "0:00:05.00" "old" [])
    (sample_dialogue "Dialogue" "0:00:00.00" "0:00:05.00" "new" [])
  = Some None.
Proof.
  apply merge_conflict_on_overlap;
    [apply sample_dialogue_record .. |].
  by vm_compute.
Defined.

(** ** When the merge succeeds *)

(** What the constructors establish besides the keys of [fields]: a valid
    type, a dialogue text that is a [str], a data id that is an int. *)
Definition well_typed (c : cls) (x : ASSLine) : Prop :=
  (∀ valid, VALID_TYPES c = Some valid →
     ∃ t, fields x !! "Type" = Some (VStr t) ∧ t ∈ valid) ∧
  (c = DialogueLine → ∃ s, fields x !! "Text" = Some (VStr s)) ∧
  (c = DataLine → ∃ n, fields x !! "Id" = Some (VInt n)).

(** The entries of [x] that differ from those of [parent]. *)
Definition changes (x parent : ASSLine) : gmap string value :=
  filter (fun kv => view parent !! kv.1 ≠ Some kv.2) (view x).

Section merge_success.
Context (c : cls) (a parent b : ASSLine).
Context (Ha : is_record c a) (Hp : is_record c parent) (Hb : is_record c b).
Context (Ta : well_typed c a) (Tp : well_typed c parent) (Tb : well_typed c b).

Let merged := merged_fields (view parent) (changes a parent) (changes b parent).

(** Every entry of the merged fields is shown by one of the three records. *)
Lemma merged_lookup k v :
  merged !! k = Some v →
  view a !! k = Some v ∨ view parent !! k = Some v ∨ view b !! k = Some v.
Proof using Type.
  unfold merged, merged_fields, changes.
  intros [H|[_ [H|[_ H]]%lookup_union_Some_raw]]%lookup_union_Some_raw.
  - apply map_lookup_filter_Some in H as [H _]. auto.
  - apply map_lookup_filter_Some in H as [H _]. auto.
  - auto.
Qed.

Lemma dom_merged : dom merged = list_to_set ("Type" :: FIELDS c).
Proof using Ha Hp Hb.
  unfold merged, merged_fields, changes. rewrite !dom_union_L.
  destruct Ha as [_ Da], Hp as [_ Dp], Hb as [_ Db].
  apply set_eq. intros k. rewrite !elem_of_union, <- Dp, dom_view. split.
  - intros [Hk|[Hk|Hk]]; [| |done].
    + apply elem_of_dom in Hk as [v [Hv _]%map_lookup_filter_Some].
      rewrite Dp, <- Db, <- dom_view. apply elem_of_dom. eauto.
    + apply elem_of_dom in Hk as [v [Hv _]%map_lookup_filter_Some].
      rewrite Dp, <- Da, <- dom_view. apply elem_of_dom. eauto.
  - auto.
Qed.

Lemma view_Type x : line_cls x = c → view x !! "Type" = fields x !! "Type".
Proof using Type.
  intros _. rewrite lookup_view. destruct (fields x !! "Type"); [|done].
  simpl. rewrite decide_False; [done|]. by intros [_ ?].
Qed.

Lemma merged_check_type : check_type c merged = Some ().
Proof using Ha Hp Hb Ta Tp Tb.
  unfold check_type. destruct (VALID_TYPES c) as [valid|] eqn:Hv; [|done].
  assert (∃ t, merged !! "Type" = Some (VStr t) ∧ t ∈ valid) as (t & -> & Ht).
  { assert (is_Some (merged !! "Type")) as [v Hm].
    { apply elem_of_dom. rewrite dom_merged. set_solver. }
    destruct (merged_lookup _ _ Hm) as [H|[H|H]];
      rewrite view_Type in H by (by destruct Ha, Hp, Hb);
      [destruct Ta as [T _] | destruct Tp as [T _] | destruct Tb as [T _]];
      destruct (T valid Hv) as (t & Ht & Hin);
      exists t; split; [congruence | done | congruence | done | congruence | done]. }
  simpl. rewrite decide_True; [done|].
  apply list_elem_of_fmap. eauto.
Qed.

(** The text a dialogue line shows is a [str]. *)
Lemma view_Text_str x :
  well_typed DialogueLine x → ∀ v, view x !! "Text" = Some v → ∃ s, v = VStr s.
Proof using Type.
  intros (_ & T & _) v. destruct (T eq_refl) as [s Hs].
  rewrite lookup_view, Hs. simpl. case_decide; [|naive_solver].
  destruct (extra_indices x); simpl; naive_solver.
Qed.

(** The merge succeeds when the changed fields are disjoint, and the record
    it builds shows the parent's entries overridden by the changes of [a]
    and then by the changes of [b], provided the merged text of a dialogue
    line reads back as written. *)
Lemma merge_disjoint_view :
  changed_fields a parent ## changed_fields b parent →
  (c = DialogueLine →
     ∀ s, merged !! "Text" = Some (VStr s) → reads_back s) →
  ∃ line, merge c a parent b = Some (Some line)
          ∧ line_cls line = c
          ∧ view line = merged.
Proof using Ha Hp Hb Ta Tp Tb.
  intros Hdisj Hback. unfold merge.
  rewrite (changed_record c a parent Ha Hp), (changed_record c b parent Hb Hp).
  simpl. rewrite !dom_changed.
  rewrite decide_False by (intros H; apply H; set_solver).
  rewrite (items_record c parent Hp). simpl.
  fold (changes a parent) (changes b parent). fold merged.
  unfold init. rewrite merged_check_type. simpl.
  pose proof dom_merged as Dm. pose proof merged_lookup as Ml.
  destruct Ha as [Ca _], Hp as [Cp _], Hb as [Cb _].
  clear Hdisj. destruct c eqn:Hc.
  - eexists; split; [done|]. split; [done|].
    apply map_eq. intros k. rewrite lookup_view. simpl.
    destruct (merged !! k); [|done]. simpl.
    try case_decide; naive_solver.
  - eexists; split; [done|]. split; [done|].
    apply map_eq. intros k. rewrite lookup_view. simpl.
    destruct (merged !! k); [|done]. simpl.
    try case_decide; naive_solver.
  - assert (∃ s, merged !! "Text" = Some (VStr s)) as [s Hs].
    { assert (is_Some (merged !! "Text")) as [v Hm].
      { apply elem_of_dom. rewrite Dm. set_solver. }
      destruct (Ml _ _ Hm) as [H|[H|H]];
        eapply view_Text_str in H as [s ->]; eauto. }
    rewrite Hs. simpl. specialize (Hback eq_refl s Hs). unfold reads_back in Hback.
    destruct (match_prefix s) as [[indices text]|].
    + destruct Hback as [Hne Hfmt].
      eexists; split; [done|]. split; [done|].
      apply map_eq. intros k. rewrite lookup_view. simpl.
      destruct (decide (k = "Text")) as [->|Hk].
      * rewrite lookup_insert_eq, Hs. simpl.
        destruct indices; [done|]. simpl. by rewrite Hfmt.
      * rewrite lookup_insert_ne by done.
        destruct (merged !! k); [|done]. simpl.
        try case_decide; naive_solver.
    + eexists; split; [done|]. split; [done|].
      apply map_eq. intros k. rewrite lookup_view. simpl.
      destruct (merged !! k); [|done]. simpl. by case_decide.
  - assert (∃ n, merged !! "Id" = Some (VInt n)) as [n Hn].
    { assert (is_Some (merged !! "Id")) as [v Hm].
      { apply elem_of_dom. rewrite Dm. set_solver. }
      assert (∀ x, well_typed DataLine x → line_cls x = DataLine →
                   view x !! "Id" = Some v → ∃ n, v = VInt n) as Hid.
      { intros x (_ & _ & T) Hx. destruct (T eq_refl) as [n Hn].
        rewrite lookup_view, Hn. simpl.
        rewrite decide_False by (rewrite Hx; by intros [? _]). naive_solver. }
      destruct (Ml _ _ Hm) as [H|[H|H]];
        eapply Hid in H as [n ->]; eauto. }
    rewrite Hn. simpl.
    eexists; split; [done|]. split; [done|].
    apply map_eq. intros k. rewrite lookup_view. simpl.
    destruct (decide (k = "Id")) as [->|Hk].
    * rewrite lookup_insert_eq. simpl.
      try case_decide; naive_solver.
    * rewrite lookup_insert_ne by done.
      destruct (merged !! k); [|done]. simpl.
      try case_decide; naive_solver.
Qed.
End merge_success.

Lemma unchanged_lookup c x parent k :
  is_record c x → is_record c parent →
  k ∉ changed_fields x parent → view x !! k = view parent !! k.
Proof.
  intros [_ Dx] [_ Dp] Hk.
  destruct (decide (k ∈ dom (fields x))) as [Hin|Hout].
  - destruct (decide (view x !! k = view parent !! k)) as [|Hne]; [done|].
    exfalso. apply Hk. unfold changed_fields. by apply elem_of_filter.
  - assert (k ∉ dom (fields parent)) as Hout' by (by rewrite Dp, <- Dx).
    rewrite <- dom_view in Hout, Hout'.
    apply not_elem_of_dom in Hout, Hout'. by rewrite Hout, Hout'.
Qed.

Lemma changes_lookup_None x parent k :
  k ∉ changed_fields x parent → changes x parent !! k = None.
Proof.
  intros Hk. apply not_elem_of_dom. unfold changes. by rewrite dom_changed.
Qed.

Lemma changes_lookup_Some x parent k v :
  changes x parent !! k = Some v → view x !! k = Some v.
Proof. unfold changes. by intros [? _]%map_lookup_filter_Some. Qed.

(** An entry of the merged fields is that of [a] for a field that [b] left
    alone, and that of [b] for a field that [a] left alone. *)
Lemma merged_fields_sides c a parent b k :
  is_record c a → is_record c parent → is_record c b →
  let merged :=
    merged_fields (view parent) (changes a parent) (changes b parent) in
  (k ∉ changed_fields b parent → merged !! k = view a !! k)
  ∧ (k ∉ changed_fields a parent → merged !! k = view b !! k).
Proof.
  intros Ra Rp Rb merged. subst merged. unfold merged_fields. split; intros Hk.
  - rewrite lookup_union_r by by apply changes_lookup_None.
    destruct (changes a parent !! k) as [v|] eqn:Hv.
    + rewrite (lookup_union_Some_l _ _ _ _ Hv).
      symmetry. by eapply changes_lookup_Some.
    + rewrite lookup_union_r by done. symmetry.
      apply (unchanged_lookup c); [done..|].
      intros Hin. unfold changes in Hv. rewrite <- dom_changed in Hin.
      apply elem_of_dom in Hin as [? Hin]. congruence.
  - destruct (changes b parent !! k) as [v|] eqn:Hv.
    + rewrite (lookup_union_Some_l _ _ _ _ Hv).
      symmetry. by eapply changes_lookup_Some.
    + rewrite lookup_union_r by done.
      rewrite lookup_union_r by by apply changes_lookup_None.
      symmetry. apply (unchanged_lookup c); [done..|].
      intros Hin. unfold changes in Hv. rewrite <- dom_changed in Hin.
      apply elem_of_dom in Hin as [? Hin]. congruence.
Qed.

(** For records [a], [parent], [b] of one class whose changed
    fields are disjoint, [merge] succeeds, and the line it builds shows the
    entries of the parent overridden by the changes of [a] and then by the
    changes of [b], provided, for a dialogue line, that the merged text reads
    back as written.  In particular the line shows the entry of [a] for every
    field that [b] left alone, and the entry of [b] for every field that [a]
    left alone: the local text and the remote times, when these are what the
    sides changed. *)
Theorem merge_disjoint_overrides (c : cls) (a parent b : ASSLine) :
  is_record c a → is_record c parent → is_record c b →
  well_typed c a → well_typed c parent → well_typed c b →
  changed_fields a parent ## changed_fields b parent →
  (c = DialogueLine →
     ∀ s, merged_fields (view parent) (changes a parent) (changes b parent)
            !! "Text" = Some (VStr s) → reads_back s) →
  ∃ line,
    merge c a parent b = Some (Some line)
    ∧ view line
      = merged_fields (view parent) (changes a parent) (changes b parent)
    ∧ (∀ k, k ∉ changed_fields b parent → view line !! k = view a !! k)
    ∧ (∀ k, k ∉ changed_fields a parent → view line !! k = view b !! k).
Proof.
  intros Ra Rp Rb Ta Tp Tb Hdisj Hback.
  destruct (merge_disjoint_view c a parent b Ra Rp Rb Ta Tp Tb Hdisj Hback)
    as (line & Hmerge & _ & Hview).
  exists line. split; [done|]. split; [done|]. rewrite Hview.
  split; intros k Hk; by apply (merged_fields_sides c a parent b k Ra Rp Rb).
Qed.

Lemma sample_dialogue_typed start stop text extra :
  well_typed DialogueLine (sample_dialogue "Dialogue" start stop text extra).
Proof.
  split_and!.
  - intros valid [= <-]. exists "Dialogue". split; [by vm_compute|].
    apply list_elem_of_here.
  - intros _. eexists. by vm_compute.
  - done.
Qed.

(** The local side changed the text, the remote side the times. *)
Lemma merge_disjoint_overrides_witness :
  ∃ line,
    merge DialogueLine
      (sample_dialogue "Dialogue" "0:00:00.00" "0:00:05.00" "new" [])
      (sample_dialogue "Dialogue" "0:00:00.00" "0:00:05.00" "old" [])
      (sample_dialogue "Dialogue" "0:00:01.00" "0:00:06.00" "old" [])
    = Some (Some line)
    ∧ view line !! "Text" = Some (VStr "new")
    ∧ view line !! "Start" = Some (VStr "0:00:01.00")
    ∧ view line !! "End" = Some (VStr "0:00:06.00").
Proof.
  destruct (merge_disjoint_overrides DialogueLine
              (sample_dialogue "Dialogue" "0:00:00.00" "0:00:05.00" "new" [])
              (sample_dialogue "Dialogue" "0:00:00.00" "0:00:05.00" "old" [])
              (sample_dialogue "Dialogue" "0:00:01.00" "0:00:06.00" "old" []))
    as (line & Hmerge & _ & Ha & Hb);
    [apply sample_dialogue_record | apply sample_dialogue_record
    | apply sample_dialogue_record | apply sample_dialogue_typed
    | apply sample_dialogue_typed | apply sample_dialogue_typed
    | apply (bool_decide_unpack _); by vm_compute | |].
  - intros _ s Hs. vm_compute in Hs. injection Hs as <-. by vm_compute.
  - exists line. split; [done|]. split_and!.
    + rewrite Ha; by vm_compute.
    + rewrite Hb; by vm_compute.
    + rewrite Hb; by vm_compute.
Defined.

(** Where the side condition fails: the local side sets a text that begins
    like a reference prefix but holds no reference (its indices were dropped
    as dangling) and the remote side sets the times.  The fields changed are
    disjoint and the merge succeeds, but the line it builds does not show
    the parent's entries overridden by the changes, because the constructor
    reads the text as a prefix again and formats the index anew. *)
Lemma merge_rereads_text :
  let a := sample_dialogue "Dialogue" "0:00:00.00" "0:00:05.00" "{=007}foo" [] in
  let parent := sample_dialogue "Dialogue" "0:00:00.00" "0:00:05.00" "bar" [] in
  let b := sample_dialogue "Dialogue" "0:00:01.00" "0:00:06.00" "bar" [] in
  is_record DialogueLine a ∧ is_record DialogueLine parent
  ∧ is_record DialogueLine b
  ∧ changed_fields a parent = {["Text"]}
  ∧ changed_fields b parent = {["Start"; "End"]}
  ∧ changed_fields a parent ## changed_fields b parent
  ∧ ∃ line, merge DialogueLine a parent b = Some (Some line)
            ∧ view line
              ≠ merged_fields (view parent) (changes a parent) (changes b parent)
            ∧ view a !! "Text" = Some (VStr "{=007}foo")
            ∧ view line !! "Text" = Some (VStr "{=7}foo").
Proof.
  split_and!;
    [apply sample_dialogue_record | apply sample_dialogue_record
    | apply sample_dialogue_record | by vm_compute | by vm_compute
    | apply (bool_decide_unpack _); by vm_compute |].
  eexists. split; [by vm_compute|]. split_and!; [|by vm_compute ..].
  intros Heq. by vm_compute in Heq.
Qed.

(** * Ordered dictionaries

    An [OrderedDict] (and a [dict] that is iterated): the entries in the order
    their keys were first inserted. *)
Section odict.
Context {K V : Type} `{EqDecision K}.

Definition odict := list (K * V).

(** [d.get(k)] *)
Fixpoint od_get (k : K) (d : list (K * V)) : option V :=
  match d with
  | [] => None
  | (k', v) :: d' => if decide (k = k') then Some v else od_get k d'
  end.

(** [d[k] = v]: in place when the key is there, at the end otherwise. *)
Fixpoint od_set (k : K) (v : V) (d : list (K * V)) : list (K * V) :=
  match d with
  | [] => [(k, v)]
  | (k', v') :: d' =>
      if decide (k = k') then (k', v) :: d' else (k', v') :: od_set k v d'
  end.

(** [d.pop(k, None)] *)
Definition od_pop (k : K) (d : list (K * V)) : list (K * V) :=
  filter (fun kv => kv.1 ≠ k) d.

(** [d.update(other)] *)
Definition od_update (d other : list (K * V)) : list (K * V) :=
  fold_left (fun acc kv => od_set kv.1 kv.2 acc) other d.

(** [OrderedDict(pairs)] *)
Definition od_of_pairs (pairs : list (K * V)) : list (K * V) :=
  od_update [] pairs.

Lemma od_get_set k k' v d :
  od_get k (od_set k' v d) = if decide (k = k') then Some v else od_get k d.
Proof.
  induction d as [|[k1 v1] d IH]; simpl.
  - by repeat case_decide.
  - repeat (case_decide; simpl; subst); try done; congruence.
Qed.

Lemma od_set_keys k v d :
  (od_set k v d).*1 = if decide (k ∈ d.*1) then d.*1 else d.*1 ++ [k].
Proof.
  induction d as [|[k1 v1] d IH].
  - destruct (decide (k ∈ ([] : list (K * V)).*1)) as [H|]; [|done].
    by apply elem_of_nil in H.
  - cbn [od_set]. destruct (decide (k = k1)) as [->|Hne].
    + destruct (decide (k1 ∈ ((k1, v1) :: d).*1)) as [|Hn]; [done|].
      exfalso. apply Hn. apply list_elem_of_here.
    + rewrite fmap_cons, IH. cbn [fst].
      destruct (decide (k ∈ d.*1)) as [Hin|Hin],
               (decide (k ∈ ((k1, v1) :: d).*1)) as [Hin'|Hin']; try done.
      * exfalso. apply Hin'. by apply list_elem_of_further.
      * apply elem_of_cons in Hin' as [?|?]; done.
Qed.

Lemma od_set_NoDup k v d : NoDup d.*1 → NoDup (od_set k v d).*1.
Proof.
  intros Hd. rewrite od_set_keys. case_decide; [done|].
  apply NoDup_app. split_and!; [done | | apply NoDup_singleton].
  intros x Hx ->%list_elem_of_singleton. done.
Qed.

Lemma od_update_NoDup d other : NoDup d.*1 → NoDup (od_update d other).*1.
Proof.
  revert d. induction other as [|[k v] other IH]; intros d Hd; simpl; [done|].
  apply IH. by apply od_set_NoDup.
Qed.

Lemma od_pop_NoDup k d : NoDup d.*1 → NoDup (od_pop k d).*1.
Proof.
  unfold od_pop. induction d as [|[k1 v1] d IH]; simpl; [done|].
  intros [Hn Hd]%NoDup_cons. rewrite filter_cons. simpl.
  case_decide; simpl; [|by apply IH].
  apply NoDup_cons. split; [|by apply IH].
  intros [[k2 v2] [-> Hin]]%list_elem_of_fmap. simpl in *.
  apply list_elem_of_filter in Hin as [_ Hin].
  apply Hn. apply list_elem_of_fmap. by exists (k2, v2).
Qed.

Lemma od_get_update_other k d other :
  k ∉ other.*1 → od_get k (od_update d other) = od_get k d.
Proof.
  revert d. induction other as [|[k1 v1] other IH]; intros d Hk; simpl; [done|].
  apply not_elem_of_cons in Hk as [Hne Hk]. simpl in *.
  rewrite IH by done. rewrite od_get_set. by rewrite decide_False.
Qed.

(** After an update, a key of [other] holds the value [other] gives it. *)
Lemma od_get_update k v d other :
  NoDup other.*1 → (k, v) ∈ other → od_get k (od_update d other) = Some v.
Proof.
  revert d. induction other as [|[k1 v1] other IH]; intros d Hnd Hin; simpl.
  - by apply elem_of_nil in Hin.
  - simpl in Hnd. apply NoDup_cons in Hnd as [Hn Hnd].
    apply elem_of_cons in Hin as [[= -> ->]|Hin].
    + rewrite od_get_update_other by done. rewrite od_get_set.
      by rewrite decide_True.
    + by apply IH.
Qed.

Lemma od_get_Some k v d : od_get k d = Some v → (k, v) ∈ d.
Proof.
  induction d as [|[k1 v1] d IH]; simpl; [done|].
  case_decide; subst.
  - intros [= ->]. apply list_elem_of_here.
  - intros H'. apply list_elem_of_further. by apply IH.
Qed.

Lemma od_elem_get k v d : NoDup d.*1 → (k, v) ∈ d → od_get k d = Some v.
Proof.
  induction d as [|[k1 v1] d IH]; simpl.
  - intros _ Hin. by apply elem_of_nil in Hin.
  - intros [Hn Hd]%NoDup_cons [[= -> ->]|Hin]%elem_of_cons.
    + by rewrite decide_True.
    + case_decide; subst; [|by apply IH].
      exfalso. apply Hn. apply list_elem_of_fmap. by exists (k1, v).
Qed.

Lemma od_filter_NoDup (P : K * V → Prop) `{!∀ kv, Decision (P kv)} d :
  NoDup d.*1 → NoDup (filter P d).*1.
Proof.
  induction d as [|[k1 v1] d IH]; simpl; [done|].
  intros [Hn Hd]%NoDup_cons. rewrite filter_cons.
  case_decide; simpl; [|by apply IH].
  apply NoDup_cons. split; [|by apply IH].
  intros [[k2 v2] [-> Hin]]%list_elem_of_fmap. simpl in *.
  apply list_elem_of_filter in Hin as [_ Hin].
  apply Hn. apply list_elem_of_fmap. by exists (k2, v2).
Qed.
End odict.

Section odict_more.
Context {K V : Type} `{EqDecision K}.

Lemma od_update_fresh (acc other : list (K * V)) :
  NoDup (acc ++ other).*1 → od_update acc other = acc ++ other.
Proof.
  revert acc. induction other as [|[k v] other IH]; intros acc Hnd; simpl.
  - by rewrite app_nil_r.
  - assert (od_set k v acc = acc ++ [(k, v)]) as ->.
    { rewrite fmap_app in Hnd. apply NoDup_app in Hnd as (_ & Hd & _).
      assert (k ∉ acc.*1) as Hk.
      { intros Hin. apply (Hd k Hin). simpl. apply list_elem_of_here. }
      clear -Hk. induction acc as [|[k1 v1] acc IH]; simpl; [done|].
      apply not_elem_of_cons in Hk as [Hne Hk]. simpl in *.
      rewrite decide_False by done. by rewrite IH. }
    rewrite IH; rewrite <- app_assoc; done.
Qed.

(** Building an ordered dictionary from pairs with distinct keys keeps them. *)
Lemma od_of_pairs_NoDup (pairs : list (K * V)) :
  NoDup pairs.*1 → od_of_pairs pairs = pairs.
Proof. intros Hnd. unfold od_of_pairs. by rewrite od_update_fresh. Qed.

Lemma od_of_pairs_keys (pairs : list (K * V)) : NoDup (od_of_pairs pairs).*1.
Proof. apply od_update_NoDup. simpl. apply NoDup_nil_2. Qed.

Lemma od_pops_NoDup (ks : list K) (d : list (K * V)) :
  NoDup d.*1 → NoDup (fold_left (fun acc k => od_pop k acc) ks d).*1.
Proof.
  revert d. induction ks as [|k ks IH]; intros d Hd; simpl; [done|].
  apply IH. by apply od_pop_NoDup.
Qed.
End odict_more.

(** * [merge_keyval]: the key/value sections *)

(** [args.script_info] *)
Inductive side := ours | theirs.

(** [lines_to_map]: the ordered dictionary of [(line.Type, line.Value)]. *)
Definition lines_to_map (lines : list ASSLine) : option (list (value * value)) :=
  pairs ← mapM (fun line =>
             k ← getitem line "Type"; v ← getitem line "Value"; Some (k, v))
           lines;
  Some (od_of_pairs pairs).

(** The entries of [x_map] that [o_map] lacks or holds with another value. *)
Definition keyval_changed (x_map o_map : list (value * value))
  : list (value * value) :=
  od_of_pairs (filter (fun kv => od_get kv.1 o_map ≠ Some kv.2) x_map).

(** The keys of [o_map] that [x_map] lacks (a set in the source; it is only
    iterated to pop its keys, in whatever order). *)
Definition keyval_removed (x_map o_map : list (value * value)) : list value :=
  filter (fun k => od_get k x_map = None) o_map.*1.

(** The dictionary that [merge_keyval] ends with. *)
Definition merge_keyval_map (script_info : side)
    (a_map o_map b_map : list (value * value)) : list (value * value) :=
  let a_changed := keyval_changed a_map o_map in
  let a_removed := keyval_removed a_map o_map in
  let b_changed := keyval_changed b_map o_map in
  let b_removed := keyval_removed b_map o_map in
  let '(first_removed, first_changed, second_removed, second_changed) :=
    match script_info with
    | ours => (b_removed, b_changed, a_removed, a_changed)
    | theirs => (a_removed, a_changed, b_removed, b_changed)
    end in
  let o_map := fold_left (fun acc key => od_pop key acc) first_removed o_map in
  let o_map := od_update o_map first_changed in
  let o_map := fold_left (fun acc key => od_pop key acc) second_removed o_map in
  od_update o_map second_changed.

Definition merge_keyval (script_info : side) (A O B : list ASSLine)
  : option (list ASSLine) :=
  a_map ← lines_to_map A;
  o_map ← lines_to_map O;
  b_map ← lines_to_map B;
  mapM (fun kv =>
          init KeyValueLine (<["Value" := kv.2]> {["Type" := kv.1]}) None)
       (merge_keyval_map script_info a_map o_map b_map).

(** The side that [script_info] prefers. *)
Definition preferred {T} (script_info : side) (mine their : T) : T :=
  match script_info with ours => mine | theirs => their end.

Section merge_keyval_facts.
Implicit Types (a_map o_map b_map : list (value * value)).

Lemma lines_to_map_NoDup lines m : lines_to_map lines = Some m → NoDup m.*1.
Proof.
  unfold lines_to_map. intros H. apply bind_Some in H as (pairs & _ & [= <-]).
  apply od_of_pairs_keys.
Qed.

Lemma keyval_changed_elem x_map o_map k v :
  NoDup x_map.*1 →
  od_get k x_map = Some v → od_get k o_map ≠ Some v →
  NoDup (keyval_changed x_map o_map).*1 ∧ (k, v) ∈ keyval_changed x_map o_map.
Proof.
  intros Hnd Hk Hne. unfold keyval_changed.
  rewrite od_of_pairs_NoDup by by apply od_filter_NoDup.
  split; [by apply od_filter_NoDup|].
  apply list_elem_of_filter. split; [done | by apply od_get_Some].
Qed.

(** The dictionary holds, for a key the preferred side changed, the value
    of that side: its update is the last one applied. *)
Lemma merge_keyval_map_preferred script_info a_map o_map b_map k va vb :
  NoDup a_map.*1 → NoDup b_map.*1 →
  od_get k a_map = Some va → od_get k o_map ≠ Some va →
  od_get k b_map = Some vb → od_get k o_map ≠ Some vb →
  od_get k (merge_keyval_map script_info a_map o_map b_map)
  = Some (preferred script_info va vb).
Proof.
  intros Ha Hb Hka Hoa Hkb Hob.
  destruct (keyval_changed_elem a_map o_map k va Ha Hka Hoa) as [Na Ia].
  destruct (keyval_changed_elem b_map o_map k vb Hb Hkb Hob) as [Nb Ib].
  unfold merge_keyval_map. destruct script_info; simpl;
    by apply od_get_update.
Qed.

Lemma merge_keyval_map_NoDup script_info a_map o_map b_map :
  NoDup o_map.*1 → NoDup (merge_keyval_map script_info a_map o_map b_map).*1.
Proof.
  intros Ho. unfold merge_keyval_map. destruct script_info; simpl;
    by apply od_update_NoDup, od_pops_NoDup, od_update_NoDup, od_pops_NoDup.
Qed.

Lemma merge_keyval_lines (m : list (value * value)) :
  mapM (fun kv =>
          init KeyValueLine (<["Value" := kv.2]> {["Type" := kv.1]}) None) m
  = Some ((fun kv =>
             mkLine KeyValueLine None
               (<["Value" := kv.2]> {["Type" := kv.1]}) []) <$> m).
Proof. apply mapM_Some. apply Forall2_fmap_r, Forall_Forall2_diag, Forall_true. done. Qed.
End merge_keyval_facts.

(** C8. When both sides changed a key against the ancestor, to two different
    values, the merged section holds the key once, with the value of the side
    that [script_info] prefers: that side's removals and updates are applied
    after the other side's. *)
Theorem merge_keyval_preferred_wins script_info A O B a_map o_map b_map k va vb :
  lines_to_map A = Some a_map →
  lines_to_map O = Some o_map →
  lines_to_map B = Some b_map →
  od_get k a_map = Some va → od_get k o_map ≠ Some va →
  od_get k b_map = Some vb → od_get k o_map ≠ Some vb →
  va ≠ vb →
  ∃ out, merge_keyval script_info A O B = Some out
    ∧ (∃ line, line ∈ out ∧ getitem line "Type" = Some k
               ∧ getitem line "Value" = Some (preferred script_info va vb))
    ∧ (∀ line, line ∈ out → getitem line "Type" = Some k →
               getitem line "Value" = Some (preferred script_info va vb)).
Proof.
  intros HA HO HB Hka Hoa Hkb Hob _.
  pose proof (lines_to_map_NoDup _ _ HA) as Na.
  pose proof (lines_to_map_NoDup _ _ HO) as No.
  pose proof (lines_to_map_NoDup _ _ HB) as Nb.
  pose proof (merge_keyval_map_preferred script_info a_map o_map b_map k va vb
                Na Nb Hka Hoa Hkb Hob) as Hget.
  pose proof (merge_keyval_map_NoDup script_info a_map o_map b_map No) as Nm.
  unfold merge_keyval. rewrite HA, HO, HB. simpl.
  rewrite merge_keyval_lines. eexists. split; [done|]. split.
  - eexists. split.
    + apply list_elem_of_fmap. eexists. split; [done|].
      apply od_get_Some, Hget.
    + by vm_compute.
  - intros line [[k' v'] [-> Hin]]%list_elem_of_fmap Hty.
    assert (k' = k) as -> by (vm_compute in Hty; congruence).
    apply (od_elem_get _ _ _ Nm) in Hin.
    assert (v' = preferred script_info va vb) as -> by congruence.
    by vm_compute.
Qed.

(** Sample key/value lines: the title that the ancestor has is changed by
    both sides, to two different titles. *)
Definition sample_keyval (key val : string) : ASSLine :=
  mkLine KeyValueLine (Some "Own")
    (list_to_map [("Value", VStr val); ("Type", VStr key)]) [].

Lemma merge_keyval_preferred_wins_witness :
  ∃ out, merge_keyval ours [sample_keyval "Title" "mine"]
           [sample_keyval "Title" "old"] [sample_keyval "Title" "their"]
         = Some out
    ∧ (∃ line, line ∈ out ∧ getitem line "Type" = Some (VStr "Title")
               ∧ getitem line "Value" = Some (VStr "mine"))
    ∧ (∀ line, line ∈ out → getitem line "Type" = Some (VStr "Title") →
               getitem line "Value" = Some (VStr "mine")).
Proof.
  apply (merge_keyval_preferred_wins ours
           [sample_keyval "Title" "mine"] [sample_keyval "Title" "old"]
           [sample_keyval "Title" "their"]
           [(VStr "Title", VStr "mine")] [(VStr "Title", VStr "old")]
           [(VStr "Title", VStr "their")]
           (VStr "Title") (VStr "mine") (VStr "their"));
    by vm_compute.
Defined.

(** * [merge_extradata]: the side table *)

(** A [DataLine] object, of which the reconciliation reads and writes [Id]
    and reads [Key] and [Value] (its type is always [Data], and its [Id] an
    int, by its constructor). *)
Record data_line := mkData {
  Id : Z;
  Key : string;
  Value : string
}.

#[global] Instance data_line_eq_dec : EqDecision data_line.
Proof. solve_decision. Defined.

(** What the reconciliation reads of a parsed file: the data lines of its
    extradata section and the dialogue lines of its events section. *)
Record document := mkDocument {
  Extradata : list data_line;
  Events : list ASSLine
}.

(** The three variables that live across the files. *)
Record registry := mkRegistry {
  extradata_to_id : gmap (string * string) Z;
  id_to_extradata : gmap Z data_line;
  largest_id : Z
}.

Definition empty_registry : registry := mkRegistry ∅ ∅ 0.

(** The body of the loop over the data lines of one file: the registry and
    the [id_map] of the file after the line, and the line with its new id. *)
Definition reconcile_line (st : registry) (id_map : gmap Z Z) (d : data_line)
  : registry * gmap Z Z * data_line :=
  let original_id := Id d in
  match extradata_to_id st !! (Key d, Value d) with
  | Some i =>
      let d := mkData i (Key d) (Value d) in
      (st, <[original_id := Id d]> id_map, d)
  | None =>
      let d :=
        if decide (is_Some (id_to_extradata st !! Id d))
        then mkData (largest_id st + 1) (Key d) (Value d)
        else d in
      (mkRegistry (<[(Key d, Value d) := Id d]> (extradata_to_id st))
                  (<[Id d := d]> (id_to_extradata st))
                  (Z.max (largest_id st) (Id d)),
       <[original_id := Id d]> id_map, d)
  end.

Fixpoint reconcile_lines (st : registry) (id_map : gmap Z Z)
    (lines : list data_line) : registry * gmap Z Z * list data_line :=
  match lines with
  | [] => (st, id_map, [])
  | d :: lines' =>
      let '(st, id_map, d) := reconcile_line st id_map d in
      let '(st, id_map, lines') := reconcile_lines st id_map lines' in
      (st, id_map, d :: lines')
  end.

(** [[id_map[i] for i in extra_indices if i in id_map]] on every event. *)
Definition rewrite_events (id_map : gmap Z Z) (events : list ASSLine)
  : list ASSLine :=
  (fun e => mkLine (line_cls e) (source_file e) (fields e)
              (omap (fun i => id_map !! i) (extra_indices e))) <$> events.

(** One turn of the loop over the files: the registry after the file, the
    [id_map] of the file, and the file as the turn leaves it. *)
Definition reconcile_file (st : registry) (f : document)
  : registry * gmap Z Z * document :=
  let '(st, id_map, lines) := reconcile_lines st ∅ (Extradata f) in
  (st, id_map, mkDocument lines (rewrite_events id_map (Events f))).

(** [[id_to_extradata[i] for i in sorted(id_to_extradata)]] *)
Definition sorted_table (m : gmap Z data_line) : list data_line :=
  omap (fun i => m !! i) (merge_sort Z.le (map_to_list m).*1).

(** What [merge_extradata] returns and what it leaves in its arguments, which
    it changes in place: the merged table, and the three files with their
    [id_map]s. *)
Record reconciled := mkReconciled {
  table : list data_line;
  parent_map : gmap Z Z;  parent_after : document;
  mine_map : gmap Z Z;    mine_after : document;
  their_map : gmap Z Z;   their_after : document
}.

Definition merge_extradata (mine parent their : document) : reconciled :=
  let '(st, pm, parent') := reconcile_file empty_registry parent in
  let '(st, mm, mine') := reconcile_file st mine in
  let '(st, tm, their') := reconcile_file st their in
  mkReconciled (sorted_table (id_to_extradata st)) pm parent' mm mine' tm their'.

(** ** The invariant of the registry *)

Definition content (d : data_line) : string * string := (Key d, Value d).

(** Every registered id holds a line of that id whose content is registered
    under it, every registered content is that of the line under its id, and
    no registered id exceeds [largest_id]. *)
Record registry_ok (st : registry) : Prop := {
  ok_id : ∀ i d, id_to_extradata st !! i = Some d →
            Id d = i ∧ extradata_to_id st !! content d = Some i;
  ok_content : ∀ c i, extradata_to_id st !! c = Some i →
            ∃ d, id_to_extradata st !! i = Some d ∧ content d = c;
  ok_largest : ∀ i d, id_to_extradata st !! i = Some d → i ≤ largest_id st
}.

(** The registry only grows. *)
Definition registry_le (st st' : registry) : Prop :=
  extradata_to_id st ⊆ extradata_to_id st'
  ∧ id_to_extradata st ⊆ id_to_extradata st'.

#[local] Instance registry_le_preorder : PreOrder registry_le.
Proof.
  split.
  - intros st. by split.
  - intros s1 s2 s3 [H1 H2] [H3 H4]. split; by etrans.
Qed.

Lemma empty_registry_ok : registry_ok empty_registry.
Proof. split; simpl; intros *; by rewrite lookup_empty. Qed.

Section reconcile_facts.
Implicit Types (st : registry) (id_map : gmap Z Z) (d : data_line).

(** A line leaves the loop body with its content, under the id that the
    registry keeps for that content from then on. *)
Lemma reconcile_line_spec st id_map d st' id_map' d' :
  registry_ok st →
  reconcile_line st id_map d = (st', id_map', d') →
  registry_ok st' ∧ registry_le st st'
  ∧ content d' = content d
  ∧ extradata_to_id st' !! content d = Some (Id d')
  ∧ id_map' = <[Id d := Id d']> id_map.
Proof.
  intros Hok. unfold reconcile_line.
  destruct (extradata_to_id st !! (Key d, Value d)) as [i|] eqn:Hc.
  - intros [= <- <- <-]. simpl. by split_and!.
  - set (d1 := if decide (is_Some (id_to_extradata st !! Id d))
               then mkData (largest_id st + 1) (Key d) (Value d) else d).
    assert (content d1 = content d) as Hcont.
    { unfold d1. by case_decide. }
    assert (id_to_extradata st !! Id d1 = None) as Hfresh.
    { unfold d1. case_decide as Hin; simpl.
      - destruct (id_to_extradata st !! (largest_id st + 1)) as [d2|] eqn:H2;
          [|done].
        apply (ok_largest st Hok) in H2. lia.
      - by apply eq_None_not_Some. }
    assert ((Key d1, Value d1) = content d) as Hkv by done.
    intros [= <- <- <-]. simpl. rewrite Hkv.
    split_and!; [split; simpl | split; simpl | done | | done].
    + intros i d2. rewrite lookup_insert. case_decide as Hi.
      * intros [= <-]. split; [done|]. rewrite ?Hcont, lookup_insert_eq.
        congruence.
      * intros H2. destruct (ok_id st Hok _ _ H2) as [? H3]. split; [done|].
        rewrite lookup_insert_ne; [done|]. intros Heq.
        unfold content in *. congruence.
    + intros c i. rewrite lookup_insert. case_decide as Hi.
      * intros [= <-]. exists d1. rewrite lookup_insert_eq. split; congruence.
      * intros H2. destruct (ok_content st Hok _ _ H2) as (d2 & H3 & H4).
        exists d2. split; [|done]. rewrite lookup_insert_ne; [done|].
        intros <-. congruence.
    + intros i d2. rewrite lookup_insert. case_decide as Hi.
      * intros _. lia.
      * intros H2. apply (ok_largest st Hok) in H2. lia.
    + by apply insert_subseteq.
    + by apply insert_subseteq.
    + by rewrite lookup_insert_eq.
Qed.

(** What the loop over the lines of a file establishes: every line keeps
    its content and gets the id registered for it, and every entry of the
    [id_map] that the loop adds sends the old id of a line of the file to
    its new id. *)
Lemma reconcile_lines_spec lines : ∀ st id_map st' id_map' lines',
  registry_ok st →
  reconcile_lines st id_map lines = (st', id_map', lines') →
  registry_ok st' ∧ registry_le st st'
  ∧ Forall2 (fun d d' =>
       content d' = content d
       ∧ extradata_to_id st' !! content d = Some (Id d')) lines lines'
  ∧ (∀ old new, id_map' !! old = Some new →
       id_map !! old = Some new
       ∨ ∃ k d d', lines !! k = Some d ∧ lines' !! k = Some d'
                   ∧ Id d = old ∧ Id d' = new).
Proof.
  induction lines as [|d lines IH]; intros st id_map st' id_map' lines' Hok; simpl.
  - intros [= <- <- <-]. split_and!; [done | done | constructor | auto].
  - destruct (reconcile_line st id_map d) as [[st1 m1] d1] eqn:H1.
    destruct (reconcile_lines st1 m1 lines) as [[st2 m2] l2] eqn:H2.
    intros [= <- <- <-].
    destruct (reconcile_line_spec _ _ _ _ _ _ Hok H1)
      as (Hok1 & Hle1 & Hc1 & Hr1 & ->).
    destruct (IH _ _ _ _ _ Hok1 H2) as (Hok2 & Hle2 & Hall & Hmap).
    split_and!; [done | by etrans | |].
    + constructor; [|done]. split; [done|].
      destruct Hle2 as [Hle2 _]. by eapply lookup_weaken.
    + intros old new Hm. destruct (Hmap _ _ Hm) as [Hm1|(k & e & e' & ? & ? & ? & ?)].
      * rewrite lookup_insert in Hm1. case_decide as Hi.
        -- injection Hm1 as <-. right. exists 0%nat, d, d1. by subst.
        -- by left.
      * right. by exists (S k), e, e'.
Qed.

Lemma reconcile_line_map st id_map d st' id_map' d' :
  reconcile_line st id_map d = (st', id_map', d') →
  id_map' = <[Id d := Id d']> id_map.
Proof.
  unfold reconcile_line.
  destruct (extradata_to_id st !! (Key d, Value d)); by intros [= <- <- <-].
Qed.

(** The [id_map] after the loop: an id that no line of the file has is
    mapped as before, and the id of a line that no later line has is mapped
    to what that line ends with. *)
Lemma reconcile_lines_map lines : ∀ st id_map st' id_map' lines',
  reconcile_lines st id_map lines = (st', id_map', lines') →
  length lines' = length lines
  ∧ (∀ old, (∀ d, d ∈ lines → Id d ≠ old) → id_map' !! old = id_map !! old)
  ∧ (∀ (k : nat) d d', lines !! k = Some d → lines' !! k = Some d' →
       (∀ (k' : nat) d2, (k < k')%nat → lines !! k' = Some d2 → Id d2 ≠ Id d) →
       id_map' !! Id d = Some (Id d')).
Proof.
  induction lines as [|d lines IH]; intros st id_map st' id_map' lines'; simpl.
  - intros [= <- <- <-]. split_and!; [done | done |]. by intros k d d' ?.
  - destruct (reconcile_line st id_map d) as [[st1 m1] d1] eqn:H1.
    destruct (reconcile_lines st1 m1 lines) as [[st2 m2] l2] eqn:H2.
    intros [= <- <- <-].
    apply reconcile_line_map in H1 as ->.
    destruct (IH _ _ _ _ _ H2) as (Hlen & Hrest & Hlast).
    split_and!; [simpl; by rewrite Hlen | |].
    + intros old Hnone. rewrite Hrest.
      * rewrite lookup_insert_ne; [done|]. apply Hnone. by left.
      * intros d2 Hd2. apply Hnone. by right.
    + intros [|k] e e' He He' Hlater; simpl in He, He'.
      * injection He as <-. injection He' as <-. rewrite Hrest.
        -- by rewrite lookup_insert_eq.
        -- intros d2 [k' Hk']%list_elem_of_lookup_1.
           apply (Hlater (S k') d2); [lia | done].
      * apply (Hlast k e e' He He'). intros k' d2 Hk' Hd2.
        apply (Hlater (S k') d2); [lia | done].
Qed.

(** Among the lines that have an id, one is the last. *)
Lemma last_with_id (lines : list data_line) (old : Z) :
  (∃ d, d ∈ lines ∧ Id d = old) →
  ∃ (k : nat) d, lines !! k = Some d ∧ Id d = old
    ∧ ∀ (k' : nat) d2, (k < k')%nat → lines !! k' = Some d2 → Id d2 ≠ old.
Proof.
  induction lines as [|d0 lines IH]; intros (d & Hd & Hid).
  - by apply elem_of_nil in Hd.
  - destruct (decide (old ∈ Id <$> lines)) as [Hin | Hnot].
    + apply list_elem_of_fmap in Hin as (d1 & Hid1 & Hd1).
      destruct IH as (k & d2 & Hk & Hid2 & Hlast); [by exists d1|].
      exists (S k), d2. split_and!; [done | done|].
      intros [|k'] d3 Hlt Hd3; [lia|]. apply (Hlast k' d3); [lia | done].
    + apply elem_of_cons in Hd as [-> | Hd].
      * exists 0%nat, d0. split_and!; [done | done|].
        intros [|k'] d3 Hlt Hd3; [lia|]. simpl in Hd3.
        intros Hid3. apply Hnot. apply list_elem_of_fmap. exists d3.
        split; [done | by eapply list_elem_of_lookup_2].
      * exfalso. apply Hnot. apply list_elem_of_fmap. by exists d.
Qed.
End reconcile_facts.

Section table_facts.
Implicit Types (m : gmap Z data_line).

Lemma elem_of_sorted_table m d :
  d ∈ sorted_table m ↔ ∃ i, m !! i = Some d.
Proof.
  unfold sorted_table. rewrite list_elem_of_omap. split.
  - intros (i & _ & Hi). eauto.
  - intros (i & Hi). exists i. split; [|done].
    rewrite merge_sort_Permutation. apply list_elem_of_fmap.
    exists (i, d). split; [done|]. by apply elem_of_map_to_list.
Qed.

Lemma omap_lookup_ids m (ks : list Z) :
  (∀ i d, m !! i = Some d → Id d = i) →
  Forall (fun i => is_Some (m !! i)) ks →
  Id <$> omap (fun i => m !! i) ks = ks.
Proof.
  intros Hid. induction 1 as [|i ks [d Hd] _ IH]; [done|].
  cbn [omap list_omap]. rewrite Hd. rewrite fmap_cons.
  f_equal; [by apply Hid | apply IH].
Qed.

(** The table lists the ids of the registry, in increasing order. *)
Lemma sorted_table_ids m :
  (∀ i d, m !! i = Some d → Id d = i) →
  Id <$> sorted_table m = merge_sort Z.le (map_to_list m).*1.
Proof.
  intros Hid. apply omap_lookup_ids; [done|].
  apply Forall_forall. intros i. rewrite merge_sort_Permutation.
  intros [[j d] [-> Hin]]%list_elem_of_fmap.
  apply elem_of_map_to_list in Hin. simpl. eauto.
Qed.
End table_facts.

Section reconcile_file_facts.
(** The [id_map] of a file [f] that the reconciliation leaves as [f']: it
    sends an id to the id that the last data line of [f] with that id ends
    with, and has no entry for an id that no data line of [f] has. *)
Definition id_map_of (f : document) (id_map : gmap Z Z) (f' : document)
  : Prop :=
  ∀ old new, id_map !! old = Some new ↔
    ∃ (k : nat) d d',
      Extradata f !! k = Some d ∧ Extradata f' !! k = Some d'
      ∧ Id d = old ∧ Id d' = new
      ∧ ∀ (k' : nat) d2, (k < k')%nat → Extradata f !! k' = Some d2 →
                         Id d2 ≠ old.

(** What one turn of the loop over the files establishes, in terms of a
    registry [final] that extends the one the turn ends with. *)
Definition version_reconciled (final : registry)
    (f : document) (id_map : gmap Z Z) (f' : document) : Prop :=
  Forall2 (fun d d' =>
     content d' = content d
     ∧ extradata_to_id final !! content d = Some (Id d'))
    (Extradata f) (Extradata f')
  ∧ id_map_of f id_map f'
  ∧ Events f' = rewrite_events id_map (Events f).

(** Every id of a data line of the file has an entry in the [id_map]. *)
Lemma id_map_of_defined f id_map f' d :
  length (Extradata f') = length (Extradata f) →
  id_map_of f id_map f' → d ∈ Extradata f → is_Some (id_map !! Id d).
Proof.
  intros Hlen Hmap Hd.
  destruct (last_with_id (Extradata f) (Id d)) as (k & d1 & Hk & Hid & Hlast);
    [by exists d|].
  destruct (lookup_lt_is_Some_2 (Extradata f') k) as [d' Hd'].
  { rewrite Hlen. by eapply lookup_lt_Some. }
  exists (Id d'). apply Hmap. by exists k, d1, d'.
Qed.

Lemma version_reconciled_le st st' f id_map f' :
  registry_le st st' →
  version_reconciled st f id_map f' → version_reconciled st' f id_map f'.
Proof.
  intros [Hle _] (H1 & H2 & H3). split_and!; [|done..].
  eapply Forall2_impl; [exact H1|]. intros d d' [? ?]. split; [done|].
  by eapply lookup_weaken.
Qed.

Lemma reconcile_file_spec st f st' id_map f' :
  registry_ok st →
  reconcile_file st f = (st', id_map, f') →
  registry_ok st' ∧ registry_le st st' ∧ version_reconciled st' f id_map f'.
Proof.
  intros Hok. unfold reconcile_file.
  destruct (reconcile_lines st ∅ (Extradata f)) as [[st1 m1] l1] eqn:H1.
  intros [= <- <- <-].
  destruct (reconcile_lines_spec _ _ _ _ _ _ Hok H1) as (Hok1 & Hle & Hall & _).
  destruct (reconcile_lines_map _ _ _ _ _ _ H1) as (Hlen & Hrest & Hlast).
  split; [done|]. split; [done|]. split; [done|]. split; [|done]. simpl.
  intros old new. split.
  - intros Hm.
    destruct (decide (old ∈ Id <$> Extradata f)) as [Hin | Hnot].
    + apply list_elem_of_fmap in Hin as (d0 & Hid0 & Hd0).
      destruct (last_with_id (Extradata f) old) as (k & d & Hk & Hid & Hlater);
        [by exists d0|].
      destruct (lookup_lt_is_Some_2 l1 k) as [d' Hd'].
      { rewrite Hlen. by eapply lookup_lt_Some. }
      exists k, d, d'. split_and!; [done | done | done | | done].
      assert (m1 !! Id d = Some (Id d')) as Hnew.
      { apply (Hlast k d d' Hk Hd'). by rewrite Hid. }
      rewrite Hid, Hm in Hnew. congruence.
    + rewrite Hrest, lookup_empty in Hm; [done|].
      intros d Hd Hid. apply Hnot. apply list_elem_of_fmap. by exists d.
  - intros (k & d & d' & Hk & Hk' & <- & <- & Hlater). by apply (Hlast k).
Qed.

(** A reference that survives the rewriting of a reconciled file is the id
    of a line that the registry holds. *)
Lemma rewritten_reference_registered final f id_map f' e i :
  registry_ok final →
  version_reconciled final f id_map f' →
  e ∈ Events f' → i ∈ extra_indices e →
  ∃ t, id_to_extradata final !! i = Some t ∧ Id t = i.
Proof.
  intros Hok (Hall & Hmap & ->) He Hi.
  apply list_elem_of_fmap in He as (e0 & -> & _). simpl in Hi.
  apply list_elem_of_omap in Hi as (old & _ & Hold).
  apply Hmap in Hold as (k & d & d' & Hd & Hd' & _ & <- & _).
  destruct (Forall2_lookup_lr _ _ _ _ _ _ Hall Hd Hd') as [_ Hreg].
  destruct (ok_content final Hok _ _ Hreg) as (t & Ht & _).
  exists t. split; [done|]. by apply (ok_id final Hok).
Qed.
End reconcile_file_facts.

(** The registry that [merge_extradata] ends with, and the facts that its
    three turns establish against it. *)
Lemma merge_extradata_spec mine parent their :
  ∃ final,
    registry_ok final
    ∧ table (merge_extradata mine parent their)
      = sorted_table (id_to_extradata final)
    ∧ version_reconciled final parent
        (parent_map (merge_extradata mine parent their))
        (parent_after (merge_extradata mine parent their))
    ∧ version_reconciled final mine
        (mine_map (merge_extradata mine parent their))
        (mine_after (merge_extradata mine parent their))
    ∧ version_reconciled final their
        (their_map (merge_extradata mine parent their))
        (their_after (merge_extradata mine parent their)).
Proof.
  unfold merge_extradata.
  destruct (reconcile_file empty_registry parent) as [[st1 pm] parent'] eqn:H1.
  destruct (reconcile_file st1 mine) as [[st2 mm] mine'] eqn:H2.
  destruct (reconcile_file st2 their) as [[st3 tm] their'] eqn:H3.
  destruct (reconcile_file_spec _ _ _ _ _ empty_registry_ok H1) as (Ok1 & Le1 & V1).
  destruct (reconcile_file_spec _ _ _ _ _ Ok1 H2) as (Ok2 & Le2 & V2).
  destruct (reconcile_file_spec _ _ _ _ _ Ok2 H3) as (Ok3 & Le3 & V3).
  exists st3. simpl. split_and!; [done | done | | | done].
  - eapply version_reconciled_le; [|exact V1]. by etrans.
  - eapply version_reconciled_le; [|exact V2]. done.
Qed.

(** C10. The merged table has pairwise distinct ids and pairwise distinct
    contents. *)
Theorem merge_extradata_distinct (mine parent their : document) :
  NoDup (Id <$> table (merge_extradata mine parent their))
  ∧ NoDup (content <$> table (merge_extradata mine parent their)).
Proof.
  destruct (merge_extradata_spec mine parent their) as (final & Hok & -> & _).
  assert (NoDup (Id <$> sorted_table (id_to_extradata final))) as Hids.
  { rewrite sorted_table_ids by (intros i d H; by apply (ok_id final Hok)).
    rewrite merge_sort_Permutation. apply NoDup_fst_map_to_list. }
  split; [done|].
  apply NoDup_fmap_2_strong; [|by eapply NoDup_fmap_1].
  intros d1 d2 [i1 H1]%elem_of_sorted_table [i2 H2]%elem_of_sorted_table Hc.
  destruct (ok_id final Hok _ _ H1) as [_ R1].
  destruct (ok_id final Hok _ _ H2) as [_ R2].
  rewrite Hc in R1. assert (i1 = i2) as -> by congruence. congruence.
Qed.

(** The event [e'] is the event [e] with its references sent through the
    [id_map], in their order, the ones without an entry dropped; nothing else
    of the event changes. *)
Definition references_rewritten (id_map : gmap Z Z) (e e' : ASSLine) : Prop :=
  line_cls e' = line_cls e ∧ source_file e' = source_file e
  ∧ fields e' = fields e
  ∧ extra_indices e' = omap (fun i => id_map !! i) (extra_indices e).

(** What the reconciliation does to one file, as seen from outside: every
    data line keeps its content; the [id_map] has exactly the ids of the data
    lines of the file, each sent to the id that the last line with it ends
    with; and every event has its references rewritten through the
    [id_map]. *)
Definition version_rewritten (f : document) (id_map : gmap Z Z) (f' : document)
  : Prop :=
  Forall2 (fun d d' => content d' = content d) (Extradata f) (Extradata f')
  ∧ id_map_of f id_map f'
  ∧ Forall2 (references_rewritten id_map) (Events f) (Events f').

Lemma version_reconciled_rewritten final f id_map f' :
  version_reconciled final f id_map f' → version_rewritten f id_map f'.
Proof.
  intros (H1 & H2 & H3). split_and!; [|done|].
  - eapply Forall2_impl; [exact H1|]. by intros d d' [? _].
  - rewrite H3. unfold rewrite_events. apply Forall2_fmap_r.
    apply Forall_Forall2_diag, Forall_forall. by intros e _.
Qed.

(** A reference to an id that a data line of the file has is not dropped. *)
Lemma version_rewritten_survives f id_map f' (k : nat) e e' i d :
  version_rewritten f id_map f' →
  Events f !! k = Some e → Events f' !! k = Some e' →
  i ∈ extra_indices e → d ∈ Extradata f → Id d = i →
  ∃ j, id_map !! i = Some j ∧ j ∈ extra_indices e'.
Proof.
  intros (Hall & Hmap & Hev) He He' Hi Hd Hid.
  destruct (id_map_of_defined f id_map f' d) as [j Hj];
    [symmetry; by eapply Forall2_length | done | done|].
  rewrite Hid in Hj. exists j. split; [done|].
  destruct (Forall2_lookup_lr _ _ _ _ _ _ Hev He He') as (_ & _ & _ & ->).
  apply list_elem_of_omap. by exists i.
Qed.

Lemma reconciled_line_registered final f id_map f' d :
  registry_ok final →
  version_reconciled final f id_map f' →
  d ∈ Extradata f' →
  extradata_to_id final !! content d = Some (Id d)
  ∧ id_to_extradata final !! Id d = Some d.
Proof.
  intros Hok (Hall & _ & _) [k Hk]%list_elem_of_lookup.
  destruct (Forall2_lookup_r _ _ _ _ _ Hall Hk) as (d0 & _ & Hc & Hreg).
  rewrite <- Hc in Hreg. split; [done|].
  destruct (ok_content final Hok _ _ Hreg) as (t & Ht & Hct).
  destruct (ok_id final Hok _ _ Ht) as [Hid _].
  rewrite Ht. f_equal. destruct t, d. unfold content in *. simpl in *. congruence.
Qed.

(** C6. The reconciliation merges by content.  Every data line of the three
    files keeps its content; two lines with the same key and value, in one
    file or in two, end with the same id; every line ends as an entry of the
    merged table.  The map from old to new ids of a file has an entry for
    exactly the ids of the data lines of the file, and sends each to the id
    that the last line with it ends with.  Every event of the three files
    keeps its class and its fields, and its references are those it had, sent
    through the map of its file, in their order, the ones without an entry
    dropped: so a reference to an id that a data line of the file has is
    kept, under its new id, and every reference that remains is the id of an
    entry of the merged table. *)
Theorem merge_extradata_dedup (mine parent their : document) :
  let r := merge_extradata mine parent their in
  let lines := Extradata (parent_after r) ++ Extradata (mine_after r)
               ++ Extradata (their_after r) in
  let events := Events (parent_after r) ++ Events (mine_after r)
                ++ Events (their_after r) in
  let versions := [(parent, parent_map r, parent_after r);
                   (mine, mine_map r, mine_after r);
                   (their, their_map r, their_after r)] in
  version_rewritten parent (parent_map r) (parent_after r)
  ∧ version_rewritten mine (mine_map r) (mine_after r)
  ∧ version_rewritten their (their_map r) (their_after r)
  ∧ (∀ d1 d2, d1 ∈ lines → d2 ∈ lines →
       content d1 = content d2 → Id d1 = Id d2)
  ∧ (∀ d, d ∈ lines → d ∈ table r)
  ∧ (∀ f id_map f' (k : nat) e e' i d,
       (f, id_map, f') ∈ versions →
       Events f !! k = Some e → Events f' !! k = Some e' →
       i ∈ extra_indices e → d ∈ Extradata f → Id d = i →
       ∃ j, id_map !! i = Some j ∧ j ∈ extra_indices e')
  ∧ (∀ e i, e ∈ events → i ∈ extra_indices e →
       ∃ t, t ∈ table r ∧ Id t = i).
Proof.
  intros r lines events versions. subst r lines events versions.
  destruct (merge_extradata_spec mine parent their)
    as (final & Hok & -> & Vp & Vm & Vt).
  assert (∀ d,
    d ∈ Extradata (parent_after (merge_extradata mine parent their))
        ++ Extradata (mine_after (merge_extradata mine parent their))
        ++ Extradata (their_after (merge_extradata mine parent their)) →
    extradata_to_id final !! content d = Some (Id d)
    ∧ id_to_extradata final !! Id d = Some d) as Hreg.
  { intros d [H|[H|H]%elem_of_app]%elem_of_app;
      [apply (reconciled_line_registered _ _ _ _ _ Hok Vp H)
      |apply (reconciled_line_registered _ _ _ _ _ Hok Vm H)
      |apply (reconciled_line_registered _ _ _ _ _ Hok Vt H)]. }
  split_and!; try by eapply version_reconciled_rewritten.
  - intros d1 d2 [R1 _]%Hreg [R2 _]%Hreg Hc. rewrite Hc in R1. congruence.
  - intros d [_ R]%Hreg. apply elem_of_sorted_table. eauto.
  - intros f id_map f' k e e' i d Hv.
    apply (version_rewritten_survives f id_map f' k e e' i d).
    repeat (apply elem_of_cons in Hv as [[= -> -> ->] | Hv];
            [by eapply version_reconciled_rewritten|]).
    by apply elem_of_nil in Hv.
  - intros e i [H|[H|H]%elem_of_app]%elem_of_app Hi;
      [destruct (rewritten_reference_registered _ _ _ _ _ _ Hok Vp H Hi) as (t & Ht & Hid)
      |destruct (rewritten_reference_registered _ _ _ _ _ _ Hok Vm H Hi) as (t & Ht & Hid)
      |destruct (rewritten_reference_registered _ _ _ _ _ _ Hok Vt H Hi) as (t & Ht & Hid)];
      exists t; (split; [apply elem_of_sorted_table; eauto | done]).
Qed.

(** * [LineMatcher]: the sequence matcher *)

(** [l[i]]: a negative index counts from the end, and an index out of range
    raises an [IndexError]. *)
Definition py_index {A} (l : list A) (i : Z) : option A :=
  if decide (0 ≤ i) then l !! Z.to_nat i
  else if decide (0 ≤ Z.of_nat (length l) + i)
       then l !! Z.to_nat (Z.of_nat (length l) + i)
       else None.

(** [range(lo, hi)] *)
Definition py_range (lo hi : Z) : list Z := seqZ lo (hi - lo).

(** [len(l)] *)
Definition py_len {A} (l : list A) : Z := Z.of_nat (length l).

(** A window [(ai, aj, bi, bj)] of the queue, and a match
    [(start_a, start_b, match_length)]. *)
Definition window : Type := Z * Z * Z * Z.
Definition run : Type := Z * Z * Z.

(** The order of Python on tuples of three ints, which [matches.sort()]
    sorts by. *)
Definition run_le (x y : run) : Prop :=
  let '(xa, xb, xl) := x in
  let '(ya, yb, yl) := y in
  xa < ya ∨ (xa = ya ∧ (xb < yb ∨ (xb = yb ∧ xl ≤ yl))).

#[global] Instance run_le_dec : RelDecision run_le.
Proof. intros [[xa xb] xl] [[ya yb] yl]. unfold run_le. apply _. Defined.

Section LineMatcher.
Context {R K : Type} `{Countable K}.

(** The object: the two sequences, the memoizers, and one index map per
    memoizer, from a key to the positions of [b] that have it. *)
Record LineMatcher := mkLineMatcher {
  lm_a : list R;
  lm_b : list R;
  lm_memoizers : list (R → K);
  lm_index_maps : list (gmap K (list Z))
}.

(** [imap.setdefault(memoizer(line), []).append(i)] *)
Definition add_posting (i : Z) (line : R)
    (imap : gmap K (list Z)) (memoizer : R → K) : gmap K (list Z) :=
  <[memoizer line := default [] (imap !! memoizer line) ++ [i]]> imap.

(** The body of the loop of [__init__] over the lines of [b]. *)
Definition index_line (memoizers : list (R → K))
    (imaps : list (gmap K (list Z))) (i : Z) (line : R)
  : list (gmap K (list Z)) :=
  zip_with (add_posting i line) imaps memoizers.

(** [enumerate(b)], from position [i] on. *)
Fixpoint index_lines (memoizers : list (R → K))
    (imaps : list (gmap K (list Z))) (i : Z) (b : list R)
  : list (gmap K (list Z)) :=
  match b with
  | [] => imaps
  | line :: b' => index_lines memoizers (index_line memoizers imaps i line) (i + 1) b'
  end.

(** [LineMatcher.__init__] *)
Definition LineMatcher_init (a b : list R) (memoizers : list (R → K))
  : LineMatcher :=
  mkLineMatcher a b memoizers
    (index_lines memoizers ((fun _ => ∅) <$> memoizers) 0 b).

(** [heapq.merge] of the posting lists, each of which is sorted. *)
Definition heapq_merge (lists : list (list Z)) : list Z :=
  foldr (list_merge Z.le) [] lists.

(** The positions of [b] that [line_a] may match: the posting lists of its
    keys, one per memoizer, merged. *)
Definition b_matches (self : LineMatcher) (line_a : R) : list Z :=
  heapq_merge
    (zip_with (fun imap memoizer => default [] (imap !! memoizer line_a))
       (lm_index_maps self) (lm_memoizers self)).

(** The loop over [b_matches] for the line at [i]: it skips the positions
    before [bi] and stops at the first one from [bj] on. *)
Fixpoint scan_row (i bi bj : Z) (match_lengths : gmap Z Z) (js : list Z)
    (updated_match_lengths : gmap Z Z) (best : run) : gmap Z Z * run :=
  match js with
  | [] => (updated_match_lengths, best)
  | j :: js' =>
      if decide (j < bi) then
        scan_row i bi bj match_lengths js' updated_match_lengths best
      else if decide (bj ≤ j) then (updated_match_lengths, best)
      else
        let match_length := default 0 (match_lengths !! (j - 1)) + 1 in
        let updated_match_lengths := <[j := match_length]> updated_match_lengths in
        let best :=
          if decide (best.2 < match_length)
          then (i - match_length + 1, j - match_length + 1, match_length)
          else best in
        scan_row i bi bj match_lengths js' updated_match_lengths best
  end.

(** The loop of [_lcs] over the positions of [a]. *)
Fixpoint lcs_rows (self : LineMatcher) (bi bj : Z) (rows : list Z)
    (match_lengths : gmap Z Z) (best : run) : option run :=
  match rows with
  | [] => Some best
  | i :: rows' =>
      line_a ← py_index (lm_a self) i;
      let '(match_lengths, best) :=
        scan_row i bi bj match_lengths (b_matches self line_a) ∅ best in
      lcs_rows self bi bj rows' match_lengths best
  end.

(** [_lcs]: the longest run of matching lines within the window, as
    [(start_a, start_b, longest_match)]. *)
Definition _lcs (self : LineMatcher) (ai aj bi bj : Z) : option run :=
  lcs_rows self bi bj (py_range ai aj) ∅ (ai, bi, 0).

(** One turn of the loop of [find_matches]: [None] when the queue is empty
    and the loop ends, the queue and the matches after the turn otherwise
    (there, [None] is an exception of [_lcs]). *)
Definition find_matches_step (self : LineMatcher)
    (queue : list window) (matches : list run)
  : option (option (list window * list run)) :=
  match queue with
  | [] => None
  | (ai, aj, bi, bj) :: queue =>
      Some (
        if decide (aj - ai ≤ 0 ∨ bj - bi ≤ 0) then Some (queue, matches)
        else
          '(start_a, start_b, match_length) ← _lcs self ai aj bi bj;
          let queue :=
            if decide (0 < match_length)
            then queue ++ [(ai, start_a, bi, start_b);
                           (start_a + match_length, aj, start_b + match_length, bj)]
            else queue in
          Some (queue, matches ++ [(start_a, start_b, match_length)]))
  end.

(** The loop, run for at most [fuel] turns: [None] when the fuel runs out
    before the queue is empty, or when a turn raises. *)
Fixpoint find_matches_loop (self : LineMatcher) (fuel : nat)
    (queue : list window) (matches : list run) : option (list run) :=
  match find_matches_step self queue matches with
  | None => Some matches
  | Some turn =>
      match fuel with
      | O => None
      | S fuel =>
          '(queue, matches) ← turn;
          find_matches_loop self fuel queue matches
      end
  end.

(** The window that [find_matches] starts with: all of [a] and all of [b]. *)
Definition first_window (self : LineMatcher) : window :=
  (0, py_len (lm_a self), 0, py_len (lm_b self)).

(** [find_matches] with a bound on the turns of its loop. *)
Definition find_matches_within (self : LineMatcher) (fuel : nat)
  : option (list run) :=
  matches ← find_matches_loop self fuel [first_window self] [];
  Some (merge_sort run_le matches).

(** The turns that the loop takes at most: each window of the queue accounts
    for one turn of its own and two for each line of [a] it covers. *)
Definition window_turns (w : window) : nat :=
  let '(ai, aj, _, _) := w in S (2 * Z.to_nat (aj - ai)).

Definition queue_turns (queue : list window) : nat :=
  sum_list_with window_turns queue.

(** [find_matches] *)
Definition find_matches (self : LineMatcher) : option (list run) :=
  find_matches_within self (queue_turns [first_window self]).

End LineMatcher.

(** ** The longest run lies within its window *)

Lemma py_index_Some {A} (l : list A) (i : Z) :
  0 ≤ i < py_len l → ∃ x, py_index l i = Some x ∧ l !! Z.to_nat i = Some x.
Proof.
  intros [Hlo Hhi]. unfold py_index, py_len in *. rewrite decide_True by done.
  destruct (lookup_lt_is_Some_2 l (Z.to_nat i)) as [x Hx]; [lia|]. eauto.
Qed.

Section lcs_facts.
Context {R K : Type} `{Countable K}.
Implicit Types (self : @LineMatcher R K _ _) (best : run) (ml : gmap Z Z).

(** The run recorded so far lies within the rows before [hi] and within the
    columns of the window. *)
Definition run_within (ai bi bj hi : Z) (best : run) : Prop :=
  let '(start_a, start_b, len) := best in
  0 ≤ len ∧ ai ≤ start_a ∧ start_a + len ≤ hi
  ∧ bi ≤ start_b ∧ start_b + len ≤ bj.

(** The lengths recorded for a row: each is that of a run that ends in the
    row at its column and begins within the window. *)
Definition lengths_within (ai bi bj i : Z) (ml : gmap Z Z) : Prop :=
  ∀ j m, ml !! j = Some m →
    1 ≤ m ∧ m ≤ i - ai + 1 ∧ m ≤ j - bi + 1 ∧ j < bj.

Lemma scan_row_within ai bi bj i ml js : ∀ upd best upd' best',
  ai ≤ i →
  lengths_within ai bi bj (i - 1) ml →
  lengths_within ai bi bj i upd →
  run_within ai bi bj (i + 1) best →
  scan_row i bi bj ml js upd best = (upd', best') →
  lengths_within ai bi bj i upd' ∧ run_within ai bi bj (i + 1) best'.
Proof.
  induction js as [|j js IH]; intros upd best upd' best' Hi Hml Hupd Hbest; simpl.
  - intros [= <- <-]. done.
  - case_decide as Hlo; [by apply IH|].
    case_decide as Hhi; [intros [= <- <-]; done|].
    apply IH; [done | done | |].
    + intros j' m. rewrite lookup_insert. case_decide as Hj; [|by apply Hupd].
      intros [= <-]. subst j'.
      destruct (ml !! (j - 1)) as [m'|] eqn:Hm'; simpl.
      * destruct (Hml _ _ Hm') as (? & ? & ? & ?). lia.
      * lia.
    + case_decide as Hgt; [|done].
      destruct (ml !! (j - 1)) as [m'|] eqn:Hm'; simpl.
      * destruct (Hml _ _ Hm') as (? & ? & ? & ?). unfold run_within. lia.
      * unfold run_within. lia.
Qed.

Lemma run_within_mono ai bi bj hi hi' best :
  hi ≤ hi' → run_within ai bi bj hi best → run_within ai bi bj hi' best.
Proof. destruct best as [[sa sb] len]. unfold run_within. lia. Qed.

Lemma lcs_rows_within self ai bi bj (n : nat) : ∀ i ml best,
  ai ≤ i → 0 ≤ i → i + Z.of_nat n ≤ py_len (lm_a self) →
  lengths_within ai bi bj (i - 1) ml →
  run_within ai bi bj i best →
  ∃ r, lcs_rows self bi bj (seqZ i (Z.of_nat n)) ml best = Some r
       ∧ run_within ai bi bj (i + Z.of_nat n) r.
Proof.
  induction n as [|n IH]; intros i ml best Hai Hi Hlen Hml Hbest.
  - simpl. exists best. split; [done|]. by rewrite Z.add_0_r.
  - rewrite seqZ_cons by lia. cbn [lcs_rows].
    destruct (py_index_Some (lm_a self) i) as (line_a & -> & _); [lia|].
    simpl.
    destruct (scan_row i bi bj ml (b_matches self line_a) ∅ best)
      as [upd best'] eqn:Hscan.
    assert (lengths_within ai bi bj i (∅ : gmap Z Z)) as Hempty.
    { intros j m. by rewrite lookup_empty. }
    assert (run_within ai bi bj (i + 1) best) as Hbest1.
    { eapply run_within_mono; [|done]. lia. }
    destruct (scan_row_within ai bi bj i ml _ _ _ _ _ Hai Hml Hempty Hbest1 Hscan)
      as [Hupd Hbest'].
    replace (Z.pred (Z.of_nat (S n))) with (Z.of_nat n) by lia.
    destruct (IH (Z.succ i) upd best') as (r & Hr & Hw); [lia.. | | |].
    + by replace (Z.succ i - 1) with i by lia.
    + by replace (Z.succ i) with (i + 1) by lia.
    + exists r. split; [done|].
      by replace (i + Z.of_nat (S n)) with (Z.succ i + Z.of_nat n) by lia.
Qed.

(** [_lcs] returns, for a window within the sequence [a], a run that lies
    within the window. *)
Lemma lcs_within self ai aj bi bj :
  0 ≤ ai → ai ≤ aj → aj ≤ py_len (lm_a self) → bi ≤ bj →
  ∃ r, _lcs self ai aj bi bj = Some r ∧ run_within ai bi bj aj r.
Proof.
  intros H0 Ha Hlen Hb. unfold _lcs, py_range.
  replace (aj - ai) with (Z.of_nat (Z.to_nat (aj - ai))) by lia.
  destruct (lcs_rows_within self ai bi bj (Z.to_nat (aj - ai)) ai ∅ (ai, bi, 0))
    as (r & Hr & Hw); [lia.. | | |].
  - intros j m. by rewrite lookup_empty.
  - unfold run_within. lia.
  - exists r. split; [done|]. by replace aj with (ai + Z.of_nat (Z.to_nat (aj - ai))) by lia.
Qed.
End lcs_facts.

(** ** The turns of [find_matches] *)

Section find_matches_facts.
Context {R K : Type} `{Countable K}.
Implicit Types (self : @LineMatcher R K _ _) (w : window) (r : run).
Implicit Types (queue : list window) (matches : list run).

(** A window within the two sequences. *)
Definition window_ok self w : Prop :=
  let '(ai, aj, bi, bj) := w in
  0 ≤ ai ∧ aj ≤ py_len (lm_a self) ∧ 0 ≤ bi ∧ bj ≤ py_len (lm_b self).

(** [w'] covers strictly fewer lines than [w], of [a] and of [b]. *)
Definition window_smaller (w' w : window) : Prop :=
  let '(ai', aj', bi', bj') := w' in
  let '(ai, aj, bi, bj) := w in
  aj' - ai' < aj - ai ∧ bj' - bi' < bj - bi.

(** A run within a window. *)
Definition run_in_window (r : run) (w : window) : Prop :=
  let '(ai, aj, bi, bj) := w in run_within ai bi bj aj r.

(** The windows before and after a run within a window. *)
Definition sub_windows (r : run) (w : window) : list window :=
  let '(start_a, start_b, match_length) := r in
  let '(ai, aj, bi, bj) := w in
  [(ai, start_a, bi, start_b);
   (start_a + match_length, aj, start_b + match_length, bj)].

(** What a turn does with the window it pops: nothing when the window is
    empty; otherwise it records a run within the window and, when the run is
    not empty, queues the windows before and after it. *)
Inductive turn_of self w queue matches : list window → list run → Prop :=
  | turn_skip :
      (let '(ai, aj, bi, bj) := w in aj - ai ≤ 0 ∨ bj - bi ≤ 0) →
      turn_of self w queue matches queue matches
  | turn_leaf r :
      run_in_window r w → r.2 = 0 →
      turn_of self w queue matches queue (matches ++ [r])
  | turn_split r :
      run_in_window r w → 0 < r.2 →
      turn_of self w queue matches (queue ++ sub_windows r w) (matches ++ [r]).

Lemma find_matches_step_cons self w queue matches :
  window_ok self w →
  ∃ queue' matches',
    find_matches_step self (w :: queue) matches = Some (Some (queue', matches'))
    ∧ turn_of self w queue matches queue' matches'.
Proof.
  destruct w as [[[ai aj] bi] bj]. intros (H0 & Hlen & Hb0 & Hblen).
  cbn [find_matches_step]. case_decide as Hempty.
  - eexists _, _. split; [done|]. by apply turn_skip.
  - destruct (lcs_within self ai aj bi bj) as ([[sa sb] len] & -> & Hw); [lia..|].
    simpl. case_decide as Hlen0.
    + eexists _, _. split; [done|].
      exact (turn_split self (ai, aj, bi, bj) queue matches (sa, sb, len) Hw Hlen0).
    + eexists _, _. split; [done|].
      apply (turn_leaf self (ai, aj, bi, bj) queue matches (sa, sb, len) Hw).
      simpl. unfold run_within in Hw. lia.
Qed.

Lemma sub_windows_ok self r w :
  window_ok self w → run_in_window r w →
  Forall (window_ok self) (sub_windows r w).
Proof.
  destruct w as [[[ai aj] bi] bj], r as [[sa sb] len].
  unfold window_ok, run_in_window, run_within, sub_windows.
  intros ? ?. repeat constructor; lia.
Qed.

Lemma sub_windows_smaller r w :
  run_in_window r w → 0 < r.2 →
  Forall (fun w' => window_smaller w' w) (sub_windows r w).
Proof.
  destruct w as [[[ai aj] bi] bj], r as [[sa sb] len].
  unfold window_smaller, run_in_window, run_within, sub_windows. simpl.
  intros ? ?. repeat constructor; lia.
Qed.

Lemma queue_turns_app queue queue' :
  queue_turns (queue ++ queue') = (queue_turns queue + queue_turns queue')%nat.
Proof. apply sum_list_with_app. Qed.

(** A turn keeps the windows within the sequences and leaves fewer turns to
    take. *)
Lemma turn_of_decreases self w queue matches queue' matches' :
  window_ok self w → Forall (window_ok self) queue →
  turn_of self w queue matches queue' matches' →
  Forall (window_ok self) queue'
  ∧ (queue_turns queue' < queue_turns (w :: queue))%nat.
Proof.
  intros Hw Hq Hturn.
  assert (queue_turns (w :: queue)
          = (window_turns w + queue_turns queue)%nat) as -> by done.
  destruct Hturn as [Hempty | r Hr Hz | r Hr Hpos].
  - split; [done|]. destruct w as [[[ai aj] bi] bj]. simpl. lia.
  - split; [done|]. destruct w as [[[ai aj] bi] bj]. simpl. lia.
  - split; [apply Forall_app; split; [done | by eapply sub_windows_ok]|].
    rewrite queue_turns_app.
    destruct w as [[[ai aj] bi] bj], r as [[sa sb] len].
    unfold run_in_window, run_within in Hr. simpl in *.
    unfold queue_turns. simpl. lia.
Qed.

(** The loop ends within the turns that its queue accounts for, and an
    invariant of the turns holds of the matches it returns. *)
Lemma find_matches_loop_ends self (Inv : list window → list run → Prop) :
  (∀ w queue matches queue' matches',
     window_ok self w → Forall (window_ok self) queue →
     Inv (w :: queue) matches →
     turn_of self w queue matches queue' matches' → Inv queue' matches') →
  ∀ fuel queue matches,
    Forall (window_ok self) queue → Inv queue matches →
    (queue_turns queue ≤ fuel)%nat →
    ∃ result, find_matches_loop self fuel queue matches = Some result
              ∧ Inv [] result.
Proof.
  intros Hstep. induction fuel as [|fuel IH]; intros queue matches Hq Hinv Hfuel.
  - destruct queue as [|w queue].
    + exists matches. done.
    + exfalso. destruct w as [[[ai aj] bi] bj].
      unfold queue_turns in Hfuel. simpl in Hfuel. lia.
  - destruct queue as [|w queue].
    + exists matches. done.
    + apply Forall_cons in Hq as [Hw Hq].
      destruct (find_matches_step_cons self w queue matches Hw)
        as (queue' & matches' & Hs & Hturn).
      cbn [find_matches_loop]. rewrite Hs. simpl.
      destruct (turn_of_decreases _ _ _ _ _ _ Hw Hq Hturn) as [Hq' Hlt].
      apply IH; [done | exact (Hstep _ _ _ _ _ Hw Hq Hinv Hturn) | lia].
Qed.

(** More fuel than the loop needs does not change what it returns. *)
Lemma find_matches_loop_more self fuel : ∀ fuel' queue matches result,
  find_matches_loop self fuel queue matches = Some result →
  (fuel ≤ fuel')%nat →
  find_matches_loop self fuel' queue matches = Some result.
Proof.
  induction fuel as [|fuel IH]; intros fuel' queue matches result Hrun Hle.
  - destruct fuel'; [done|]. simpl in *.
    destruct (find_matches_step self queue matches); [done|done].
  - destruct fuel' as [|fuel']; [lia|]. simpl in *.
    destruct (find_matches_step self queue matches) as [[[queue' matches']|]|];
      [|done|done].
    simpl in *. apply IH; [done | lia].
Qed.
End find_matches_facts.

(** ** The matches are apart from one another *)

(** The lines of [a] and of [b] that a run covers, as a window. *)
Definition run_box (r : run) : window :=
  let '(start_a, start_b, len) := r in
  (start_a, start_a + len, start_b, start_b + len).

(** [x] ends, in [a] and in [b], where [y] begins or before. *)
Definition box_before (x y : window) : Prop :=
  let '(_, xaj, _, xbj) := x in
  let '(yai, _, ybi, _) := y in
  xaj ≤ yai ∧ xbj ≤ ybi.

Definition separated (x y : window) : Prop := box_before x y ∨ box_before y x.

Definition box_inside (x w : window) : Prop :=
  let '(xai, xaj, xbi, xbj) := x in
  let '(ai, aj, bi, bj) := w in
  ai ≤ xai ∧ xaj ≤ aj ∧ bi ≤ xbi ∧ xbj ≤ bj.

(** A run ends where the next one begins or before, in [a] and in [b]. *)
Definition run_before (x y : run) : Prop := box_before (run_box x) (run_box y).

(** The pairs of positions that a run matches, as [map_indices] lists them. *)
Definition run_positions (r : run) : list (Z * Z) :=
  let '(start_a, start_b, len) := r in
  (fun i => (start_a + i, start_b + i)) <$> seqZ 0 len.

#[local] Instance separated_sym : Symmetric separated.
Proof. intros x y [?|?]; [by right | by left]. Qed.

#[global] Instance run_le_trans : Transitive run_le.
Proof. intros [[? ?] ?] [[? ?] ?] [[? ?] ?]. unfold run_le. lia. Qed.

#[global] Instance run_le_total : Total run_le.
Proof. intros [[? ?] ?] [[? ?] ?]. unfold run_le. lia. Qed.

Lemma separated_inside x w y : box_inside x w → separated w y → separated x y.
Proof.
  destruct x as [[[? ?] ?] ?], w as [[[? ?] ?] ?], y as [[[? ?] ?] ?].
  unfold box_inside, separated, box_before. lia.
Qed.

(** A relation that holds both ways holds of every pair of a list in
    whatever order the list is. *)
Lemma StronglySorted_sym_Permutation {A} (Rel : relation A) `{!Symmetric Rel}
    (l l' : list A) :
  l ≡ₚ l' → StronglySorted Rel l → StronglySorted Rel l'.
Proof.
  induction 1 as [|x l l' Hp IH|x y l|l1 l2 l3 _ IH1 _ IH2]; [done| | |auto].
  - rewrite !StronglySorted_cons. intros [Hx Hl]. split; [|auto].
    by rewrite <- Hp.
  - rewrite !StronglySorted_cons, !Forall_cons.
    intros [[Hyx Hy] [Hx Hl]]. split_and!; [by symmetry | done..].
Qed.

Lemma run_before_positions x y p q :
  run_before x y → p ∈ run_positions x → q ∈ run_positions y →
  p.1 < q.1 ∧ p.2 < q.2.
Proof.
  destruct x as [[xa xb] xl], y as [[ya yb] yl].
  unfold run_before, box_before, run_positions. simpl. intros [Ha Hb].
  intros (i & -> & Hi)%list_elem_of_fmap (j & -> & Hj)%list_elem_of_fmap.
  apply elem_of_seqZ in Hi, Hj. simpl. lia.
Qed.

(** Sorted as tuples, runs that are pairwise apart follow one another. *)
Lemma sorted_separated_before (l : list run) :
  StronglySorted run_le l →
  StronglySorted separated (run_box <$> l) →
  Forall (fun r => 0 ≤ r.2) l →
  StronglySorted run_before l.
Proof.
  induction l as [|x l IH]; [constructor|].
  rewrite fmap_cons, !StronglySorted_cons, Forall_cons, Forall_fmap.
  intros [Hle Hs] [Hsep Hs'] [Hx Hl]. split; [|by apply IH].
  rewrite Forall_forall in Hle, Hsep, Hl. apply Forall_forall. intros y Hy.
  specialize (Hle y Hy). specialize (Hsep y Hy). specialize (Hl y Hy).
  destruct x as [[xa xb] xl], y as [[ya yb] yl].
  unfold run_before, separated, box_before, run_le in *. simpl in *. lia.
Qed.

Section find_matches_apart.
Context {R K : Type} `{Countable K}.
Implicit Types (self : @LineMatcher R K _ _) (w : window) (r : run).

(** The invariant of the loop: the windows of the queue and the runs
    recorded are pairwise apart, and every run has a length of zero or more
    and lies within the sequences. *)
Definition apart self (queue : list window) (matches : list run) : Prop :=
  StronglySorted separated (queue ++ (run_box <$> matches))
  ∧ Forall (fun r => run_in_window r (first_window self)) matches.

Lemma run_in_window_inside r w : run_in_window r w → box_inside (run_box r) w.
Proof.
  destruct r as [[sa sb] len], w as [[[ai aj] bi] bj].
  unfold run_in_window, run_within, box_inside, run_box. lia.
Qed.

Lemma run_in_window_weaken self r w :
  window_ok self w → run_in_window r w →
  run_in_window r (first_window self).
Proof.
  destruct r as [[sa sb] len], w as [[[ai aj] bi] bj].
  unfold window_ok, first_window, run_in_window, run_within. lia.
Qed.

Lemma apart_turn self w queue matches queue' matches' :
  window_ok self w → Forall (window_ok self) queue →
  apart self (w :: queue) matches →
  turn_of self w queue matches queue' matches' →
  apart self queue' matches'.
Proof.
  intros Hw _ [Hsep Hin] Hturn. cbn [app] in Hsep.
  apply StronglySorted_cons in Hsep as [Hw_rest Hrest].
  destruct Hturn as [_ | r Hr Hz | r Hr Hpos].
  - done.
  - split; [|apply Forall_app; split; [done|]; repeat constructor;
             by eapply run_in_window_weaken].
    apply (StronglySorted_sym_Permutation _
             (run_box r :: (queue ++ (run_box <$> matches)))).
    { rewrite fmap_app. simpl. solve_Permutation. }
    apply StronglySorted_cons. split; [|done].
    eapply Forall_impl; [exact Hw_rest|]. intros y Hy. simpl in Hy.
    eapply separated_inside; [by apply run_in_window_inside | done].
  - split; [|apply Forall_app; split; [done|]; repeat constructor;
             by eapply run_in_window_weaken].
    pose proof (run_in_window_inside r w Hr) as Hinside.
    destruct w as [[[ai aj] bi] bj], r as [[sa sb] len].
    unfold run_in_window, run_within in Hr. simpl in Hpos.
    cbn [sub_windows].
    apply (StronglySorted_sym_Permutation _
             ((ai, sa, bi, sb) :: run_box (sa, sb, len)
              :: (sa + len, aj, sb + len, bj)
              :: (queue ++ (run_box <$> matches)))).
    { rewrite fmap_app. simpl. solve_Permutation. }
    assert (∀ x, box_inside x (ai, aj, bi, bj) →
                 Forall (separated x) (queue ++ (run_box <$> matches))) as Hall.
    { intros x Hx. eapply Forall_impl; [exact Hw_rest|]. intros y Hy.
      simpl in Hy. by eapply separated_inside. }
    rewrite !StronglySorted_cons, !Forall_cons.
    split_and!; try done.
    + left. simpl. lia.
    + left. simpl. lia.
    + apply Hall. simpl. lia.
    + left. simpl. lia.
    + apply Hall. simpl. lia.
    + apply Hall. simpl. lia.
Qed.

(** What [find_matches] returns: the matches found, sorted as tuples,
    pairwise following one another, each within the two sequences.  The fuel
    suffices from [queue_turns] of the first window on. *)
Lemma find_matches_spec self fuel :
  (queue_turns [first_window self] ≤ fuel)%nat →
  ∃ matches,
    find_matches_within self fuel = Some matches
    ∧ StronglySorted run_le matches
    ∧ StronglySorted run_before matches
    ∧ Forall (fun r => run_in_window r (first_window self)) matches.
Proof.
  intros Hfuel.
  destruct (find_matches_loop_ends self (apart self) (apart_turn self) fuel
              [first_window self] [])
    as (found & Hrun & Hsep & Hin); [| |done|].
  { repeat constructor; unfold py_len; lia. }
  { split; [|constructor]. simpl. repeat constructor. }
  unfold find_matches_within. rewrite Hrun. simpl.
  eexists. split; [done|].
  assert (StronglySorted run_le (merge_sort run_le found)) as Hsorted.
  { apply StronglySorted_merge_sort; apply _. }
  assert (Forall (fun r => run_in_window r (first_window self))
            (merge_sort run_le found)) as Hin'.
  { by rewrite merge_sort_Permutation. }
  split_and!; [done | | done].
  apply sorted_separated_before; [done | |].
  - apply (StronglySorted_sym_Permutation _ (run_box <$> found)); [|exact Hsep].
    by rewrite merge_sort_Permutation.
  - eapply Forall_impl; [exact Hin'|]. intros [[sa sb] len]. simpl.
    unfold run_within. lia.
Qed.
End find_matches_apart.

Lemma StronglySorted_weaken {A} (Rel Rel' : relation A) (l : list A) :
  (∀ x y, Rel x y → Rel' x y) → StronglySorted Rel l → StronglySorted Rel' l.
Proof.
  intros Himpl. induction l as [|x l IH]; [constructor|].
  rewrite !StronglySorted_cons. intros [Hx Hl]. split; [|auto].
  eapply Forall_impl; [exact Hx | auto].
Qed.

(** C7. The matches that the matcher returns for two sequences, under any
    memoizers, are sorted by their start in the first sequence (as tuples),
    and each run ends, in both sequences, before the runs after it begin:
    every position of a run is strictly smaller, in both coordinates, than
    every position of a later run.  All runs lie within the sequences. *)
Theorem find_matches_monotonic {R K : Type} `{Countable K}
    (a b : list R) (memoizers : list (R → K)) :
  ∃ matches,
    find_matches (LineMatcher_init a b memoizers) = Some matches
    ∧ StronglySorted run_le matches
    ∧ StronglySorted run_before matches
    ∧ StronglySorted (fun x y => ∀ p q,
          p ∈ run_positions x → q ∈ run_positions y → p.1 < q.1 ∧ p.2 < q.2)
        matches
    ∧ Forall (fun r => run_in_window r (0, py_len a, 0, py_len b)) matches.
Proof.
  destruct (find_matches_spec (LineMatcher_init a b memoizers)
              (queue_turns [first_window (LineMatcher_init a b memoizers)]))
    as (matches & Hrun & Hsorted & Hbefore & Hin); [done|].
  exists matches. split_and!; [done | done | done | | done].
  eapply StronglySorted_weaken; [|exact Hbefore].
  intros x y Hxy p q. by apply run_before_positions.
Qed.

(** C9. The loop of [find_matches] ends, for any two sequences: within the
    turns that the first window accounts for it returns its matches, and
    more fuel changes nothing.  Every turn pops a window and queues either no
    window or two windows that are each strictly smaller than the popped
    one, so that the turns left to take decrease. *)
Theorem find_matches_terminates {R K : Type} `{Countable K}
    (a b : list R) (memoizers : list (R → K)) :
  let self := LineMatcher_init a b memoizers in
  (∃ matches,
     find_matches self = Some matches
     ∧ ∀ fuel, (queue_turns [first_window self] ≤ fuel)%nat →
         find_matches_within self fuel = Some matches)
  ∧ (∀ w queue matches, window_ok self w →
       ∃ subs matches',
         find_matches_step self (w :: queue) matches
         = Some (Some (queue ++ subs, matches'))
         ∧ Forall (window_ok self) subs
         ∧ (subs = [] ∨ ∃ w1 w2, subs = [w1; w2]
                         ∧ window_smaller w1 w ∧ window_smaller w2 w)
         ∧ (queue_turns (queue ++ subs) < queue_turns (w :: queue))%nat).
Proof.
  intros self. split.
  - destruct (find_matches_spec self (queue_turns [first_window self]))
      as (matches & Hrun & _); [done|].
    exists matches. split; [done|]. intros fuel Hfuel.
    unfold find_matches_within in *.
    destruct (find_matches_loop self (queue_turns [first_window self])
                [first_window self] []) as [found|] eqn:Hloop; [|done].
    by rewrite (find_matches_loop_more self _ fuel _ _ _ Hloop Hfuel).
  - intros w queue matches Hw.
    destruct (find_matches_step_cons self w queue matches Hw)
      as (queue' & matches' & Hs & Hturn).
    assert (Forall (window_ok self) ([] : list window)) as Hnil by constructor.
    destruct Hturn as [Hempty | r Hr Hz | r Hr Hpos].
    + exists [], matches. rewrite app_nil_r. split_and!; [done | done | by left |].
      destruct w as [[[ai aj] bi] bj]. unfold queue_turns. simpl. lia.
    + exists [], (matches ++ [r]). rewrite app_nil_r.
      split_and!; [done | done | by left |].
      destruct w as [[[ai aj] bi] bj]. unfold queue_turns. simpl. lia.
    + exists (sub_windows r w), (matches ++ [r]).
      split_and!; [done | by apply sub_windows_ok | |].
      * right. pose proof (sub_windows_smaller r w Hr Hpos) as Hsm.
        destruct r as [[sa sb] len], w as [[[ai aj] bi] bj].
        cbn [sub_windows] in *.
        apply Forall_cons in Hsm as [H1 [H2 _]%Forall_cons].
        eexists _, _. done.
      * rewrite queue_turns_app.
        destruct w as [[[ai aj] bi] bj], r as [[sa sb] len].
        unfold run_in_window, run_within in Hr. simpl in *.
        unfold queue_turns. simpl. lia.
Qed.

(** * [diff3]: the three-way walk *)

#[global] Instance value_countable : Countable value.
Proof.
  refine (inj_countable'
            (fun v => match v with VStr s => inl s | VInt n => inr n end)
            (fun x => match x with inl s => VStr s | inr n => VInt n end) _).
  by intros [].
Defined.

Section diff3.
Context {K : Type} `{Countable K}.
(** The state that a conflict handler writes (the conflict flags of the
    program), and the handler: from the three hunks and the state to the
    lines it yields and the state it leaves, or [None] when it raises.  The
    hunks, generators in the source, are handed over as the lists they
    yield. *)
Context {St : Type}.
Context (conflict_handler :
  list ASSLine → list ASSLine → list ASSLine → St → option (list ASSLine * St)).
Context (memoizers : list (ASSLine → K)).

(** [map_indices]: the ordered dictionary from the positions of [O] that the
    matches cover to the positions they are matched with. *)
Definition map_indices (matches : list run) : list (Z * Z) :=
  fold_left (fun (ind_map : list (Z * Z)) (m : run) =>
               let '(o_start, t_start, match_length) := m in
               fold_left (fun ind_map i =>
                            od_set (o_start + i) (t_start + i) ind_map)
                 (py_range 0 match_length) ind_map)
    matches ([] : list (Z * Z)).

(** [all(list1[i] == list2[j] for i, j in pairs)], which stops at the first
    pair of lines that differ. *)
Fixpoint all_lines_equal (list1 list2 : list ASSLine) (pairs : list (Z * Z))
  : option bool :=
  match pairs with
  | [] => Some true
  | (i, j) :: pairs' =>
      x ← py_index list1 i;
      y ← py_index list2 j;
      same ← line_eq x y;
      if same : bool then all_lines_equal list1 list2 pairs' else Some false
  end.

Definition hunks_equal (list1 : list ASSLine) (hunk1 : list Z)
    (list2 : list ASSLine) (hunk2 : list Z) : option bool :=
  if decide (length hunk1 = length hunk2)
  then all_lines_equal list1 list2 (zip hunk1 hunk2)
  else Some false.

(** [(l[i] for i in hunk)], as a list. *)
Definition hunk_lines (l : list ASSLine) (hunk : list Z) : option (list ASSLine) :=
  mapM (py_index l) hunk.

Definition process_hunks (A O B : list ASSLine) (a_hunk b_hunk o_hunk : list Z)
    (st : St) : option (list ASSLine * St) :=
  a_equal ← hunks_equal A a_hunk O o_hunk;
  let a_changed := negb a_equal in
  b_equal ← hunks_equal B b_hunk O o_hunk;
  let b_changed := negb b_equal in
  ab_equal ← hunks_equal A a_hunk B b_hunk;
  if (ab_equal || (a_changed && negb b_changed))%bool then
    lines ← hunk_lines A a_hunk; Some (lines, st)
  else if (b_changed && negb a_changed)%bool then
    lines ← hunk_lines B b_hunk; Some (lines, st)
  else
    a_lines ← hunk_lines A a_hunk;
    b_lines ← hunk_lines B b_hunk;
    o_lines ← hunk_lines O o_hunk;
    conflict_handler a_lines b_lines o_lines st.

(** The variables of the walk: the last confirmed positions, the lines
    yielded so far, and the state of the conflict handler. *)
Record walk_state := mkWalk {
  prev_a : Z;
  prev_b : Z;
  prev_o : Z;
  yielded : list ASSLine;
  handler_state : St
}.

(** The body of the loop over [o_to_a], for the entry that maps [o] to [a].
    [gap] tells, from the cursors and the three positions, whether the hunk
    before the merged line is to be flushed. *)
Definition walk_step (gap : walk_state → Z → Z → Z → bool)
    (A O B : list ASSLine) (o_to_b : list (Z * Z))
    (w : walk_state) (entry : Z * Z) : option walk_state :=
  let '(o, a) := entry in
  match od_get o o_to_b with
  | None => Some w
  | Some b =>
      parent ← py_index O o;
      mine ← py_index A a;
      their ← py_index B b;
      line ← merge (line_cls parent) mine parent their;
      match line with
      | None => Some w
      | Some line =>
          '(hunk, st) ←
            (if gap w a b o
             then process_hunks A O B
                    (py_range (prev_a w + 1) a) (py_range (prev_b w + 1) b)
                    (py_range (prev_o w + 1) o) (handler_state w)
             else Some ([], handler_state w));
          Some (mkWalk a b o (yielded w ++ hunk ++ [line]) st)
      end
  end.

Fixpoint walk (gap : walk_state → Z → Z → Z → bool)
    (A O B : list ASSLine) (o_to_b : list (Z * Z))
    (w : walk_state) (entries : list (Z * Z)) : option walk_state :=
  match entries with
  | [] => Some w
  | entry :: entries' =>
      w ← walk_step gap A O B o_to_b w entry;
      walk gap A O B o_to_b w entries'
  end.

(** The walk and the last hunk, for a given test of the gap. *)
Definition diff3_with (gap : walk_state → Z → Z → Z → bool)
    (A O B : list ASSLine) (st : St) : option (list ASSLine * St) :=
  matches_OA ← find_matches (LineMatcher_init O A memoizers);
  matches_OB ← find_matches (LineMatcher_init O B memoizers);
  let o_to_a := map_indices matches_OA in
  let o_to_b := map_indices matches_OB in
  w ← walk gap A O B o_to_b (mkWalk (-1) (-1) (-1) [] st) o_to_a;
  '(hunk, st) ← process_hunks A O B
                  (py_range (prev_a w + 1) (py_len A))
                  (py_range (prev_b w + 1) (py_len B))
                  (py_range (prev_o w + 1) (py_len O)) (handler_state w);
  Some (yielded w ++ hunk, st).

(** The test of the source: [a > prev_a + 1 or b > prev_b + 1]. *)
Definition gap_local_or_remote (w : walk_state) (a b o : Z) : bool :=
  bool_decide (prev_a w + 1 < a ∨ prev_b w + 1 < b).

(** [diff3]: the lines it yields and the state the conflict handler leaves. *)
Definition diff3 (A O B : list ASSLine) (st : St) : option (list ASSLine * St) :=
  diff3_with gap_local_or_remote A O B st.

(** The test as the specification words it: a gap since the last confirmed
    position in any of the three sequences. *)
Definition gap_anywhere (w : walk_state) (a b o : Z) : bool :=
  bool_decide (prev_a w + 1 < a ∨ prev_b w + 1 < b ∨ prev_o w + 1 < o).

(** The walk of the specification, to compare [diff3] with. *)
Definition diff3_flushing_any_gap (A O B : list ASSLine) (st : St)
  : option (list ASSLine * St) :=
  diff3_with gap_anywhere A O B st.

End diff3.

(** ** The conflict handlers *)

(** The command line: the style and the size of the conflict markers, the
    diff3 mode, and the side that wins in the key/value sections. *)
Inductive marker_style := marker_diff3 | marker_description.

Record arguments := mkArguments {
  conflict_marker : marker_style;
  conflict_marker_size : Z;
  diff3_mode : bool;
  script_info : side
}.

Inductive marker := marker_ours | marker_ancestor | marker_theirs | marker_end.

(** [c * n] for a string [c] *)
Definition str_repeat (c : string) (n : Z) : string :=
  String.concat "" (replicate (Z.to_nat n) c).

(** [CONFLICT_MARKERS[args.conflict_marker][m]] *)
Definition CONFLICT_MARKERS (args : arguments) (m : marker) : string :=
  match conflict_marker args, m with
  | marker_diff3, marker_ours => str_repeat "<" (conflict_marker_size args)
  | marker_diff3, marker_ancestor => str_repeat "|" (conflict_marker_size args)
  | marker_diff3, marker_theirs => str_repeat "=" (conflict_marker_size args)
  | marker_diff3, marker_end => str_repeat ">" (conflict_marker_size args)
  | marker_description, marker_ours => "Start of own hunk"
  | marker_description, marker_ancestor =>
      "End of own hunk; Start of common ancestor's hunk"
  | marker_description, marker_theirs =>
      "End of " +:+ (if diff3_mode args then "common ancestor's" else "own")
      +:+ " hunk; Start of other hunk"
  | marker_description, marker_end => "End of other hunk"
  end.

(** [DialogueLine(CONFLICT_LINE.format(text))]: the comment line that holds
    [text], with the fields that the constructor splits the line into. *)
Definition conflict_line (text : string) : option ASSLine :=
  init DialogueLine
    (list_to_map
       [("Layer", VStr "0"); ("Start", VStr "0:00:00.00");
        ("End", VStr "0:00:00.00"); ("Style", VStr "Default");
        ("Name", VStr ""); ("MarginL", VStr "0"); ("MarginR", VStr "0");
        ("MarginV", VStr "0"); ("Effect", VStr "CONFLICT");
        ("Text", VStr text); ("Type", VStr "Comment")])
    None.

(** [dialogue_conflict_handler]; the state is the flag [dialogue_conflict]. *)
Definition dialogue_conflict_handler (args : arguments)
    (a_hunk b_hunk o_hunk : list ASSLine) (dialogue_conflict : bool)
  : option (list ASSLine * bool) :=
  start ← conflict_line (CONFLICT_MARKERS args marker_ours);
  ancestor ←
    (if diff3_mode args
     then line ← conflict_line (CONFLICT_MARKERS args marker_ancestor);
          Some (line :: o_hunk)
     else Some []);
  middle ← conflict_line (CONFLICT_MARKERS args marker_theirs);
  stop ← conflict_line (CONFLICT_MARKERS args marker_end);
  Some ([start] ++ a_hunk ++ ancestor ++ [middle] ++ b_hunk ++ [stop], true).

(** [line.Name = prefix + line.Name] *)
Definition prefix_Name (prefix : string) (line : ASSLine) : option ASSLine :=
  name ← getitem line "Name";
  match name with
  | VStr name =>
      Some (mkLine (line_cls line) (source_file line)
              (<["Name" := VStr (prefix +:+ name)]> (fields line))
              (extra_indices line))
  | VInt _ => None
  end.

(** [style_conflict_handler]; the state is the flag [style_conflict]. *)
Definition style_conflict_handler
    (a_hunk b_hunk o_hunk : list ASSLine) (style_conflict : bool)
  : option (list ASSLine * bool) :=
  own ← mapM (prefix_Name "Own$") a_hunk;
  other ← mapM (prefix_Name "Other$") b_hunk;
  Some (own ++ other, true).

(** The memoizers of [main]: the name for the styles; the text, and the two
    times, for the events. *)
Definition style_memoizers : list (ASSLine → list (option value)) :=
  [fun line => [getitem line "Name"]].

Definition event_memoizers : list (ASSLine → list (option value)) :=
  [fun line => [getitem line "Text"];
   fun line => [getitem line "Start"; getitem line "End"]].

(** ** How a hunk is resolved *)

(** Two lists of lines show the same entries, line for line. *)
Definition same_lines (l1 l2 : list ASSLine) : Prop := view <$> l1 = view <$> l2.

#[global] Instance same_lines_dec : RelDecision same_lines.
Proof. intros l1 l2. unfold same_lines. apply _. Defined.

Lemma line_eq_Some x y same :
  line_eq x y = Some same → same = bool_decide (view x = view y).
Proof.
  unfold line_eq, items.
  destruct (decide (is_Some (fields x !! "Type"))); [|done].
  destruct (decide (is_Some (fields y !! "Type"))); [|done].
  simpl. by intros [= <-].
Qed.

Lemma all_lines_equal_decides list1 list2 hunk1 : ∀ hunk2 l1 l2 same,
  length hunk1 = length hunk2 →
  all_lines_equal list1 list2 (zip hunk1 hunk2) = Some same →
  hunk_lines list1 hunk1 = Some l1 →
  hunk_lines list2 hunk2 = Some l2 →
  same = bool_decide (same_lines l1 l2).
Proof.
  unfold hunk_lines, same_lines.
  induction hunk1 as [|i hunk1 IH]; intros [|j hunk2] l1 l2 same Hlen; try done.
  - simpl. by intros [= <-] [= <-] [= <-].
  - cbn [zip zip_with all_lines_equal mapM].
    destruct (py_index list1 i) as [x|]; [|done].
    destruct (py_index list2 j) as [y|]; [|done]. simpl.
    destruct (line_eq x y) as [e|] eqn:He; [|done]. simpl.
    apply line_eq_Some in He.
    destruct (mapM (py_index list1) hunk1) as [l1'|] eqn:H1; [|done].
    destruct (mapM (py_index list2) hunk2) as [l2'|] eqn:H2; [|done].
    simpl. intros Hall [= <-] [= <-]. cbn [fmap list_fmap].
    destruct e.
    + apply (IH hunk2 l1' l2') in Hall; [|by simplify_eq/= | done..].
      subst same. symmetry in He. apply bool_decide_eq_true in He.
      apply bool_decide_ext. rewrite He.
      split; [by intros -> | by intros [= ->]].
    + injection Hall as <-. symmetry. apply bool_decide_eq_false.
      symmetry in He. apply bool_decide_eq_false in He. by intros [= ? _].
Qed.

(** [hunks_equal] tells whether the lines of the two hunks show the same
    entries. *)
Lemma hunks_equal_decides list1 hunk1 list2 hunk2 l1 l2 same :
  hunks_equal list1 hunk1 list2 hunk2 = Some same →
  hunk_lines list1 hunk1 = Some l1 →
  hunk_lines list2 hunk2 = Some l2 →
  same = bool_decide (same_lines l1 l2).
Proof.
  unfold hunks_equal. case_decide as Hlen.
  - by apply all_lines_equal_decides.
  - intros [= <-] H1 H2. symmetry. apply bool_decide_eq_false.
    unfold same_lines. intros Heq. apply Hlen.
    apply length_mapM in H1, H2.
    apply (f_equal length) in Heq. rewrite !length_fmap in Heq. congruence.
Qed.

Section process_hunks_facts.
Context {St : Type}.
Context (conflict_handler :
  list ASSLine → list ASSLine → list ASSLine → St → option (list ASSLine * St)).

Lemma same_lines_trans_l l1 l2 l3 :
  same_lines l1 l3 → same_lines l1 l2 → same_lines l2 l3.
Proof. unfold same_lines. congruence. Qed.

(** The branch that [process_hunks] takes, by what the three comparisons
    found. *)
Lemma process_hunks_branches A O B a_hunk b_hunk o_hunk st
    a_lines b_lines o_lines :
  hunk_lines A a_hunk = Some a_lines →
  hunk_lines B b_hunk = Some b_lines →
  hunk_lines O o_hunk = Some o_lines →
  is_Some (hunks_equal A a_hunk O o_hunk) →
  is_Some (hunks_equal B b_hunk O o_hunk) →
  is_Some (hunks_equal A a_hunk B b_hunk) →
  process_hunks conflict_handler A O B a_hunk b_hunk o_hunk st =
    if decide (same_lines a_lines b_lines
               ∨ (¬ same_lines a_lines o_lines ∧ same_lines b_lines o_lines))
    then Some (a_lines, st)
    else if decide (¬ same_lines b_lines o_lines ∧ same_lines a_lines o_lines)
    then Some (b_lines, st)
    else conflict_handler a_lines b_lines o_lines st.
Proof.
  intros Ha Hb Ho [ea Hea] [eb Heb] [eab Heab]. unfold process_hunks.
  rewrite Hea, Heb, Heab, Ha, Hb, Ho. simpl.
  rewrite (hunks_equal_decides _ _ _ _ _ _ _ Hea Ha Ho).
  rewrite (hunks_equal_decides _ _ _ _ _ _ _ Heb Hb Ho).
  rewrite (hunks_equal_decides _ _ _ _ _ _ _ Heab Ha Hb).
  repeat case_bool_decide; repeat case_decide; simpl; try done; naive_solver.
Qed.
End process_hunks_facts.

(** C3. How [process_hunks] resolves a hunk whose three ranges are within
    the sequences.  When the local lines differ from the ancestor's and the
    remote lines do not, it yields the local lines; when the remote lines
    differ and the local ones do not, the remote lines; when the local and
    the remote lines are the same, whatever the ancestor has, the local
    lines; in every other case what the conflict handler yields for the three
    hunks, and the state the handler leaves.  The cases do not overlap but
    where they agree: a hunk whose sides are the same is never one where a
    single side differs from the ancestor with the remote lines as result. *)
Theorem process_hunks_classification {St : Type}
    (conflict_handler :
       list ASSLine → list ASSLine → list ASSLine → St
       → option (list ASSLine * St))
    (A O B : list ASSLine) (a_hunk b_hunk o_hunk : list Z) (st : St)
    (a_lines b_lines o_lines : list ASSLine) :
  hunk_lines A a_hunk = Some a_lines →
  hunk_lines B b_hunk = Some b_lines →
  hunk_lines O o_hunk = Some o_lines →
  is_Some (hunks_equal A a_hunk O o_hunk) →
  is_Some (hunks_equal B b_hunk O o_hunk) →
  is_Some (hunks_equal A a_hunk B b_hunk) →
  let result := process_hunks conflict_handler A O B a_hunk b_hunk o_hunk st in
  (¬ same_lines a_lines o_lines → same_lines b_lines o_lines →
     result = Some (a_lines, st))
  ∧ (¬ same_lines b_lines o_lines → same_lines a_lines o_lines →
     result = Some (b_lines, st))
  ∧ (same_lines a_lines b_lines → result = Some (a_lines, st))
  ∧ (¬ same_lines a_lines b_lines →
     ¬ (¬ same_lines a_lines o_lines ∧ same_lines b_lines o_lines) →
     ¬ (¬ same_lines b_lines o_lines ∧ same_lines a_lines o_lines) →
     result = conflict_handler a_lines b_lines o_lines st).
Proof.
  intros Ha Hb Ho Eao Ebo Eab result. subst result.
  rewrite (process_hunks_branches conflict_handler A O B a_hunk b_hunk o_hunk st
             a_lines b_lines o_lines Ha Hb Ho Eao Ebo Eab).
  split_and!.
  - intros Hna Hb'. rewrite decide_True; [done | by right].
  - intros Hnb Ha'. rewrite decide_False, decide_True; [done | done |].
    intros [Hab | [Hna _]]; [|done].
    apply Hnb. by apply (same_lines_trans_l a_lines).
  - intros Hab. rewrite decide_True; [done | by left].
  - intros Hnab H1 H2. rewrite !decide_False; [done | done |].
    by intros [?|?].
Qed.

(** The ancestor has the event [E]; the local side replaces it by [L], the
    remote side by [R]: the conflict handler resolves the hunk. *)
Definition sample_args : arguments :=
  mkArguments marker_description 7 false ours.

Definition sample_E : ASSLine :=
  sample_dialogue "Dialogue" "0:00:00.00" "0:00:05.00" "E" [].
Definition sample_L : ASSLine :=
  sample_dialogue "Dialogue" "0:00:10.00" "0:00:15.00" "L" [].
Definition sample_R : ASSLine :=
  sample_dialogue "Dialogue" "0:00:20.00" "0:00:25.00" "R" [].

Lemma process_hunks_classification_witness :
  process_hunks (dialogue_conflict_handler sample_args)
    [sample_L] [sample_E] [sample_R] [0] [0] [0] false
  = dialogue_conflict_handler sample_args [sample_L] [sample_R] [sample_E] false.
Proof.
  destruct (process_hunks_classification
              (dialogue_conflict_handler sample_args)
              [sample_L] [sample_E] [sample_R] [0] [0] [0] false
              [sample_L] [sample_R] [sample_E])
    as (_ & _ & _ & Hconflict);
    [by vm_compute | by vm_compute | by vm_compute
    | eexists; by vm_compute | eexists; by vm_compute | eexists; by vm_compute |].
  apply Hconflict.
  - by vm_compute.
  - intros [_ Hsame]. by vm_compute in Hsame.
  - intros [_ Hsame]. by vm_compute in Hsame.
Defined.

(** ** The gap that starts a flush *)

Section gap_facts.
Context {K : Type} `{Countable K}.
Context {St : Type}.
Context (conflict_handler :
  list ASSLine → list ASSLine → list ASSLine → St → option (list ASSLine * St)).
Context (memoizers : list (ASSLine → K)).

Lemma py_range_empty lo hi : hi ≤ lo → py_range lo hi = [].
Proof. intros Hle. unfold py_range. apply seqZ_nil. lia. Qed.

(** A hunk without local and remote lines yields nothing and leaves the
    conflict handler alone, whatever ancestor lines it spans. *)
Lemma process_hunks_no_lines A O B o_hunk st :
  process_hunks conflict_handler A O B [] [] o_hunk st = Some ([], st).
Proof.
  unfold process_hunks, hunks_equal. simpl.
  destruct o_hunk; simpl; done.
Qed.

Lemma walk_step_any_gap A O B o_to_b w entry :
  walk_step conflict_handler gap_anywhere A O B o_to_b w entry
  = walk_step conflict_handler gap_local_or_remote A O B o_to_b w entry.
Proof.
  destruct entry as [o a]. unfold walk_step.
  destruct (od_get o o_to_b) as [b|]; [|done].
  destruct (py_index O o) as [parent|]; [|done].
  destruct (py_index A a) as [mine|]; [|done].
  destruct (py_index B b) as [their|]; [|done]. simpl.
  destruct (merge (line_cls parent) mine parent their) as [[line|]|]; [|done..].
  simpl. unfold gap_anywhere, gap_local_or_remote.
  destruct (decide (prev_a w + 1 < a ∨ prev_b w + 1 < b)) as [Hgap|Hnone].
  - rewrite !bool_decide_eq_true_2; [done | done | tauto].
  - rewrite (bool_decide_eq_false_2 _ Hnone).
    case_bool_decide; [|done].
    rewrite !py_range_empty by lia. by rewrite process_hunks_no_lines.
Qed.

Lemma walk_any_gap A O B o_to_b entries : ∀ w,
  walk conflict_handler gap_anywhere A O B o_to_b w entries
  = walk conflict_handler gap_local_or_remote A O B o_to_b w entries.
Proof.
  induction entries as [|entry entries IH]; intros w; simpl; [done|].
  rewrite walk_step_any_gap.
  destruct (walk_step conflict_handler gap_local_or_remote A O B o_to_b w entry);
    simpl; [apply IH | done].
Qed.
End gap_facts.

(** [diff3] as a whole yields the lines, and leaves the state of the conflict
    handler, of the walk whose test looks at the ancestor cursor as well. *)
Lemma diff3_flushing_any_gap_same {K : Type} `{Countable K} {St : Type}
    (conflict_handler :
       list ASSLine → list ASSLine → list ASSLine → St
       → option (list ASSLine * St))
    (memoizers : list (ASSLine → K)) (A O B : list ASSLine) (st : St) :
  diff3 conflict_handler memoizers A O B st
  = diff3_flushing_any_gap conflict_handler memoizers A O B st.
Proof.
  unfold diff3, diff3_flushing_any_gap, diff3_with.
  destruct (find_matches (LineMatcher_init O A memoizers)); [|done].
  destruct (find_matches (LineMatcher_init O B memoizers)); [|done].
  simpl. by rewrite walk_any_gap.
Qed.



(** ** A text that is read as a reference prefix twice

    The constructor of a dialogue line takes the reference prefix off the
    text, and the [Text] property puts it back.  When [merge_extradata] drops
    every reference of an event as dangling, the text that remains is shown
    without a prefix; should it begin like a prefix itself, the constructor
    that [merge] calls on the merged fields reads it as one, and formats its
    indices anew. *)

(** The event that the parser builds for a raw text: the constructor with
    the fields that the line splits into. *)
Definition parsed_event (source : string) (start stop text : string)
  : option ASSLine :=
  init DialogueLine
    (list_to_map
       [("Layer", VStr "0"); ("Start", VStr start); ("End", VStr stop);
        ("Style", VStr "Default"); ("Name", VStr ""); ("MarginL", VStr "0");
        ("MarginR", VStr "0"); ("MarginV", VStr "0"); ("Effect", VStr "");
        ("Text", VStr text); ("Type", VStr "Dialogue")])
    (Some source).

(** A file without extradata whose one event refers to the id 1 and goes on
    with a brace, an equals sign and the digits 007. *)
Definition dangling_document (source start stop : string) : document :=
  mkDocument [] (default [] (mapM id [parsed_event source start stop "{=1}{=007}foo"])).

(** C5, at an input where the source departs from it.  The three files hold
    the same event.  After [merge_extradata], which drops the dangling
    reference, every side shows the text with the digits 007; [diff3] yields
    one line, without a conflict, that shows the digit 7 instead and refers
    to the id 7: the local and the remote side are the same, and the output
    is not their common content. *)
Lemma diff3_rereads_text :
  let r := merge_extradata
             (dangling_document "Own" "0:00:00.00" "0:00:05.00")
             (dangling_document "Parent" "0:00:00.00" "0:00:05.00")
             (dangling_document "Other" "0:00:00.00" "0:00:05.00") in
  let A := Events (mine_after r) in
  let O := Events (parent_after r) in
  let B := Events (their_after r) in
  same_lines A B
  ∧ (view <$> A) = (view <$> O)
  ∧ ((fun x => view x !! "Text") <$> A) = [Some (VStr "{=007}foo")]
  ∧ ∃ out,
      diff3 (dialogue_conflict_handler sample_args) event_memoizers A O B false
      = Some (out, false)
      ∧ ((fun x => view x !! "Text") <$> out) = [Some (VStr "{=7}foo")]
      ∧ (extra_indices <$> out) = [[7]]
      ∧ ¬ same_lines out A.
Proof.
  repeat split; [by vm_compute .. |].
  eexists. split; [by vm_compute|]. split; [by vm_compute|].
  split; [by vm_compute|]. intros Hsame. by vm_compute in Hsame.
Qed.

(** C2, at an input where the source departs from it.  The same event is the
    local side of a field merge: the local side alone changed the text, the
    remote side alone the times; the merge succeeds and the merged line
    shows the remote times, but not the local text. *)
Lemma merge_rereads_reconciled_text :
  let r := merge_extradata
             (dangling_document "Own" "0:00:00.00" "0:00:05.00")
             (mkDocument [] []) (mkDocument [] []) in
  let parent := sample_dialogue "Dialogue" "0:00:00.00" "0:00:05.00" "bar" [] in
  let b := sample_dialogue "Dialogue" "0:00:01.00" "0:00:06.00" "bar" [] in
  ∃ a, Events (mine_after r) = [a]
    ∧ is_record DialogueLine a ∧ well_typed DialogueLine a
    ∧ changed_fields a parent = {["Text"]}
    ∧ changed_fields b parent = {["Start"; "End"]}
    ∧ ∃ line, merge DialogueLine a parent b = Some (Some line)
              ∧ view a !! "Text" = Some (VStr "{=007}foo")
              ∧ view line !! "Text" = Some (VStr "{=7}foo")
              ∧ view line !! "Start" = view b !! "Start"
              ∧ view line !! "End" = view b !! "End".
Proof.
  eexists. split; [by vm_compute|].
  split; [split; by vm_compute|].
  split.
  { split_and!.
    - intros valid [= <-]. exists "Dialogue". split; [by vm_compute|].
      apply list_elem_of_here.
    - intros _. eexists. by vm_compute.
    - done. }
  split; [by vm_compute|]. split; [by vm_compute|].
  eexists. split; [by vm_compute|]. repeat split; by vm_compute.
Qed.

(** * [diff3] when both sides are the same *)

(** ** The matcher reads [b] through the keys of its lines *)

Section matcher_keys.
Context {R K : Type} `{Countable K}.
Implicit Types (memoizers : list (R → K)) (imaps : list (gmap K (list Z))).

(** Two lines that every memoizer gives the same key. *)
Definition same_keys memoizers (x y : R) : Prop :=
  Forall (fun memoizer => memoizer x = memoizer y) memoizers.

Lemma index_line_same_keys memoizers : ∀ imaps i x y,
  same_keys memoizers x y →
  index_line memoizers imaps i x = index_line memoizers imaps i y.
Proof.
  unfold index_line, same_keys.
  induction memoizers as [|m ms IH]; intros [|imap imaps] i x y Hk; try done.
  apply Forall_cons in Hk as [Hm Hk]. simpl.
  f_equal; [|by apply IH]. unfold add_posting. by rewrite Hm.
Qed.

Lemma index_lines_same_keys memoizers b b' : ∀ imaps i,
  Forall2 (same_keys memoizers) b b' →
  index_lines memoizers imaps i b = index_lines memoizers imaps i b'.
Proof.
  intros imaps i Hb. revert imaps i.
  induction Hb as [|x y b b' Hxy _ IH]; intros imaps i; simpl; [done|].
  rewrite (index_line_same_keys memoizers imaps i x y Hxy). apply IH.
Qed.

(** Of [b], the loops read the index maps and the length only. *)
Lemma lcs_rows_same_maps a b b' memoizers imaps bi bj rows : ∀ ml best,
  lcs_rows (mkLineMatcher a b memoizers imaps) bi bj rows ml best
  = lcs_rows (mkLineMatcher a b' memoizers imaps) bi bj rows ml best.
Proof.
  induction rows as [|i rows IH]; intros ml best; simpl; [done|].
  destruct (py_index a i) as [line_a|]; [|done]. simpl.
  change (b_matches (mkLineMatcher a b memoizers imaps) line_a)
    with (b_matches (mkLineMatcher a b' memoizers imaps) line_a).
  destruct (scan_row i bi bj ml
              (b_matches (mkLineMatcher a b' memoizers imaps) line_a) ∅ best).
  apply IH.
Qed.

Lemma find_matches_step_same_maps a b b' memoizers imaps queue matches :
  find_matches_step (mkLineMatcher a b memoizers imaps) queue matches
  = find_matches_step (mkLineMatcher a b' memoizers imaps) queue matches.
Proof.
  destruct queue as [|[[[ai aj] bi] bj] queue]; [done|].
  unfold find_matches_step, _lcs. by rewrite (lcs_rows_same_maps a b b').
Qed.

Lemma find_matches_loop_same_maps a b b' memoizers imaps fuel :
  ∀ queue matches,
  find_matches_loop (mkLineMatcher a b memoizers imaps) fuel queue matches
  = find_matches_loop (mkLineMatcher a b' memoizers imaps) fuel queue matches.
Proof.
  induction fuel as [|fuel IH]; intros queue matches; simpl;
    rewrite (find_matches_step_same_maps a b b'); [done|].
  destruct (find_matches_step (mkLineMatcher a b' memoizers imaps) queue matches)
    as [[[queue' matches']|]|]; simpl; [apply IH | done | done].
Qed.

(** Two sequences whose lines have the same keys are matched alike. *)
Lemma find_matches_same_keys a b b' memoizers :
  Forall2 (same_keys memoizers) b b' →
  find_matches (LineMatcher_init a b memoizers)
  = find_matches (LineMatcher_init a b' memoizers).
Proof.
  intros Hb. unfold LineMatcher_init.
  rewrite (index_lines_same_keys memoizers b b' _ _ Hb).
  unfold find_matches, find_matches_within, first_window. cbn [lm_a lm_b].
  unfold py_len. rewrite (Forall2_length _ _ _ Hb).
  by rewrite (find_matches_loop_same_maps a b b').
Qed.
End matcher_keys.

(** ** The index map of sorted matches *)

(** The positions that the matches cover, run after run. *)
Definition positions (matches : list run) : list (Z * Z) :=
  matches ≫= run_positions.

(** Both positions of [p] come before those of [q]. *)
Definition position_lt (p q : Z * Z) : Prop := p.1 < q.1 ∧ p.2 < q.2.

Section map_indices_facts.

Lemma fold_left_fmap {A B C} (f : A → B → A) (g : C → B) (l : list C) : ∀ a,
  fold_left f (g <$> l) a = fold_left (fun a x => f a (g x)) l a.
Proof. induction l as [|x l IH]; intros a; simpl; [done | apply IH]. Qed.

Lemma od_update_app {Key V} `{EqDecision Key} (d l1 l2 : list (Key * V)) :
  od_update d (l1 ++ l2) = od_update (od_update d l1) l2.
Proof. unfold od_update. apply fold_left_app. Qed.

Lemma map_indices_update (matches : list run) :
  map_indices matches = od_update [] (positions matches).
Proof.
  unfold map_indices, positions.
  generalize ([] : list (Z * Z)) as acc.
  induction matches as [|[[o t] len] matches IH]; intros acc; [done|].
  rewrite bind_cons, od_update_app. cbn [fold_left]. rewrite IH. f_equal.
  unfold od_update, run_positions, py_range.
  by rewrite fold_left_fmap, Z.sub_0_r.
Qed.

Lemma seqZ_sorted m n : StronglySorted Z.lt (seqZ m n).
Proof.
  revert m. induction n as [|n ? IH|] using (Z.succ_pred_induction 0); intros m.
  - rewrite seqZ_nil by lia. constructor.
  - rewrite seqZ_cons by lia. rewrite Z.pred_succ.
    apply StronglySorted_cons. split; [|apply IH].
    apply Forall_seqZ. lia.
  - rewrite seqZ_nil by lia. constructor.
Qed.

Lemma run_positions_sorted r : StronglySorted position_lt (run_positions r).
Proof.
  destruct r as [[o t] len]. unfold run_positions.
  eapply StronglySorted_fmap; [|apply seqZ_sorted].
  intros x y Hxy. unfold position_lt. simpl. lia.
Qed.

Lemma positions_sorted matches :
  StronglySorted run_before matches → StronglySorted position_lt (positions matches).
Proof.
  unfold positions. induction matches as [|r matches IH]; [constructor|].
  rewrite StronglySorted_cons, bind_cons. intros [Hr Hs].
  apply StronglySorted_app. split_and!; [|apply run_positions_sorted | auto].
  intros p q Hp (r' & Hq & Hr')%list_elem_of_bind.
  rewrite Forall_forall in Hr.
  by apply (run_before_positions r r' p q (Hr r' Hr')).
Qed.

Lemma positions_within matches la lb :
  Forall (fun r => run_in_window r (0, la, 0, lb)) matches →
  Forall (fun p => 0 ≤ p.1 < la ∧ 0 ≤ p.2 < lb) (positions matches).
Proof.
  intros Hin. apply Forall_forall.
  intros p (r & Hp & Hr)%list_elem_of_bind.
  rewrite Forall_forall in Hin. specialize (Hin r Hr).
  destruct r as [[o t] len]. unfold run_in_window, run_within in Hin.
  apply list_elem_of_fmap in Hp as (i & -> & Hi). apply elem_of_seqZ in Hi.
  simpl. lia.
Qed.

Lemma position_lt_NoDup (l : list (Z * Z)) :
  StronglySorted position_lt l → NoDup l.*1.
Proof.
  induction l as [|p l IH]; [constructor|].
  rewrite StronglySorted_cons, fmap_cons, NoDup_cons. intros [Hp Hl].
  split; [|auto]. intros (q & Heq & Hq)%list_elem_of_fmap.
  rewrite Forall_forall in Hp. destruct (Hp q Hq) as [Hlt _]. lia.
Qed.

(** The index map of matches that follow one another lists their positions,
    in order. *)
Lemma map_indices_sorted matches :
  StronglySorted run_before matches → map_indices matches = positions matches.
Proof.
  intros Hs. rewrite map_indices_update.
  apply (od_update_fresh []). simpl.
  by apply position_lt_NoDup, positions_sorted.
Qed.
End map_indices_facts.

(** ** Hunks that are ranges *)

(** [l[lo:hi]] *)
Definition slice {A} (l : list A) (lo hi : Z) : list A :=
  take (Z.to_nat (hi - lo)) (drop (Z.to_nat lo) l).

Lemma py_index_nonneg {A} (l : list A) (i : Z) :
  0 ≤ i → py_index l i = l !! Z.to_nat i.
Proof. intros Hi. unfold py_index. by rewrite decide_True. Qed.

Lemma py_index_elem {A} (l : list A) (i : Z) (x : A) :
  py_index l i = Some x → x ∈ l.
Proof.
  unfold py_index. repeat case_decide; [| |done];
    intros Hx; by eapply list_elem_of_lookup_2.
Qed.

Lemma hunk_lines_seqZ (l : list ASSLine) (n : nat) : ∀ lo,
  0 ≤ lo → lo + Z.of_nat n ≤ py_len l →
  hunk_lines l (seqZ lo (Z.of_nat n)) = Some (take n (drop (Z.to_nat lo) l)).
Proof.
  unfold hunk_lines, py_len.
  induction n as [|n IH]; intros lo Hlo Hhi.
  - by rewrite take_0.
  - rewrite seqZ_cons by lia. cbn [mapM].
    replace (Z.pred (Z.of_nat (S n))) with (Z.of_nat n) by lia.
    rewrite py_index_nonneg by done.
    destruct (lookup_lt_is_Some_2 l (Z.to_nat lo)) as [x Hx]; [lia|].
    rewrite Hx. simpl. rewrite IH by lia. simpl.
    rewrite (drop_S _ _ _ Hx). simpl.
    by replace (Z.to_nat (Z.succ lo)) with (S (Z.to_nat lo)) by lia.
Qed.

(** The lines of a range within a sequence are its slice. *)
Lemma hunk_lines_range (l : list ASSLine) (lo hi : Z) :
  0 ≤ lo → hi ≤ py_len l →
  hunk_lines l (py_range lo hi) = Some (slice l lo hi).
Proof.
  intros Hlo Hhi. unfold py_range, slice.
  destruct (decide (lo ≤ hi)) as [Hle|Hgt].
  - replace (hi - lo) with (Z.of_nat (Z.to_nat (hi - lo))) at 1 by lia.
    apply hunk_lines_seqZ; lia.
  - rewrite seqZ_nil by lia. replace (Z.to_nat (hi - lo)) with 0%nat by lia.
    by rewrite take_0.
Qed.

(** A line whose [fields] have a type can be compared. *)
Definition has_Type (x : ASSLine) : Prop := is_Some (fields x !! "Type").

Lemma is_record_has_Type c x : is_record c x → has_Type x.
Proof.
  intros [_ Hdom]. unfold has_Type. apply elem_of_dom. rewrite Hdom. set_solver.
Qed.

Lemma line_eq_defined x y : has_Type x → has_Type y → is_Some (line_eq x y).
Proof.
  intros Hx Hy. unfold line_eq, items. rewrite !decide_True by done. simpl. eauto.
Qed.

Lemma all_lines_equal_defined list1 list2 hunk1 : ∀ hunk2 l1 l2,
  Forall has_Type list1 → Forall has_Type list2 →
  hunk_lines list1 hunk1 = Some l1 →
  hunk_lines list2 hunk2 = Some l2 →
  is_Some (all_lines_equal list1 list2 (zip hunk1 hunk2)).
Proof.
  unfold hunk_lines.
  induction hunk1 as [|i hunk1 IH]; intros [|j hunk2] l1 l2 T1 T2; simpl;
    try (by eauto).
  destruct (py_index list1 i) as [x|] eqn:Hx; [|done].
  destruct (py_index list2 j) as [y|] eqn:Hy; [|done]. simpl.
  destruct (mapM (py_index list1) hunk1) as [l1'|] eqn:H1; [|done].
  destruct (mapM (py_index list2) hunk2) as [l2'|] eqn:H2; [|done].
  intros _ _.
  destruct (line_eq_defined x y) as [same ->].
  - rewrite Forall_forall in T1. apply T1. by eapply py_index_elem.
  - rewrite Forall_forall in T2. apply T2. by eapply py_index_elem.
  - simpl. destruct same; [by eapply IH | eauto].
Qed.

Lemma hunks_equal_defined list1 hunk1 list2 hunk2 l1 l2 :
  Forall has_Type list1 → Forall has_Type list2 →
  hunk_lines list1 hunk1 = Some l1 →
  hunk_lines list2 hunk2 = Some l2 →
  is_Some (hunks_equal list1 hunk1 list2 hunk2).
Proof.
  intros T1 T2 H1 H2. unfold hunks_equal. case_decide; [|eauto].
  by eapply all_lines_equal_defined.
Qed.

(** A hunk whose local and remote lines are the same yields the local lines
    and leaves the conflict handler alone. *)
Lemma process_hunks_same_sides {St : Type}
    (conflict_handler :
       list ASSLine → list ASSLine → list ASSLine → St
       → option (list ASSLine * St))
    A O B a_hunk b_hunk o_hunk st a_lines b_lines o_lines :
  Forall has_Type A → Forall has_Type O → Forall has_Type B →
  hunk_lines A a_hunk = Some a_lines →
  hunk_lines B b_hunk = Some b_lines →
  hunk_lines O o_hunk = Some o_lines →
  same_lines a_lines b_lines →
  process_hunks conflict_handler A O B a_hunk b_hunk o_hunk st
  = Some (a_lines, st).
Proof.
  intros TA TO TB Ha Hb Ho Hsame.
  rewrite (process_hunks_branches conflict_handler A O B a_hunk b_hunk o_hunk st
             a_lines b_lines o_lines Ha Hb Ho);
    [| by eapply hunks_equal_defined ..].
  rewrite decide_True; [done | by left].
Qed.

(** ** The field merge of two sides that are the same *)

(** The text that a dialogue line shows reads back as written.  Every line
    that the parser builds is so; a line is not when [merge_extradata]
    dropped all its references and its text goes on like a prefix with
    digits that [str] would write otherwise. *)
Definition text_reads_back (c : cls) (x : ASSLine) : Prop :=
  c = DialogueLine → ∀ s, view x !! "Text" = Some (VStr s) → reads_back s.

Lemma changed_fields_same_view c x y parent :
  is_record c x → is_record c y → view x = view y →
  changed_fields x parent = changed_fields y parent.
Proof.
  intros [_ Dx] [_ Dy] Hv. unfold changed_fields. by rewrite Hv, Dx, Dy.
Qed.

Lemma changes_empty x parent :
  changed_fields x parent = ∅ → changes x parent = ∅.
Proof.
  intros He. apply (dom_empty_inv_L (D := gset string)).
  unfold changes. by rewrite dom_changed.
Qed.

Lemma unchanged_same_view c x parent :
  is_record c x → is_record c parent →
  changed_fields x parent = ∅ → view parent = view x.
Proof.
  intros [_ Dx] [_ Dp] He. apply map_eq. intros k.
  destruct (decide (k ∈ dom (fields x))) as [Hk|Hk].
  - destruct (decide (view x !! k = view parent !! k)) as [|Hne]; [done|].
    exfalso. assert (k ∈ changed_fields x parent) as Hin.
    { unfold changed_fields. by apply elem_of_filter. }
    rewrite He in Hin. by apply not_elem_of_empty in Hin.
  - assert (k ∉ dom (fields parent)) as Hk' by (by rewrite Dp, <- Dx).
    rewrite <- dom_view in Hk, Hk'.
    apply not_elem_of_dom in Hk, Hk'. by rewrite Hk, Hk'.
Qed.

(** When the local and the remote line show the same entries, the merge is a
    conflict (they differ from the parent) or gives a line that shows these
    entries again (they do not), provided the text reads back. *)
Lemma merge_same_sides c x parent y :
  is_record c x → is_record c parent → is_record c y →
  well_typed c x → well_typed c parent → well_typed c y →
  view x = view y → text_reads_back c x →
  merge c x parent y = Some None
  ∨ ∃ line, merge c x parent y = Some (Some line) ∧ view line = view x.
Proof.
  intros Rx Rp Ry Tx Tp Ty Hv Hback.
  pose proof (changed_fields_same_view c x y parent Rx Ry Hv) as Hch.
  destruct (decide (changed_fields x parent = ∅)) as [He|Hne].
  - right.
    assert (merged_fields (view parent) (changes x parent) (changes y parent)
            = view x) as Hm.
    { rewrite !changes_empty by congruence. unfold merged_fields.
      rewrite !(left_id_L ∅ (∪)). by eapply unchanged_same_view. }
    destruct (merge_disjoint_view c x parent y Rx Rp Ry Tx Tp Ty)
      as (line & Hline & _ & Hview).
    + rewrite <- Hch, He. set_solver.
    + intros Hc s. rewrite Hm. by apply Hback.
    + exists line. split; [done|]. by rewrite Hview.
  - left. unfold merge.
    rewrite (changed_record c x parent Rx Rp), (changed_record c y parent Ry Rp).
    simpl. rewrite !dom_changed, <- Hch. rewrite decide_True; [done|].
    set_solver.
Qed.

(** ** The walk over sequences whose two sides are the same *)

Lemma same_lines_slice (l1 l2 : list ASSLine) lo hi :
  same_lines l1 l2 → same_lines (slice l1 lo hi) (slice l2 lo hi).
Proof.
  unfold same_lines, slice. intros Hs. by rewrite !fmap_take, !fmap_drop, Hs.
Qed.

Lemma same_lines_length (l1 l2 : list ASSLine) :
  same_lines l1 l2 → py_len l1 = py_len l2.
Proof.
  unfold same_lines, py_len. intros Hs. apply (f_equal length) in Hs.
  rewrite !length_fmap in Hs. lia.
Qed.

Lemma same_lines_lookup (l1 l2 : list ASSLine) i x y :
  same_lines l1 l2 → l1 !! i = Some x → l2 !! i = Some y → view x = view y.
Proof.
  unfold same_lines. intros Hs Hx Hy.
  apply (f_equal (fun l => l !! i)) in Hs.
  rewrite !list_lookup_fmap, Hx, Hy in Hs. by injection Hs.
Qed.

(** The lines up to a confirmed position: what came before the hunk, the
    hunk, and the line at the position. *)
Lemma take_slice_snoc {T} (l : list T) (prev a : Z) (x : T) :
  -1 ≤ prev → prev < a → l !! Z.to_nat a = Some x →
  take (Z.to_nat (prev + 1)) l ++ slice l (prev + 1) a ++ [x]
  = take (Z.to_nat (a + 1)) l.
Proof.
  intros Hp Ha Hx. unfold slice. rewrite (assoc (++)), take_take_drop.
  replace (Z.to_nat (prev + 1) + Z.to_nat (a - (prev + 1)))%nat
    with (Z.to_nat a) by lia.
  replace (Z.to_nat (a + 1)) with (S (Z.to_nat a)) by lia.
  by rewrite (take_S_r _ _ _ Hx).
Qed.

Lemma take_slice_rest {T} (l : list T) (prev : Z) :
  -1 ≤ prev →
  take (Z.to_nat (prev + 1)) l ++ slice l (prev + 1) (Z.of_nat (length l)) = l.
Proof.
  intros Hp. unfold slice. rewrite take_take_drop. apply take_ge. lia.
Qed.

Section same_sides.
Context {St : Type}.
Context (conflict_handler :
  list ASSLine → list ASSLine → list ASSLine → St → option (list ASSLine * St)).
Context (c : cls) (A O B : list ASSLine) (st : St).
Context (RA : Forall (is_record c) A) (RO : Forall (is_record c) O)
        (RB : Forall (is_record c) B).
Context (TA : Forall (well_typed c) A) (TO : Forall (well_typed c) O)
        (TB : Forall (well_typed c) B).
Context (Hsame : same_lines A B).
Context (Hback : Forall (text_reads_back c) A).
(** The index map of both sides: positions in order, within the sequences. *)
Context (o_to_a : list (Z * Z)).
Context (Hsorted : StronglySorted position_lt o_to_a).
Context (Hwithin :
  Forall (fun p => 0 ≤ p.1 < py_len O ∧ 0 ≤ p.2 < py_len A) o_to_a).

(** What holds of the variables of the walk between two turns: the cursors
    of the two sides agree, the lines yielded are those of the local side up
    to its cursor, and the conflict handler was not called. *)
Definition walk_inv (w : @walk_state St) : Prop :=
  prev_b w = prev_a w
  ∧ -1 ≤ prev_a w < py_len A
  ∧ -1 ≤ prev_o w < py_len O
  ∧ same_lines (yielded w) (take (Z.to_nat (prev_a w + 1)) A)
  ∧ handler_state w = st.

Lemma has_Type_all l : Forall (is_record c) l → Forall has_Type l.
Proof. intros Hl. eapply Forall_impl; [exact Hl|]. apply is_record_has_Type. Qed.

Lemma walk_step_same_sides w o a :
  walk_inv w → (o, a) ∈ o_to_a → prev_o w < o → prev_a w < a →
  ∃ w', walk_step conflict_handler gap_local_or_remote A O B o_to_a w (o, a)
        = Some w'
        ∧ walk_inv w'
        ∧ (w' = w ∨ (prev_o w' = o ∧ prev_a w' = a)).
Proof using RA RO RB TA TO TB Hsame Hback Hsorted Hwithin.
  intros (Hb & Ha & Ho & Hy & Hst) Hin Hpo Hpa.
  pose proof (same_lines_length _ _ Hsame) as Hlen.
  rewrite Forall_forall in Hwithin. destruct (Hwithin _ Hin) as [Wo Wa].
  simpl in Wo, Wa.
  unfold walk_step.
  rewrite (od_elem_get o a o_to_a (position_lt_NoDup _ Hsorted) Hin).
  rewrite !py_index_nonneg by lia.
  destruct (lookup_lt_is_Some_2 O (Z.to_nat o)) as [parent Hparent];
    [unfold py_len in *; lia|].
  destruct (lookup_lt_is_Some_2 A (Z.to_nat a)) as [mine Hmine];
    [unfold py_len in *; lia|].
  destruct (lookup_lt_is_Some_2 B (Z.to_nat a)) as [their Htheir];
    [unfold py_len in *; lia|].
  rewrite Hparent, Hmine, Htheir. simpl.
  pose proof (same_lines_lookup _ _ _ _ _ Hsame Hmine Htheir) as Hview.
  pose proof (Forall_lookup_1 _ _ _ _ RO Hparent) as Rp.
  pose proof (Forall_lookup_1 _ _ _ _ RA Hmine) as Rm.
  pose proof (Forall_lookup_1 _ _ _ _ RB Htheir) as Rt.
  pose proof (Forall_lookup_1 _ _ _ _ TO Hparent) as Tp.
  pose proof (Forall_lookup_1 _ _ _ _ TA Hmine) as Tm.
  pose proof (Forall_lookup_1 _ _ _ _ TB Htheir) as Tt.
  pose proof (Forall_lookup_1 _ _ _ _ Hback Hmine) as Bm.
  assert (line_cls parent = c) as -> by (by destruct Rp).
  destruct (merge_same_sides c mine parent their Rm Rp Rt Tm Tp Tt Hview Bm)
    as [-> | (line & -> & Hline)].
  { simpl. exists w. split; [done|].
    split; [unfold walk_inv; split_and!; (done || lia) | by left]. }
  simpl.
  assert (process_hunks conflict_handler A O B
            (py_range (prev_a w + 1) a) (py_range (prev_b w + 1) a)
            (py_range (prev_o w + 1) o) (handler_state w)
          = Some (slice A (prev_a w + 1) a, handler_state w)) as Hflush.
  { eapply process_hunks_same_sides; try by apply has_Type_all.
    - apply hunk_lines_range; lia.
    - rewrite Hb. apply hunk_lines_range; lia.
    - apply hunk_lines_range; lia.
    - by apply same_lines_slice. }
  assert (same_lines (yielded w ++ slice A (prev_a w + 1) a ++ [line])
            (take (Z.to_nat (a + 1)) A)) as Hyield.
  { rewrite <- (take_slice_snoc A (prev_a w) a mine) by (done || lia).
    unfold same_lines in *. rewrite !fmap_app, Hy. simpl. by rewrite Hline. }
  unfold gap_local_or_remote. case_bool_decide as Hgap.
  - rewrite Hflush. simpl. eexists. split; [done|].
    split; [|by right]. unfold walk_inv. simpl. split_and!; try done; lia.
  - simpl. eexists. split; [done|].
    split; [|by right]. unfold walk_inv. simpl. split_and!; try done; try lia.
    assert (slice A (prev_a w + 1) a = []) as Hnil.
    { unfold slice. replace (Z.to_nat (a - (prev_a w + 1))) with 0%nat by lia.
      apply take_0. }
    by rewrite Hnil in Hyield.
Qed.

Lemma walk_same_sides entries : ∀ w,
  walk_inv w →
  Forall (fun p => p ∈ o_to_a) entries →
  StronglySorted position_lt entries →
  Forall (fun p => prev_o w < p.1 ∧ prev_a w < p.2) entries →
  ∃ w', walk conflict_handler gap_local_or_remote A O B o_to_a w entries
        = Some w'
        ∧ walk_inv w'.
Proof using RA RO RB TA TO TB Hsame Hback Hsorted Hwithin.
  induction entries as [|[o a] entries IH]; intros w Hinv Hin Hs Hprev.
  - exists w. done.
  - apply Forall_cons in Hin as [Hin Hins].
    apply StronglySorted_cons in Hs as [Hhead Hs].
    apply Forall_cons in Hprev as [[Hpo Hpa] Hprev]. simpl in Hpo, Hpa.
    destruct (walk_step_same_sides w o a Hinv Hin Hpo Hpa)
      as (w1 & Hstep & Hinv1 & Hcur).
    cbn [walk]. rewrite Hstep. simpl. apply IH; [done..|].
    destruct Hcur as [-> | [-> ->]]; [done|].
    eapply Forall_impl; [exact Hhead|]. intros p Hp. exact Hp.
Qed.
End same_sides.

(** When the local and the remote sequence show the same lines, and these
    have the same keys and texts that read back as written, [diff3] yields
    lines that show what the two sides show, and never calls the conflict
    handler: the state comes back as it went in, whatever the handler. *)
Theorem diff3_same_sides {K : Type} `{Countable K} {St : Type}
    (conflict_handler :
       list ASSLine → list ASSLine → list ASSLine → St
       → option (list ASSLine * St))
    (memoizers : list (ASSLine → K)) (c : cls) (A O B : list ASSLine) (st : St) :
  Forall (is_record c) A → Forall (is_record c) O → Forall (is_record c) B →
  Forall (well_typed c) A → Forall (well_typed c) O → Forall (well_typed c) B →
  same_lines A B →
  Forall2 (same_keys memoizers) A B →
  Forall (text_reads_back c) A →
  ∃ out, diff3 conflict_handler memoizers A O B st = Some (out, st)
         ∧ same_lines out A.
Proof.
  intros RA RO RB TA TO TB Hsame Hkeys Hback.
  unfold diff3, diff3_with.
  rewrite <- (find_matches_same_keys O A B memoizers Hkeys).
  destruct (find_matches_spec (LineMatcher_init O A memoizers)
              (queue_turns [first_window (LineMatcher_init O A memoizers)]))
    as (matches & Hrun & _ & Hbefore & Hin); [done|].
  fold (find_matches (LineMatcher_init O A memoizers)) in Hrun.
  rewrite Hrun. simpl.
  rewrite (map_indices_sorted matches Hbefore).
  pose proof (positions_sorted matches Hbefore) as Hsorted.
  pose proof (positions_within matches (py_len O) (py_len A) Hin) as Hwithin.
  pose proof (same_lines_length _ _ Hsame) as Hlen.
  assert (0 ≤ py_len A ∧ 0 ≤ py_len O) as [HlenA HlenO]
    by (unfold py_len; lia).
  destruct (walk_same_sides conflict_handler c A O B st RA RO RB TA TO TB
              Hsame Hback (positions matches) Hsorted Hwithin
              (positions matches) (mkWalk (-1) (-1) (-1) [] st))
    as (w & -> & Hb & Ha & Ho & Hy & Hst).
  { unfold walk_inv. simpl. split_and!; try done; lia. }
  { apply Forall_forall. auto. }
  { done. }
  { eapply Forall_impl; [exact Hwithin|]. simpl. intros p. lia. }
  simpl.
  assert (∀ l, Forall (is_record c) l → Forall has_Type l) as Htype.
  { intros l Hl. eapply Forall_impl; [exact Hl|]. apply is_record_has_Type. }
  rewrite (process_hunks_same_sides conflict_handler A O B _ _ _ _
             (slice A (prev_a w + 1) (py_len A))
             (slice B (prev_a w + 1) (py_len A))
             (slice O (prev_o w + 1) (py_len O))
             (Htype A RA) (Htype O RO) (Htype B RB)).
  - simpl. rewrite Hst. eexists. split; [done|].
    unfold same_lines in *. rewrite fmap_app, Hy, <- fmap_app.
    unfold py_len. by rewrite take_slice_rest by lia.
  - apply hunk_lines_range; lia.
  - rewrite Hb, <- Hlen. apply hunk_lines_range; lia.
  - apply hunk_lines_range; lia.
  - by apply same_lines_slice.
Qed.

(** The memoizers of [main] read a line through what it shows. *)
Lemma event_memoizers_same_keys (A B : list ASSLine) :
  same_lines A B → Forall2 (same_keys event_memoizers) A B.
Proof.
  unfold same_lines. revert B.
  induction A as [|x A IH]; intros [|y B]; try done.
  rewrite !fmap_cons. intros [= Hxy Hrest]. constructor; [|by apply IH].
  unfold same_keys, event_memoizers. repeat constructor;
    by rewrite !getitem_view, Hxy.
Qed.

Lemma style_memoizers_same_keys (A B : list ASSLine) :
  same_lines A B → Forall2 (same_keys style_memoizers) A B.
Proof.
  unfold same_lines. revert B.
  induction A as [|x A IH]; intros [|y B]; try done.
  rewrite !fmap_cons. intros [= Hxy Hrest]. constructor; [|by apply IH].
  unfold same_keys, style_memoizers. repeat constructor;
    by rewrite !getitem_view, Hxy.
Qed.

(** Both sides replaced the event [E] of the ancestor by the event [L]: the
    output shows [L], and the flag of the conflict handler stays down. *)
Lemma diff3_same_sides_example :
  ∃ out,
    diff3 (dialogue_conflict_handler sample_args) event_memoizers
      [sample_L] [sample_E] [sample_L] false
    = Some (out, false)
    ∧ same_lines out [sample_L].
Proof.
  assert (∀ ty start stop text,
            ty = "Dialogue" →
            well_typed DialogueLine (sample_dialogue ty start stop text []))
    as Htyped.
  { intros ty start stop text ->. split_and!.
    - intros valid [= <-]. exists "Dialogue". split; [by vm_compute|].
      apply list_elem_of_here.
    - intros _. eexists. by vm_compute.
    - done. }
  apply (diff3_same_sides (dialogue_conflict_handler sample_args)
           event_memoizers DialogueLine [sample_L] [sample_E] [sample_L] false);
    try (repeat constructor; apply sample_dialogue_record);
    try (repeat constructor; by apply Htyped);
    try (by apply event_memoizers_same_keys).
  repeat constructor. intros _ s Hs. vm_compute in Hs.
  injection Hs as <-. by vm_compute.
Defined.

(** * Further properties of the record merge *)

(** The two sides of [merge] can be exchanged: on records of one class it
    gives the same outcome, a conflict or the same line. *)
Theorem merge_sides_commute (c : cls) (a parent b : ASSLine) :
  is_record c a → is_record c parent → is_record c b →
  merge c a parent b = merge c b parent a.
Proof.
  intros Ra Rp Rb. unfold merge.
  rewrite (changed_record c a parent Ra Rp), (changed_record c b parent Rb Rp).
  simpl. fold (changes a parent) (changes b parent).
  destruct (decide (dom (changes a parent) ∩ dom (changes b parent) ≠ ∅))
    as [Hov|Hdis].
  - rewrite decide_True; [done|]. by rewrite (comm_L (∩)).
  - rewrite decide_False by by rewrite (comm_L (∩)).
    rewrite (items_record c parent Rp). simpl.
    assert (changes a parent ##ₘ changes b parent) as Hdisj.
    { apply map_disjoint_dom. apply disjoint_intersection_L.
      by destruct (decide (dom (changes a parent) ∩ dom (changes b parent) = ∅)). }
    assert (merged_fields (view parent) (changes a parent) (changes b parent)
            = merged_fields (view parent) (changes b parent) (changes a parent))
      as ->; [|done].
    unfold merged_fields.
    by rewrite !(assoc_L (∪)), (map_union_comm _ _ Hdisj).
Qed.

(** A side that has a field the parent lacks makes [merge] raise (the
    [KeyError] of [parent[field]]): it returns neither a conflict nor a
    line.  The field is one that the parent has no attribute for: under the
    name of an attribute, [parent[field]] is that attribute and nothing is
    raised there. *)
Theorem merge_missing_field (c : cls) (a parent b : ASSLine) (k : string) :
  attribute_name (line_cls parent) k = false →
  is_Some (fields a !! k) → fields parent !! k = None →
  merge c a parent b = None.
Proof.
  intros _ Ha Hp. unfold merge.
  assert (changed a parent = None) as ->; [|done].
  unfold changed, items. case_decide; [|done]. simpl.
  rewrite decide_False; [done|]. rewrite dom_view. intros Hsub.
  apply elem_of_dom in Ha. apply Hsub in Ha.
  apply elem_of_dom in Ha as [? ?]. congruence.
Qed.

Lemma merge_missing_field_witness :
  merge DialogueLine
    (sample_dialogue "Dialogue" "0:00:00.00" "0:00:05.00" "x" [])
    (sample_keyval "Dialogue" "x")
    (sample_dialogue "Dialogue" "0:00:00.00" "0:00:05.00" "x" [])
  = None.
Proof.
  apply (merge_missing_field _ _ _ _ "Text"); [|eexists|]; by vm_compute.
Defined.

(** Merging a record with itself, against itself, gives a line that shows
    the record again, without a conflict, provided its text reads back. *)
Theorem merge_idempotent (c : cls) (x : ASSLine) :
  is_record c x → well_typed c x → text_reads_back c x →
  ∃ line, merge c x x x = Some (Some line) ∧ view line = view x.
Proof.
  intros Rx Tx Hback.
  destruct (merge_same_sides c x x x Rx Rx Rx Tx Tx Tx eq_refl Hback)
    as [Hconflict | Hline]; [|done].
  exfalso. unfold merge in Hconflict.
  rewrite (changed_record c x x Rx Rx) in Hconflict. simpl in Hconflict.
  rewrite !dom_changed in Hconflict.
  assert (changed_fields x x = ∅) as He.
  { unfold changed_fields. apply set_eq. intros k.
    rewrite elem_of_filter. set_solver. }
  rewrite He in Hconflict. rewrite decide_False in Hconflict by set_solver.
  destruct (items x) as [ix|]; [|done]. simpl in Hconflict.
  destruct (init c _ _); done.
Qed.

Lemma merge_idempotent_witness :
  ∃ line, merge DialogueLine sample_L sample_L sample_L = Some (Some line)
          ∧ view line = view sample_L.
Proof.
  apply merge_idempotent;
    [apply sample_dialogue_record | apply sample_dialogue_typed |].
  intros _ s Hs. vm_compute in Hs. injection Hs as <-. by vm_compute.
Defined.

Lemma merge_sides_commute_witness :
  merge DialogueLine
    (sample_dialogue "Dialogue" "0:00:00.00" "0:00:05.00" "new" [])
    (sample_dialogue "Dialogue" "0:00:00.00" "0:00:05.00" "old" [])
    (sample_dialogue "Dialogue" "0:00:01.00" "0:00:06.00" "old" [])
  = merge DialogueLine
    (sample_dialogue "Dialogue" "0:00:01.00" "0:00:06.00" "old" [])
    (sample_dialogue "Dialogue" "0:00:00.00" "0:00:05.00" "old" [])
    (sample_dialogue "Dialogue" "0:00:00.00" "0:00:05.00" "new" []).
Proof. apply merge_sides_commute; apply sample_dialogue_record. Defined.

(** * Further properties of [merge_keyval] *)

Section odict_lookup.
Context {Key V : Type} `{EqDecision Key}.
Implicit Types (d u : list (Key * V)) (k : Key).

Lemma od_get_None k d : od_get k d = None ↔ k ∉ d.*1.
Proof.
  induction d as [|[k1 v1] d IH]; simpl.
  - split; [intros _; apply not_elem_of_nil | done].
  - case_decide; subst.
    + split; [done|]. intros Hn. exfalso. apply Hn, list_elem_of_here.
    + rewrite IH, not_elem_of_cons. naive_solver.
Qed.

Lemma od_get_is_Some k d : is_Some (od_get k d) ↔ k ∈ d.*1.
Proof.
  destruct (od_get k d) as [v|] eqn:Hg.
  - split; [intros _ | eauto].
    destruct (decide (k ∈ d.*1)) as [|Hn]; [done|].
    apply od_get_None in Hn. congruence.
  - apply od_get_None in Hg. split; [by intros [? ?] | done].
Qed.

Lemma od_get_pop k k' d :
  od_get k (od_pop k' d) = if decide (k = k') then None else od_get k d.
Proof.
  unfold od_pop. induction d as [|[k1 v1] d IH]; simpl.
  - by case_decide.
  - rewrite filter_cons. simpl.
    repeat (case_decide; simpl; subst); try done; congruence.
Qed.

Lemma od_get_pops k (ks : list Key) : ∀ d,
  od_get k (fold_left (fun acc key => od_pop key acc) ks d)
  = if decide (k ∈ ks) then None else od_get k d.
Proof.
  induction ks as [|k1 ks IH]; intros d.
  - destruct (decide (k ∈ [])) as [Hin|]; [|done].
    by apply elem_of_nil in Hin.
  - cbn [fold_left]. rewrite IH, od_get_pop.
    destruct (decide (k ∈ ks)) as [Hin|Hout].
    + rewrite decide_True; [done | by apply list_elem_of_further].
    + case_decide; subst.
      * rewrite decide_True; [done | apply list_elem_of_here].
      * rewrite decide_False; [done|]. by intros [?|?]%elem_of_cons.
Qed.

(** After an update, a key holds the value that [u] gives it, and what it
    held before when [u] has no value for it. *)
Lemma od_get_update_from k d u :
  NoDup u.*1 →
  od_get k (od_update d u) = from_option Some (od_get k d) (od_get k u).
Proof.
  intros Hu. destruct (od_get k u) as [v|] eqn:Hg; simpl.
  - apply od_get_update; [done | by apply od_get_Some].
  - apply od_get_update_other. by apply od_get_None.
Qed.
End odict_lookup.

Section keyval_lookup.
Implicit Types (x_map o_map d : list (value * value)) (k : value).

Lemma keyval_changed_get x_map o_map k :
  NoDup x_map.*1 →
  NoDup (keyval_changed x_map o_map).*1
  ∧ od_get k (keyval_changed x_map o_map)
    = if decide (od_get k x_map = od_get k o_map) then None else od_get k x_map.
Proof.
  intros Hx. unfold keyval_changed.
  rewrite od_of_pairs_NoDup by by apply od_filter_NoDup.
  split; [by apply od_filter_NoDup|].
  destruct (od_get k (filter (fun kv => od_get kv.1 o_map ≠ Some kv.2) x_map))
    as [v|] eqn:Hg.
  - apply od_get_Some, list_elem_of_filter in Hg as [Hne Hin]. simpl in Hne.
    apply (od_elem_get _ _ _ Hx) in Hin. rewrite Hin.
    rewrite decide_False; [done | congruence].
  - case_decide as Heq; [done|].
    destruct (od_get k x_map) as [v|] eqn:Hv; [|done].
    exfalso. apply od_get_None in Hg. apply Hg.
    apply list_elem_of_fmap. exists (k, v). split; [done|].
    apply list_elem_of_filter. split; [simpl; congruence | by apply od_get_Some].
Qed.

Lemma keyval_removed_elem x_map o_map k :
  k ∈ keyval_removed x_map o_map
  ↔ is_Some (od_get k o_map) ∧ od_get k x_map = None.
Proof.
  unfold keyval_removed. rewrite list_elem_of_filter, od_get_is_Some. tauto.
Qed.

(** What one side does to the dictionary: a key that the side holds as the
    ancestor does (or lacks as the ancestor does) keeps what the dictionary
    had; any other key gets what the side has for it, a value or nothing. *)
Lemma keyval_apply_side x_map o_map d k :
  NoDup x_map.*1 →
  od_get k (od_update
              (fold_left (fun acc key => od_pop key acc)
                 (keyval_removed x_map o_map) d)
              (keyval_changed x_map o_map))
  = if decide (od_get k x_map = od_get k o_map) then od_get k d
    else od_get k x_map.
Proof.
  intros Hx. destruct (keyval_changed_get x_map o_map k Hx) as [Hnd Hget].
  rewrite (od_get_update_from _ _ _ Hnd), Hget, od_get_pops.
  destruct (decide (od_get k x_map = od_get k o_map)) as [Heq|Hne]; simpl.
  - rewrite decide_False; [done|].
    intros [[v Hv] Hn]%keyval_removed_elem. congruence.
  - destruct (od_get k x_map) as [v|] eqn:Hv; simpl; [done|].
    rewrite decide_True; [done|]. apply keyval_removed_elem.
    split; [|done]. destruct (od_get k o_map); [eauto | done].
Qed.

(** The merged dictionary, key by key: the value of the preferred side where
    that side departs from the ancestor, the value of the other side
    elsewhere; a missing key counts as a value. *)
Lemma merge_keyval_map_lookup script_info a_map o_map b_map k :
  NoDup a_map.*1 → NoDup b_map.*1 →
  od_get k (merge_keyval_map script_info a_map o_map b_map)
  = let mine := od_get k (preferred script_info a_map b_map) in
    let other := od_get k (preferred script_info b_map a_map) in
    if decide (mine = od_get k o_map) then other else mine.
Proof.
  intros Ha Hb. unfold merge_keyval_map.
  destruct script_info; simpl; rewrite !keyval_apply_side by done;
    repeat case_decide; congruence.
Qed.
End keyval_lookup.

Definition keyval_line (kv : value * value) : ASSLine :=
  mkLine KeyValueLine None (<["Value" := kv.2]> {["Type" := kv.1]}) [].

Lemma lines_to_map_keyval_lines (m : list (value * value)) :
  NoDup m.*1 → lines_to_map (keyval_line <$> m) = Some m.
Proof.
  intros Hm. unfold lines_to_map.
  rewrite (mapM_fmap_Some _ keyval_line m); [|by intros [k v]; vm_compute].
  simpl. by rewrite od_of_pairs_NoDup.
Qed.

(** [merge_keyval], key by key.  When the three sections can be read, the
    merge returns lines that read back as a dictionary which holds, for
    every key, the value of the preferred side where that side departs from
    the ancestor (by another value, by a new key, or by removing the key),
    and the value of the other side elsewhere. *)
Theorem merge_keyval_three_way script_info A O B a_map o_map b_map :
  lines_to_map A = Some a_map →
  lines_to_map O = Some o_map →
  lines_to_map B = Some b_map →
  ∃ out merged,
    merge_keyval script_info A O B = Some out
    ∧ lines_to_map out = Some merged
    ∧ ∀ k,
        od_get k merged
        = let mine := od_get k (preferred script_info a_map b_map) in
          let other := od_get k (preferred script_info b_map a_map) in
          if decide (mine = od_get k o_map) then other else mine.
Proof.
  intros HA HO HB.
  pose proof (lines_to_map_NoDup _ _ HA) as Na.
  pose proof (lines_to_map_NoDup _ _ HO) as No.
  pose proof (lines_to_map_NoDup _ _ HB) as Nb.
  exists (keyval_line <$> merge_keyval_map script_info a_map o_map b_map),
         (merge_keyval_map script_info a_map o_map b_map).
  split_and!.
  - unfold merge_keyval. rewrite HA, HO, HB. simpl. apply merge_keyval_lines.
  - apply lines_to_map_keyval_lines. by apply merge_keyval_map_NoDup.
  - intros k. by apply merge_keyval_map_lookup.
Qed.

(** The preferred side removed the author, the other side changed it; the
    other side alone changed the title. *)
Lemma merge_keyval_three_way_witness :
  ∃ out merged,
    merge_keyval theirs
      [sample_keyval "Title" "other"; sample_keyval "Author" "new"]
      [sample_keyval "Title" "old"; sample_keyval "Author" "old"]
      [sample_keyval "Title" "old"]
    = Some out
    ∧ lines_to_map out = Some merged
    ∧ od_get (VStr "Title") merged = Some (VStr "other")
    ∧ od_get (VStr "Author") merged = None.
Proof.
  destruct (merge_keyval_three_way theirs
              [sample_keyval "Title" "other"; sample_keyval "Author" "new"]
              [sample_keyval "Title" "old"; sample_keyval "Author" "old"]
              [sample_keyval "Title" "old"]
              [(VStr "Title", VStr "other"); (VStr "Author", VStr "new")]
              [(VStr "Title", VStr "old"); (VStr "Author", VStr "old")]
              [(VStr "Title", VStr "old")])
    as (out & merged & Hout & Hread & Hget); [by vm_compute ..|].
  exists out, merged. split; [done|]. split; [done|].
  split; rewrite Hget; by vm_compute.
Defined.

(** The lines that [merge_keyval] returns are key/value lines with pairwise
    distinct keys. *)
Theorem merge_keyval_distinct_keys script_info A O B out :
  merge_keyval script_info A O B = Some out →
  NoDup ((fun line => getitem line "Type") <$> out)
  ∧ Forall (fun line => line_cls line = KeyValueLine) out.
Proof.
  unfold merge_keyval. intros Hout.
  apply bind_Some in Hout as (a_map & HA & Hout).
  apply bind_Some in Hout as (o_map & HO & Hout).
  apply bind_Some in Hout as (b_map & HB & Hout).
  rewrite merge_keyval_lines in Hout. injection Hout as <-.
  pose proof (merge_keyval_map_NoDup script_info a_map o_map b_map
                (lines_to_map_NoDup _ _ HO)) as Hnd.
  split.
  - rewrite <- list_fmap_compose.
    apply (NoDup_fmap_2 Some) in Hnd.
    rewrite <- list_fmap_compose in Hnd.
    erewrite list_fmap_ext; [exact Hnd|]. intros i [k v] _. by vm_compute.
  - apply Forall_fmap, Forall_true. done.
Qed.

Lemma merge_keyval_distinct_keys_witness :
  NoDup ((fun line => getitem line "Type")
           <$> [keyval_line (VStr "Title", VStr "mine")])
  ∧ Forall (fun line => line_cls line = KeyValueLine)
      [keyval_line (VStr "Title", VStr "mine")].
Proof.
  apply (merge_keyval_distinct_keys ours [sample_keyval "Title" "mine"]
           [sample_keyval "Title" "old"] [sample_keyval "Title" "their"]).
  by vm_compute.
Defined.

(** * Further properties of [merge_extradata] *)

Lemma sorted_NoDup_strict (l : list Z) :
  StronglySorted Z.le l → NoDup l → StronglySorted Z.lt l.
Proof.
  induction l as [|x l IH]; [constructor|].
  rewrite !StronglySorted_cons, NoDup_cons. intros [Hle Hs] [Hx Hnd].
  split; [|auto]. rewrite Forall_forall in Hle. apply Forall_forall.
  intros y Hy. specialize (Hle y Hy).
  assert (x ≠ y) by (by intros ->). lia.
Qed.

(** The merged table comes in strictly increasing order of its ids. *)
Theorem merge_extradata_sorted (mine parent their : document) :
  StronglySorted Z.lt (Id <$> table (merge_extradata mine parent their)).
Proof.
  destruct (merge_extradata_spec mine parent their) as (final & Hok & -> & _).
  rewrite sorted_table_ids by (intros i d Hd; by apply (ok_id final Hok)).
  apply sorted_NoDup_strict.
  - apply StronglySorted_merge_sort; apply _.
  - rewrite merge_sort_Permutation. apply NoDup_fst_map_to_list.
Qed.

Lemma reference_keeps_content final f id_map f' old new :
  registry_ok final →
  version_reconciled final f id_map f' →
  id_map !! old = Some new →
  ∃ d t, d ∈ Extradata f ∧ Id d = old
         ∧ t ∈ sorted_table (id_to_extradata final)
         ∧ Id t = new ∧ content t = content d.
Proof.
  intros Hok (Hall & Hmap & _) Hm.
  apply Hmap in Hm as (k & d & d' & Hd & Hd' & Hold & Hnew & _).
  destruct (Forall2_lookup_lr _ _ _ _ _ _ Hall Hd Hd') as [_ Hreg].
  destruct (ok_content final Hok _ _ Hreg) as (t & Ht & Hct).
  destruct (ok_id final Hok _ _ Ht) as [Hid _].
  exists d, t. split_and!; [by eapply list_elem_of_lookup_2 | done | | congruence | done].
  apply elem_of_sorted_table. eauto.
Qed.

(** What the rewriting keeps of the references of an event [e] of the file
    [f], [e'] being the event afterwards and [tbl] the merged table: every
    reference of [e'] comes from a reference of [e] to a data line of [f],
    and is the id of the entry of the table with the key and value of that
    line; and every reference of [e] to an id that a data line of [f] has is
    still there, as the id of such an entry. *)
Definition references_kept (tbl : list data_line) (f : document)
    (e e' : ASSLine) : Prop :=
  (∀ j, j ∈ extra_indices e' →
     ∃ i d t, i ∈ extra_indices e ∧ d ∈ Extradata f ∧ Id d = i
              ∧ t ∈ tbl ∧ Id t = j ∧ content t = content d)
  ∧ (∀ i d0, i ∈ extra_indices e → d0 ∈ Extradata f → Id d0 = i →
       ∃ j d t, j ∈ extra_indices e' ∧ d ∈ Extradata f ∧ Id d = i
                ∧ t ∈ tbl ∧ Id t = j ∧ content t = content d).

Lemma version_reconciled_kept final f id_map f' :
  registry_ok final →
  version_reconciled final f id_map f' →
  Forall2 (references_kept (sorted_table (id_to_extradata final)) f)
    (Events f) (Events f').
Proof.
  intros Hok Hv.
  pose proof (version_reconciled_rewritten _ _ _ _ Hv) as (Hall & Hmap & Hev).
  eapply Forall2_impl; [exact Hev|].
  intros e e' (_ & _ & _ & Hrefs). split.
  - intros j Hj. rewrite Hrefs in Hj.
    apply list_elem_of_omap in Hj as (i & Hi & Hm).
    destruct (reference_keeps_content final f id_map f' i j Hok Hv Hm)
      as (d & t & ? & ? & ? & ? & ?).
    by exists i, d, t.
  - intros i d0 Hi Hd0 Hid.
    destruct (id_map_of_defined f id_map f' d0) as [j Hj];
      [symmetry; by eapply Forall2_length | done | done|].
    rewrite Hid in Hj.
    destruct (reference_keeps_content final f id_map f' i j Hok Hv Hj)
      as (d & t & ? & ? & ? & ? & ?).
    exists j, d, t. split_and!; try done.
    rewrite Hrefs. apply list_elem_of_omap. by exists i.
Qed.

(** The references of the events keep their meaning.  In each of the three
    files, event by event: a reference that the event ends with comes from a
    reference it had to a data line of its file, and is the id of the entry
    of the merged table that has the key and the value of that line; and a
    reference it had to an id that a data line of its file has is not lost,
    but is there as the id of such an entry. *)
Theorem merge_extradata_keeps_references (mine parent their : document) :
  let r := merge_extradata mine parent their in
  Forall2 (references_kept (table r) parent)
    (Events parent) (Events (parent_after r))
  ∧ Forall2 (references_kept (table r) mine)
      (Events mine) (Events (mine_after r))
  ∧ Forall2 (references_kept (table r) their)
      (Events their) (Events (their_after r)).
Proof.
  intros r. subst r.
  destruct (merge_extradata_spec mine parent their)
    as (final & Hok & -> & Vp & Vm & Vt).
  split_and!; by eapply version_reconciled_kept.
Qed.

(** Lines whose ids and contents are new to the registry, and differ from
    one another, go through the loop as they are. *)
Lemma reconcile_lines_fresh (lines : list data_line) : ∀ st id_map,
  Forall (fun d => extradata_to_id st !! content d = None
                   ∧ id_to_extradata st !! Id d = None) lines →
  NoDup (Id <$> lines) → NoDup (content <$> lines) →
  (reconcile_lines st id_map lines).2 = lines.
Proof.
  induction lines as [|d lines IH]; intros st id_map Hfresh Hids Hconts; [done|].
  apply Forall_cons in Hfresh as [[Hc Hi] Hfresh].
  rewrite fmap_cons in Hids. rewrite fmap_cons in Hconts.
  apply NoDup_cons in Hids as [Hid Hids].
  apply NoDup_cons in Hconts as [Hcont Hconts].
  cbn [reconcile_lines]. unfold reconcile_line.
  unfold content in Hc. rewrite Hc.
  rewrite decide_False by (rewrite Hi; by intros [? ?]).
  match goal with
  | |- context [reconcile_lines ?st' ?m' lines] =>
      specialize (IH st' m');
      destruct (reconcile_lines st' m' lines) as [[st2 m2] lines2] eqn:Hrest
  end.
  simpl in *. f_equal. apply IH; [|done..].
  apply Forall_forall. intros d' Hd'.
  rewrite Forall_forall in Hfresh. destruct (Hfresh d' Hd') as [Hc' Hi'].
  simpl. split.
  - rewrite lookup_insert_ne; [done|]. intros Heq. apply Hcont.
    apply list_elem_of_fmap. exists d'. by split.
  - rewrite lookup_insert_ne; [done|]. intros Heq. apply Hid.
    apply list_elem_of_fmap. exists d'. by split.
Qed.

(** The ancestor keeps its numbering: when its data lines have pairwise
    distinct ids and pairwise distinct contents, the reconciliation leaves
    them as they are. *)
Theorem merge_extradata_keeps_ancestor (mine parent their : document) :
  NoDup (Id <$> Extradata parent) →
  NoDup (content <$> Extradata parent) →
  Extradata (parent_after (merge_extradata mine parent their))
  = Extradata parent.
Proof.
  intros Hids Hconts. unfold merge_extradata, reconcile_file.
  pose proof (reconcile_lines_fresh (Extradata parent) empty_registry ∅) as Hp.
  destruct (reconcile_lines empty_registry ∅ (Extradata parent))
    as [[st1 pm] lines1] eqn:H1.
  destruct (reconcile_lines st1 ∅ (Extradata mine)) as [[st2 mm] lines2].
  destruct (reconcile_lines st2 ∅ (Extradata their)) as [[st3 tm] lines3].
  simpl in *. apply Hp; [|done..].
  apply Forall_true. intros d. by rewrite !lookup_empty.
Qed.

Lemma merge_extradata_keeps_ancestor_witness :
  Extradata (parent_after
     (merge_extradata
        (mkDocument [mkData 1 "k" "other"] [])
        (mkDocument [mkData 1 "k" "v"; mkData 2 "k" "w"] [])
        (mkDocument [] [])))
  = [mkData 1 "k" "v"; mkData 2 "k" "w"].
Proof.
  apply (merge_extradata_keeps_ancestor
           (mkDocument [mkData 1 "k" "other"] [])
           (mkDocument [mkData 1 "k" "v"; mkData 2 "k" "w"] [])
           (mkDocument [] []));
    apply (bool_decide_unpack _); by vm_compute.
Defined.

(** * Further properties of the matcher *)

Section index_maps_facts.
Context {R K : Type} `{Countable K}.
Implicit Types (memoizers : list (R → K)) (imaps : list (gmap K (list Z))).
Implicit Types (b : list R) (key : K) (line : R) (imap : gmap K (list Z)).

(** The positions, counted from [i], of the lines of [b] that [memoizer]
    gives the key [key]. *)
Fixpoint postings (memoizer : R → K) key (i : Z) b : list Z :=
  match b with
  | [] => []
  | line :: b' =>
      if decide (memoizer line = key)
      then i :: postings memoizer key (i + 1) b'
      else postings memoizer key (i + 1) b'
  end.

Lemma elem_of_postings memoizer key b : ∀ i j,
  j ∈ postings memoizer key i b
  ↔ ∃ (n : nat) line, j = i + Z.of_nat n ∧ b !! n = Some line
                      ∧ memoizer line = key.
Proof.
  induction b as [|x b IH]; intros i j; simpl.
  - split; [by intros ?%elem_of_nil | by intros (n & line & _ & ? & _)].
  - assert (j ∈ postings memoizer key (i + 1) b
            ↔ ∃ (n : nat) line, j = i + Z.of_nat (S n) ∧ b !! n = Some line
                                ∧ memoizer line = key) as IH'.
    { rewrite IH. split; intros (n & line & -> & ? & ?); exists n, line;
        (split; [lia | done]). }
    case_decide as Hx.
    + rewrite elem_of_cons, IH'. split.
      * intros [-> | (n & line & -> & ? & ?)].
        -- exists 0%nat, x. split; [lia | done].
        -- by exists (S n), line.
      * intros ([|n] & line & -> & Hl & Hk).
        -- left. lia.
        -- right. by exists n, line.
    + rewrite IH'. split.
      * intros (n & line & -> & ? & ?). by exists (S n), line.
      * intros ([|n] & line & -> & Hl & Hk).
        -- simpl in Hl. congruence.
        -- by exists n, line.
Qed.

Lemma postings_sorted memoizer key b : ∀ i,
  StronglySorted Z.lt (postings memoizer key i b)
  ∧ Forall (fun j => i ≤ j) (postings memoizer key i b).
Proof.
  induction b as [|x b IH]; intros i; simpl; [by split; constructor|].
  destruct (IH (i + 1)) as [Hs Hge].
  assert (Forall (fun j => i < j) (postings memoizer key (i + 1) b)) as Hgt.
  { eapply Forall_impl; [exact Hge|]. simpl. lia. }
  case_decide.
  - split; [by apply StronglySorted_cons|].
    constructor; [lia|]. eapply Forall_impl; [exact Hgt|]. simpl. lia.
  - split; [done|]. eapply Forall_impl; [exact Hgt|]. simpl. lia.
Qed.

Lemma add_posting_lookup i line imap memoizer key :
  default [] (add_posting i line imap memoizer !! key)
  = default [] (imap !! key)
    ++ (if decide (memoizer line = key) then [i] else []).
Proof.
  unfold add_posting. case_decide as Hk.
  - subst key. by rewrite lookup_insert_eq.
  - rewrite lookup_insert_ne by done. by rewrite app_nil_r.
Qed.

(** What the loop of [__init__] adds to the index map of a memoizer: under
    every key, the positions of the lines that have it, in order. *)
Lemma index_lines_lookup memoizers b : ∀ imaps i (n : nat) memoizer imap,
  memoizers !! n = Some memoizer → imaps !! n = Some imap →
  ∃ imap', index_lines memoizers imaps i b !! n = Some imap'
    ∧ ∀ key, default [] (imap' !! key)
             = default [] (imap !! key) ++ postings memoizer key i b.
Proof.
  induction b as [|line b IH]; intros imaps i n memoizer imap Hm Hi; simpl.
  - exists imap. split; [done|]. intros key. by rewrite app_nil_r.
  - destruct (IH (index_line memoizers imaps i line) (i + 1) n memoizer
                (add_posting i line imap memoizer)) as (imap' & Hn & Hget);
      [done | |].
    { unfold index_line. by rewrite lookup_zip_with, Hi, Hm. }
    exists imap'. split; [done|]. intros key.
    rewrite Hget, add_posting_lookup, <- (assoc (++)). f_equal.
    by case_decide.
Qed.

(** The posting lists of the index maps of [__init__]. *)
Lemma LineMatcher_index_maps_lookup (a b : list R) memoizers
    (n : nat) (memoizer : R → K) :
  memoizers !! n = Some memoizer →
  ∃ imap,
    lm_index_maps (LineMatcher_init a b memoizers) !! n = Some imap
    ∧ ∀ key,
        StronglySorted Z.lt (default [] (imap !! key))
        ∧ ∀ j, j ∈ default [] (imap !! key)
               ↔ 0 ≤ j ∧ ∃ line, b !! Z.to_nat j = Some line
                                 ∧ memoizer line = key.
Proof.
  intros Hm. unfold LineMatcher_init. cbn [lm_index_maps].
  destruct (index_lines_lookup memoizers b ((fun _ => ∅) <$> memoizers) 0 n
              memoizer ∅ Hm) as (imap & Hn & Hget).
  { by rewrite list_lookup_fmap, Hm. }
  exists imap. split; [done|]. intros key.
  rewrite Hget, lookup_empty. simpl. split; [apply postings_sorted|].
  intros j. rewrite elem_of_postings. split.
  - intros (k & line & -> & Hl & Hk). split; [lia|]. exists line.
    by rewrite Z.add_0_l, Nat2Z.id.
  - intros (Hj & line & Hl & Hk). exists (Z.to_nat j), line.
    split; [lia | done].
Qed.

End index_maps_facts.

(** ** The runs are runs of matching lines *)

Section matching_runs.
Context {R K : Type} `{Countable K}.
Implicit Types (self : @LineMatcher R K _ _) (w : window) (r : run).
Implicit Types (memoizers : list (R → K)) (a b : list R) (ml : gmap Z Z).

(** The line of [a] at [i] and the line of [b] at [j] have the same key under
    one of the memoizers. *)
Definition keys_match memoizers a b (i j : Z) : Prop :=
  0 ≤ i ∧ 0 ≤ j
  ∧ ∃ x y memoizer,
      a !! Z.to_nat i = Some x ∧ b !! Z.to_nat j = Some y
      ∧ memoizer ∈ memoizers ∧ memoizer x = memoizer y.

(** Every pair of lines that a run puts side by side matches. *)
Definition run_matches memoizers a b (r : run) : Prop :=
  let '(start_a, start_b, match_length) := r in
  ∀ t, 0 ≤ t < match_length →
       keys_match memoizers a b (start_a + t) (start_b + t).

(** The lengths recorded for the row [i]: each counts matching pairs up and
    to the left of its column. *)
Definition lengths_match memoizers a b (i : Z) ml : Prop :=
  ∀ j m, ml !! j = Some m →
    ∀ t, 0 ≤ t < m → keys_match memoizers a b (i - t) (j - t).

Lemma elem_of_heapq_merge (lists : list (list Z)) j :
  j ∈ heapq_merge lists ↔ ∃ l, l ∈ lists ∧ j ∈ l.
Proof.
  unfold heapq_merge. induction lists as [|l lists IH]; simpl.
  - split; [by intros ?%elem_of_nil | by intros (l & ?%elem_of_nil & _)].
  - rewrite merge_Permutation, elem_of_app, IH. split.
    + intros [Hj | (l' & Hl' & Hj)].
      * exists l. split; [by left | done].
      * exists l'. split; [by right | done].
    + intros (l' & [-> | Hl']%elem_of_cons & Hj); [by left|].
      right. by exists l'.
Qed.

(** The positions that [b_matches] lists for a line are positions of lines
    of [b] that share a key with it. *)
Lemma b_matches_sound a b memoizers line_a j :
  j ∈ b_matches (LineMatcher_init a b memoizers) line_a →
  0 ≤ j ∧ ∃ y memoizer, b !! Z.to_nat j = Some y ∧ memoizer ∈ memoizers
                        ∧ memoizer line_a = memoizer y.
Proof.
  unfold b_matches. rewrite elem_of_heapq_merge.
  intros (l & Hl & Hj).
  apply elem_of_lookup_zip_with in Hl as (n & imap & memoizer & -> & Hi & Hm).
  destruct (LineMatcher_index_maps_lookup a b memoizers n memoizer Hm)
    as (imap' & Hi' & Hkeys).
  rewrite Hi in Hi'. injection Hi' as <-.
  destruct (Hkeys (memoizer line_a)) as [_ Helem].
  apply Helem in Hj as (Hj & y & Hy & Hk).
  split; [done|]. exists y, memoizer. split_and!; [done | | done].
  by eapply list_elem_of_lookup_2.
Qed.

Lemma scan_row_sound a b memoizers i line_a bi bj ml js :
  ∀ upd best upd' best',
  0 ≤ i → a !! Z.to_nat i = Some line_a →
  (∀ j, j ∈ js → j ∈ b_matches (LineMatcher_init a b memoizers) line_a) →
  lengths_match memoizers a b (i - 1) ml →
  lengths_match memoizers a b i upd →
  run_matches memoizers a b best →
  scan_row i bi bj ml js upd best = (upd', best') →
  lengths_match memoizers a b i upd' ∧ run_matches memoizers a b best'.
Proof.
  induction js as [|j js IH]; intros upd best upd' best' Hi Ha Hjs Hml Hupd Hbest;
    simpl.
  - intros [= <- <-]. done.
  - assert (∀ j', j' ∈ js →
              j' ∈ b_matches (LineMatcher_init a b memoizers) line_a) as Hjs'.
    { intros j' Hj'. apply Hjs. by right. }
    case_decide as Hlo; [by apply IH|].
    case_decide as Hhi; [intros [= <- <-]; done|].
    destruct (b_matches_sound a b memoizers line_a j) as (Hj & y & memoizer & Hy & Hm & Hk).
    { apply Hjs. by left. }
    assert (∀ t, 0 ≤ t < default 0 (ml !! (j - 1)) + 1 →
                 keys_match memoizers a b (i - t) (j - t)) as Hrun.
    { intros t Ht. destruct (decide (t = 0)) as [-> | Hne].
      - rewrite !Z.sub_0_r. split_and!; [done | done|].
        by exists line_a, y, memoizer.
      - destruct (ml !! (j - 1)) as [m|] eqn:Hm'; simpl in Ht; [|lia].
        replace (i - t) with (i - 1 - (t - 1)) by lia.
        replace (j - t) with (j - 1 - (t - 1)) by lia.
        apply (Hml _ _ Hm'). lia. }
    apply IH; [done | done | done | done | |].
    + intros j' m. rewrite lookup_insert. case_decide as Hj'; [|by apply Hupd].
      intros [= <-]. by subst j'.
    + case_decide as Hgt; [|done].
      unfold run_matches. intros t Ht.
      set (m := default 0 (ml !! (j - 1)) + 1) in *.
      replace (i - m + 1 + t) with (i - (m - 1 - t)) by lia.
      replace (j - m + 1 + t) with (j - (m - 1 - t)) by lia.
      apply Hrun. lia.
Qed.

Lemma lcs_rows_sound a b memoizers bi bj (n : nat) : ∀ i ml best r,
  0 ≤ i →
  lengths_match memoizers a b (i - 1) ml →
  run_matches memoizers a b best →
  lcs_rows (LineMatcher_init a b memoizers) bi bj (seqZ i (Z.of_nat n)) ml best
  = Some r →
  run_matches memoizers a b r.
Proof.
  induction n as [|n IH]; intros i ml best r Hi Hml Hbest.
  - simpl. by intros [= <-].
  - rewrite seqZ_cons by lia. cbn [lcs_rows].
    cbn [lm_a LineMatcher_init]. unfold py_index at 1.
    rewrite decide_True by done.
    destruct (a !! Z.to_nat i) as [line_a|] eqn:Ha; [|done]. simpl.
    destruct (scan_row i bi bj ml
                (b_matches (LineMatcher_init a b memoizers) line_a) ∅ best)
      as [upd best'] eqn:Hscan.
    assert (lengths_match memoizers a b i (∅ : gmap Z Z)) as Hempty.
    { intros j m. by rewrite lookup_empty. }
    destruct (scan_row_sound a b memoizers i line_a bi bj ml _ _ _ _ _
                Hi Ha (fun _ Hj => Hj) Hml Hempty Hbest Hscan) as [Hupd Hbest'].
    replace (Z.pred (Z.of_nat (S n))) with (Z.of_nat n) by lia.
    apply IH; [lia | | done].
    by replace (Z.succ i - 1) with i by lia.
Qed.

Lemma lcs_sound a b memoizers ai aj bi bj r :
  0 ≤ ai →
  _lcs (LineMatcher_init a b memoizers) ai aj bi bj = Some r →
  run_matches memoizers a b r.
Proof.
  intros Hai. unfold _lcs, py_range.
  destruct (decide (ai ≤ aj)) as [Hle | Hgt].
  - replace (aj - ai) with (Z.of_nat (Z.to_nat (aj - ai))) by lia.
    apply lcs_rows_sound; [done | |].
    + intros j m. by rewrite lookup_empty.
    + unfold run_matches. lia.
  - rewrite seqZ_nil by lia. simpl. intros [= <-]. unfold run_matches. lia.
Qed.

(** The loop records only runs of matching lines. *)
Lemma find_matches_loop_sound a b memoizers fuel :
  ∀ queue matches result,
  Forall (window_ok (LineMatcher_init a b memoizers)) queue →
  Forall (run_matches memoizers a b) matches →
  find_matches_loop (LineMatcher_init a b memoizers) fuel queue matches
  = Some result →
  Forall (run_matches memoizers a b) result.
Proof.
  induction fuel as [|fuel IH]; intros queue matches result Hq Hm.
  - destruct queue as [|[[[ai aj] bi] bj] queue]; simpl; [|done].
    by intros [= <-].
  - destruct queue as [|w queue]; [simpl; by intros [= <-]|].
    apply Forall_cons in Hq as [Hw Hq].
    destruct (find_matches_step_cons _ w queue matches Hw)
      as (queue' & matches' & Hs & Hturn).
    destruct (turn_of_decreases _ _ _ _ _ _ Hw Hq Hturn) as [Hq' _].
    cbn [find_matches_loop]. rewrite Hs. simpl.
    apply IH; [done|].
    destruct w as [[[ai aj] bi] bj]. cbn [find_matches_step] in Hs.
    destruct Hw as (Hai & _).
    case_decide as Hempty; [by injection Hs as <- <-|].
    destruct (_lcs (LineMatcher_init a b memoizers) ai aj bi bj)
      as [[[sa sb] len]|] eqn:Hlcs; [|done].
    simpl in Hs. injection Hs as <- <-.
    apply Forall_app. split; [done|]. apply Forall_singleton.
    by eapply lcs_sound.
Qed.

(** [find_matches] returns runs of matching lines only: in every run, each
    line of [a] and the line of [b] it is put beside have the same key under
    at least one memoizer. *)
Theorem find_matches_sound a b memoizers :
  ∃ matches,
    find_matches (LineMatcher_init a b memoizers) = Some matches
    ∧ Forall (run_matches memoizers a b) matches.
Proof.
  destruct (find_matches_spec (LineMatcher_init a b memoizers)
              (queue_turns [first_window (LineMatcher_init a b memoizers)]))
    as (matches & Hrun & _); [done|].
  exists matches. split; [done|].
  unfold find_matches, find_matches_within in *.
  destruct (find_matches_loop _ _ _ _) as [found|] eqn:Hloop; [|done].
  simpl in Hrun. injection Hrun as <-.
  rewrite merge_sort_Permutation.
  eapply find_matches_loop_sound; [| |exact Hloop].
  - repeat constructor; unfold py_len; simpl; lia.
  - constructor.
Qed.
End matching_runs.

(** ** The candidates of a line, and the longest run *)

Section longest_run.
Context {R K : Type} `{Countable K}.
Implicit Types (memoizers : list (R → K)) (a b : list R) (ml : gmap Z Z).
Implicit Types (best : run).

Lemma b_matches_complete a b memoizers line_a j y memoizer :
  0 ≤ j → b !! Z.to_nat j = Some y → memoizer ∈ memoizers →
  memoizer line_a = memoizer y →
  j ∈ b_matches (LineMatcher_init a b memoizers) line_a.
Proof.
  intros Hj Hy [n Hm]%list_elem_of_lookup_1 Hk.
  destruct (LineMatcher_index_maps_lookup a b memoizers n memoizer Hm)
    as (imap & Hi & Hkeys).
  unfold b_matches. rewrite elem_of_heapq_merge.
  exists (default [] (imap !! memoizer line_a)). split.
  - apply elem_of_lookup_zip_with. by exists n, imap, memoizer.
  - apply Hkeys. split; [done|]. by exists y.
Qed.

Lemma heapq_merge_sorted (lists : list (list Z)) :
  Forall (Sorted Z.le) lists → Sorted Z.le (heapq_merge lists).
Proof.
  unfold heapq_merge. induction 1 as [|l lists Hl _ IH]; simpl; [constructor|].
  apply Sorted_list_merge; [apply _ | done | done].
Qed.

Lemma b_matches_sorted a b memoizers line_a :
  Sorted Z.le (b_matches (LineMatcher_init a b memoizers) line_a).
Proof.
  apply heapq_merge_sorted, Forall_forall. intros l Hl.
  apply elem_of_lookup_zip_with in Hl as (n & imap & memoizer & -> & Hi & Hm).
  destruct (LineMatcher_index_maps_lookup a b memoizers n memoizer Hm)
    as (imap' & Hi' & Hkeys).
  rewrite Hi in Hi'. injection Hi' as <-.
  destruct (Hkeys (memoizer line_a)) as [Hsorted _].
  apply StronglySorted_Sorted.
  eapply StronglySorted_weaken; [|exact Hsorted]. intros x y. simpl. lia.
Qed.

(** The candidates that [_lcs] walks for a line of [a] are exactly the
    positions of the lines of [b] that have the same key as it under one of
    the memoizers, and they come in ascending order, which the [break] of the
    loop relies on. *)
Theorem b_matches_candidates a b memoizers line_a :
  Sorted Z.le (b_matches (LineMatcher_init a b memoizers) line_a)
  ∧ ∀ j, j ∈ b_matches (LineMatcher_init a b memoizers) line_a
         ↔ 0 ≤ j ∧ ∃ y memoizer, b !! Z.to_nat j = Some y
                                 ∧ memoizer ∈ memoizers
                                 ∧ memoizer line_a = memoizer y.
Proof.
  split; [apply b_matches_sorted|]. intros j. split.
  - apply b_matches_sound.
  - intros (Hj & y & memoizer & Hy & Hm & Hk). by eapply b_matches_complete.
Qed.

(** What the walk over the candidates of a row records: under a column, one
    more than the length recorded up and to the left of it, which the best
    run is at least as long as. *)
Definition row_recorded ml (upd : gmap Z Z) best : Prop :=
  ∀ j m, upd !! j = Some m →
         m = default 0 (ml !! (j - 1)) + 1 ∧ m ≤ best.2.

Lemma scan_row_complete i bi bj ml js : ∀ upd best upd' best',
  StronglySorted Z.le js →
  row_recorded ml upd best →
  scan_row i bi bj ml js upd best = (upd', best') →
  row_recorded ml upd' best' ∧ best.2 ≤ best'.2
  ∧ (∀ j, is_Some (upd !! j) → is_Some (upd' !! j))
  ∧ (∀ j, j ∈ js → bi ≤ j < bj → is_Some (upd' !! j)).
Proof.
  induction js as [|j0 js IH]; intros upd best upd' best' Hsorted Hrec; simpl.
  - intros [= <- <-]. split_and!; [done | lia | done |].
    by intros j ?%elem_of_nil.
  - apply StronglySorted_cons in Hsorted as [Hj0 Hsorted].
    case_decide as Hlo.
    { intros Hscan.
      destruct (IH _ _ _ _ Hsorted Hrec Hscan) as (? & ? & ? & Hjs).
      split_and!; [done..|].
      intros j [-> | Hj]%elem_of_cons Hwin; [lia | by apply Hjs]. }
    case_decide as Hhi.
    { intros [= <- <-]. split_and!; [done | lia | done |].
      intros j [-> | Hj]%elem_of_cons Hwin; [lia|].
      rewrite Forall_forall in Hj0. specialize (Hj0 _ Hj). simpl in Hj0. lia. }
    set (m0 := default 0 (ml !! (j0 - 1)) + 1).
    set (best0 := if decide (best.2 < m0)
                  then (i - m0 + 1, j0 - m0 + 1, m0) else best).
    assert (best.2 ≤ best0.2 ∧ m0 ≤ best0.2) as [Hb Hm0].
    { unfold best0. case_decide; simpl; lia. }
    intros Hscan.
    destruct (IH (<[j0 := m0]> upd) best0 upd' best' Hsorted) as (? & ? & Hkeep & Hjs);
      [|exact Hscan|].
    { intros j m. rewrite lookup_insert. case_decide as Hj.
      - intros [= <-]. subst j. done.
      - intros Hm. destruct (Hrec _ _ Hm). split; [done | lia]. }
    split_and!; [done | lia | |].
    + intros j Hj. apply Hkeep. rewrite lookup_insert. by case_decide.
    + intros j [-> | Hj]%elem_of_cons Hwin; [|by apply Hjs].
      apply Hkeep. rewrite lookup_insert. by rewrite decide_True.
Qed.

(** The lengths recorded for the row [i] of the window miss no run of
    matching lines that ends in the row. *)
Definition lengths_complete memoizers a b (ai bi bj i : Z) ml : Prop :=
  (∀ j m, ml !! j = Some m → 0 ≤ m)
  ∧ ∀ j m', bi ≤ j < bj → 1 ≤ m' → m' ≤ i - ai + 1 → m' ≤ j - bi + 1 →
      (∀ t, 0 ≤ t < m' → keys_match memoizers a b (i - t) (j - t)) →
      ∃ m, ml !! j = Some m ∧ m' ≤ m.

(** No run of matching lines within the rows before [hi] of the window is
    longer than the best one. *)
Definition best_longest memoizers a b (ai bi bj hi : Z) best : Prop :=
  0 ≤ best.2
  ∧ ∀ r', run_within ai bi bj hi r' → run_matches memoizers a b r' →
          r'.2 ≤ best.2.

Lemma scan_row_longest a b memoizers ai bi bj i line_a ml best upd' best' :
  0 ≤ i → ai ≤ i → a !! Z.to_nat i = Some line_a →
  lengths_complete memoizers a b ai bi bj (i - 1) ml →
  best_longest memoizers a b ai bi bj i best →
  scan_row i bi bj ml (b_matches (LineMatcher_init a b memoizers) line_a) ∅ best
  = (upd', best') →
  lengths_complete memoizers a b ai bi bj i upd'
  ∧ best_longest memoizers a b ai bi bj (i + 1) best'.
Proof.
  intros Hi Hai Ha [Hpos Hml] [Hbest0 Hbest] Hscan.
  apply scan_row_complete in Hscan as (Hrec & Hmono & _ & Hjs).
  2: { apply Sorted_StronglySorted; [apply _ | apply b_matches_sorted]. }
  2: { intros j m. by rewrite lookup_empty. }
  assert (∀ j, 0 ≤ default 0 (ml !! (j - 1))) as Hdef.
  { intros j. destruct (ml !! (j - 1)) as [m|] eqn:Hm; simpl; [|lia].
    by eapply Hpos. }
  assert (∀ j m', bi ≤ j < bj → 1 ≤ m' → m' ≤ i - ai + 1 → m' ≤ j - bi + 1 →
      (∀ t, 0 ≤ t < m' → keys_match memoizers a b (i - t) (j - t)) →
      ∃ m, upd' !! j = Some m ∧ m' ≤ m ∧ m ≤ best'.2) as Hrow.
  { intros j m' Hwin H1 Hrows Hcols Hrun.
    destruct (Hrun 0) as (_ & Hj & x & y & memoizer & Hx & Hy & Hm & Hk); [lia|].
    rewrite Z.sub_0_r in Hx, Hy, Hj. rewrite Ha in Hx. injection Hx as <-.
    destruct (Hjs j) as [m Hm']; [by eapply b_matches_complete | done|].
    exists m. destruct (Hrec _ _ Hm') as [-> Hle].
    split_and!; [done | | done].
    destruct (decide (m' = 1)) as [-> | Hne]; [specialize (Hdef j); lia|].
    destruct (Hml (j - 1) (m' - 1)) as (m & -> & Hm1); [lia.. | | simpl; lia].
    intros t Ht.
    replace (i - 1 - t) with (i - (t + 1)) by lia.
    replace (j - 1 - t) with (j - (t + 1)) by lia.
    apply Hrun. lia. }
  split; split.
  - intros j m Hm. destruct (Hrec _ _ Hm) as [-> _]. specialize (Hdef j). lia.
  - intros j m' Hwin H1 Hrows Hcols Hrun.
    destruct (Hrow j m') as (m & ? & ? & _); [done..|]. by exists m.
  - lia.
  - intros [[sa sb] len] Hw Hrun. simpl.
    unfold run_within in Hw. unfold run_matches in Hrun.
    destruct (decide (sa + len ≤ i)) as [Hold | Hnew].
    { specialize (Hbest (sa, sb, len)). simpl in Hbest.
      unfold run_within in Hbest. etrans; [apply Hbest|]; [lia | done | lia]. }
    destruct (decide (len = 0)) as [-> | Hlen]; [lia|].
    destruct (Hrow (sb + len - 1) len) as (m & _ & ? & ?); [lia.. | | lia].
    intros t Ht.
    replace (i - t) with (sa + (len - 1 - t)) by lia.
    replace (sb + len - 1 - t) with (sb + (len - 1 - t)) by lia.
    apply Hrun. lia.
Qed.

Lemma best_longest_mono memoizers a b ai bi bj hi best :
  best_longest memoizers a b ai bi bj (hi + 0) best →
  best_longest memoizers a b ai bi bj hi best.
Proof. by rewrite Z.add_0_r. Qed.

Lemma lcs_rows_longest a b memoizers ai bi bj (n : nat) : ∀ i ml best r,
  0 ≤ i → ai ≤ i →
  lengths_complete memoizers a b ai bi bj (i - 1) ml →
  best_longest memoizers a b ai bi bj i best →
  lcs_rows (LineMatcher_init a b memoizers) bi bj (seqZ i (Z.of_nat n)) ml best
  = Some r →
  best_longest memoizers a b ai bi bj (i + Z.of_nat n) r.
Proof.
  induction n as [|n IH]; intros i ml best r Hi Hai Hml Hbest.
  - simpl. intros [= <-]. by rewrite Z.add_0_r.
  - rewrite seqZ_cons by lia. cbn [lcs_rows].
    cbn [lm_a LineMatcher_init]. unfold py_index at 1.
    rewrite decide_True by done.
    destruct (a !! Z.to_nat i) as [line_a|] eqn:Ha; [|done]. simpl.
    destruct (scan_row i bi bj ml
                (b_matches (LineMatcher_init a b memoizers) line_a) ∅ best)
      as [upd best'] eqn:Hscan.
    destruct (scan_row_longest a b memoizers ai bi bj i line_a ml best upd best'
                Hi Hai Ha Hml Hbest Hscan) as [Hupd Hbest'].
    replace (Z.pred (Z.of_nat (S n))) with (Z.of_nat n) by lia.
    replace (i + Z.of_nat (S n)) with (Z.succ i + Z.of_nat n) by lia.
    apply IH; [lia | lia | |].
    + by replace (Z.succ i - 1) with i by lia.
    + by replace (Z.succ i) with (i + 1) by lia.
Qed.

Lemma lcs_best_longest a b memoizers ai aj bi bj r :
  0 ≤ ai → ai ≤ aj →
  _lcs (LineMatcher_init a b memoizers) ai aj bi bj = Some r →
  best_longest memoizers a b ai bi bj aj r.
Proof.
  intros H0 Ha Hr. unfold _lcs, py_range in Hr.
  replace (aj - ai) with (Z.of_nat (Z.to_nat (aj - ai))) in Hr by lia.
  apply (lcs_rows_longest a b memoizers ai bi bj) in Hr; [| lia | lia | |].
  - by replace (ai + Z.of_nat (Z.to_nat (aj - ai))) with aj in Hr by lia.
  - split; [intros j m; by rewrite lookup_empty|].
    intros j m' _ ? ?. lia.
  - split; [simpl; lia|]. intros [[sa sb] len]. unfold run_within. simpl. lia.
Qed.

(** [_lcs] finds a longest run: for a window within the sequence [a], it
    returns a run of matching lines that lies within the window, and no run
    of matching lines within the window is longer. *)
Theorem lcs_longest a b memoizers ai aj bi bj :
  0 ≤ ai → ai ≤ aj → aj ≤ py_len a → bi ≤ bj →
  ∃ r,
    _lcs (LineMatcher_init a b memoizers) ai aj bi bj = Some r
    ∧ run_within ai bi bj aj r
    ∧ run_matches memoizers a b r
    ∧ ∀ r', run_within ai bi bj aj r' → run_matches memoizers a b r' →
            r'.2 ≤ r.2.
Proof.
  intros H0 Ha Hlen Hb.
  destruct (lcs_within (LineMatcher_init a b memoizers) ai aj bi bj)
    as (r & Hr & Hw); [done..|].
  exists r. split_and!; [done | done | by eapply lcs_sound|].
  by destruct (lcs_best_longest a b memoizers ai aj bi bj r H0 Ha Hr).
Qed.

End longest_run.

(** An instance: the longest run of [x; y; z] and [y; z; x], compared by the
    lines themselves, has two lines. *)
Lemma lcs_longest_witness :
  ∃ r,
    _lcs (LineMatcher_init [1; 2; 3] [2; 3; 1] [fun line : Z => line]) 0 3 0 3
    = Some r
    ∧ run_within 0 0 3 3 r
    ∧ run_matches [fun line : Z => line] [1; 2; 3] [2; 3; 1] r
    ∧ ∀ r', run_within 0 0 3 3 r' →
            run_matches [fun line : Z => line] [1; 2; 3] [2; 3; 1] r' →
            r'.2 ≤ r.2.
Proof.
  apply (lcs_longest [1; 2; 3] [2; 3; 1] [fun line : Z => line] 0 3 0 3);
    unfold py_len; simpl; lia.
Defined.

(** ** Sequences that are empty, and a sequence against itself *)

Section find_matches_edges.
Context {R K : Type} `{Countable K}.
Implicit Types (memoizers : list (R → K)) (a b : list R).

(** When one of the two sequences is empty, [find_matches] takes the first
    window for empty and returns no match at all. *)
Theorem find_matches_empty a b memoizers :
  a = [] ∨ b = [] →
  find_matches (LineMatcher_init a b memoizers) = Some [].
Proof.
  intros Hempty. unfold find_matches, find_matches_within.
  rewrite (find_matches_loop_more _ 1 _ _ _ []).
  - done.
  - unfold first_window. cbn [lm_a lm_b LineMatcher_init].
    cbn [find_matches_loop find_matches_step].
    rewrite decide_True; [done|].
    destruct Hempty as [-> | ->]; unfold py_len; simpl; lia.
  - unfold first_window, queue_turns. simpl. lia.
Qed.

Lemma lcs_self a memoizers :
  a ≠ [] → memoizers ≠ [] →
  _lcs (LineMatcher_init a a memoizers) 0 (py_len a) 0 (py_len a)
  = Some (0, 0, py_len a).
Proof.
  intros Ha Hm.
  destruct (lcs_within (LineMatcher_init a a memoizers)
              0 (py_len a) 0 (py_len a))
    as ([[sa sb] len] & Hr & Hw); [unfold py_len; simpl; lia..|].
  rewrite Hr.
  destruct (lcs_best_longest a a memoizers 0 (py_len a) 0 (py_len a) _
              ltac:(lia) ltac:(unfold py_len; lia) Hr) as [_ Hmax].
  specialize (Hmax (0, 0, py_len a)). simpl in Hmax.
  unfold run_within in Hw, Hmax.
  assert (py_len a ≤ len) as Hlen.
  { apply Hmax; [unfold py_len; lia|].
    intros t Ht. rewrite Z.add_0_l.
    destruct memoizers as [|memoizer memoizers]; [done|].
    destruct (lookup_lt_is_Some_2 a (Z.to_nat t)) as [x Hx];
      [unfold py_len in Ht; lia|].
    split_and!; [lia | lia|]. exists x, x, memoizer.
    split_and!; [done | done | by left | done]. }
  do 2 f_equal; [f_equal|]; lia.
Qed.

(** A sequence matched against itself, under at least one memoizer, gives
    one run: the whole sequence. *)
Theorem find_matches_self a memoizers :
  a ≠ [] → memoizers ≠ [] →
  find_matches (LineMatcher_init a a memoizers) = Some [(0, 0, py_len a)].
Proof.
  intros Ha Hm. unfold find_matches, find_matches_within.
  assert (0 < py_len a) as Hlen.
  { unfold py_len. destruct a; [done | simpl; lia]. }
  rewrite (find_matches_loop_more _ 3 _ _ _ [(0, 0, py_len a)]).
  - done.
  - unfold first_window. cbn [lm_a lm_b LineMatcher_init].
    cbn [find_matches_loop find_matches_step].
    rewrite decide_False by lia. rewrite (lcs_self a memoizers Ha Hm).
    simpl. rewrite decide_True by lia. simpl.
    repeat (rewrite decide_True by (left; lia); simpl). done.
  - unfold first_window, queue_turns. cbn [lm_a lm_b LineMatcher_init].
    simpl. lia.
Qed.
End find_matches_edges.

(** An instance: no match when the second sequence is empty. *)
Lemma find_matches_empty_witness :
  find_matches (LineMatcher_init [1; 2] [] [fun line : Z => line]) = Some [].
Proof. apply find_matches_empty. by right. Defined.

(** An instance: three lines against themselves. *)
Lemma find_matches_self_witness :
  find_matches (LineMatcher_init [1; 2; 1] [1; 2; 1] [fun line : Z => line])
  = Some [(0, 0, 3)].
Proof. by apply (find_matches_self [1; 2; 1] [fun line : Z => line]). Defined.

(** * A side that left the ancestor alone *)

(** ** The field merge when one side is the parent *)

Lemma same_view_unchanged x parent :
  view x = view parent → changed_fields x parent = ∅.
Proof.
  intros Hv. unfold changed_fields. apply set_eq. intros k.
  rewrite elem_of_filter, Hv. set_solver.
Qed.

Lemma merge_unchanged_local c x parent y :
  is_record c x → is_record c parent → is_record c y →
  well_typed c x → well_typed c parent → well_typed c y →
  view x = view parent → text_reads_back c y →
  ∃ line, merge c x parent y = Some (Some line) ∧ view line = view y.
Proof.
  intros Rx Rp Ry Tx Tp Ty Hv Hback.
  pose proof (same_view_unchanged x parent Hv) as Hch.
  assert (merged_fields (view parent) (changes x parent) (changes y parent)
          = view y) as Hm.
  { apply map_eq. intros k.
    destruct (merged_fields_sides c x parent y k Rx Rp Ry) as [_ Hk].
    apply Hk. rewrite Hch. set_solver. }
  destruct (merge_disjoint_view c x parent y Rx Rp Ry Tx Tp Ty)
    as (line & Hline & _ & Hview).
  - rewrite Hch. set_solver.
  - intros Hc s. rewrite Hm. by apply Hback.
  - exists line. split; [done|]. by rewrite Hview.
Qed.

Lemma merge_unchanged_remote c x parent y :
  is_record c x → is_record c parent → is_record c y →
  well_typed c x → well_typed c parent → well_typed c y →
  view y = view parent → text_reads_back c x →
  ∃ line, merge c x parent y = Some (Some line) ∧ view line = view x.
Proof.
  intros Rx Rp Ry Tx Tp Ty Hv Hback.
  pose proof (same_view_unchanged y parent Hv) as Hch.
  assert (merged_fields (view parent) (changes x parent) (changes y parent)
          = view x) as Hm.
  { apply map_eq. intros k.
    destruct (merged_fields_sides c x parent y k Rx Rp Ry) as [Hk _].
    apply Hk. rewrite Hch. set_solver. }
  destruct (merge_disjoint_view c x parent y Rx Rp Ry Tx Tp Ty)
    as (line & Hline & _ & Hview).
  - rewrite Hch. set_solver.
  - intros Hc s. rewrite Hm. by apply Hback.
  - exists line. split; [done|]. by rewrite Hview.
Qed.

(** ** The hunks of a side that is the ancestor *)

Section unchanged_hunks.
Context {St : Type}.
Context (conflict_handler :
  list ASSLine → list ASSLine → list ASSLine → St → option (list ASSLine * St)).

(** A hunk whose local lines are the ancestor's yields what the remote lines
    show, and leaves the conflict handler alone. *)
Lemma process_hunks_unchanged_local
    A O B a_hunk b_hunk o_hunk st a_lines b_lines o_lines :
  Forall has_Type A → Forall has_Type O → Forall has_Type B →
  hunk_lines A a_hunk = Some a_lines →
  hunk_lines B b_hunk = Some b_lines →
  hunk_lines O o_hunk = Some o_lines →
  same_lines a_lines o_lines →
  ∃ lines,
    process_hunks conflict_handler A O B a_hunk b_hunk o_hunk st
    = Some (lines, st)
    ∧ same_lines lines b_lines.
Proof.
  intros TA TO TB Ha Hb Ho Hsame.
  rewrite (process_hunks_branches conflict_handler A O B a_hunk b_hunk o_hunk st
             a_lines b_lines o_lines Ha Hb Ho);
    [| by eapply hunks_equal_defined ..].
  unfold same_lines in *.
  case_decide as Hfirst.
  - exists a_lines. split; [done|].
    destruct Hfirst as [Hab | [Hne _]]; [done | by destruct Hne].
  - exists b_lines. split; [|done].
    rewrite decide_True; [done|]. split; [|done].
    intros Hbo. apply Hfirst. left. congruence.
Qed.

(** A hunk whose remote lines are the ancestor's yields the local lines, and
    leaves the conflict handler alone. *)
Lemma process_hunks_unchanged_remote
    A O B a_hunk b_hunk o_hunk st a_lines b_lines o_lines :
  Forall has_Type A → Forall has_Type O → Forall has_Type B →
  hunk_lines A a_hunk = Some a_lines →
  hunk_lines B b_hunk = Some b_lines →
  hunk_lines O o_hunk = Some o_lines →
  same_lines b_lines o_lines →
  process_hunks conflict_handler A O B a_hunk b_hunk o_hunk st
  = Some (a_lines, st).
Proof.
  intros TA TO TB Ha Hb Ho Hsame.
  rewrite (process_hunks_branches conflict_handler A O B a_hunk b_hunk o_hunk st
             a_lines b_lines o_lines Ha Hb Ho);
    [| by eapply hunks_equal_defined ..].
  unfold same_lines in *.
  rewrite decide_True; [done|].
  destruct (decide (view <$> a_lines = view <$> o_lines)) as [Hao | Hne].
  - left. congruence.
  - by right.
Qed.
End unchanged_hunks.

(** ** A sequence aligned with itself *)

Section find_matches_diagonal.
Context {R K : Type} `{Countable K}.
Implicit Types (self : @LineMatcher R K _ _) (w : window) (r : run).

(** A property of the windows that the loop keeps, and a property of the
    runs that it gives: the loop records only runs with the latter. *)
Lemma find_matches_loop_inv self (Q : window → Prop) (P : run → Prop) :
  (∀ ai aj bi bj r,
     Q (ai, aj, bi, bj) → window_ok self (ai, aj, bi, bj) →
     ¬ (aj - ai ≤ 0 ∨ bj - bi ≤ 0) →
     _lcs self ai aj bi bj = Some r →
     P r ∧ (0 < r.2 → Forall Q (sub_windows r (ai, aj, bi, bj)))) →
  ∀ fuel queue matches result,
    Forall (window_ok self) queue → Forall Q queue → Forall P matches →
    find_matches_loop self fuel queue matches = Some result →
    Forall P result.
Proof.
  intros Hturn.
  induction fuel as [|fuel IH]; intros queue matches result Hq HQ Hm.
  - destruct queue as [|[[[ai aj] bi] bj] queue]; simpl; [|done].
    by intros [= <-].
  - destruct queue as [|w queue]; [simpl; by intros [= <-]|].
    apply Forall_cons in Hq as [Hw Hq]. apply Forall_cons in HQ as [HQw HQ].
    destruct (find_matches_step_cons _ w queue matches Hw)
      as (queue' & matches' & Hs & Hstep).
    destruct (turn_of_decreases _ _ _ _ _ _ Hw Hq Hstep) as [Hq' _].
    cbn [find_matches_loop]. rewrite Hs. simpl.
    destruct w as [[[ai aj] bi] bj]. cbn [find_matches_step] in Hs.
    case_decide as Hempty.
    { injection Hs as <- <-. by apply IH. }
    destruct (_lcs self ai aj bi bj) as [[[sa sb] len]|] eqn:Hlcs; [|done].
    destruct (Hturn ai aj bi bj (sa, sb, len) HQw Hw Hempty Hlcs) as [HP Hsub].
    simpl in Hs, Hsub. injection Hs as <- <-.
    apply IH; [done | | ].
    + case_decide as Hlen; [|done]. apply Forall_app. split; [done|].
      by apply Hsub.
    + apply Forall_app. split; [done|]. by apply Forall_singleton.
Qed.

(** A sequence is aligned with itself position by position: every run that
    [find_matches] returns for [a] against [a] pairs a position with
    itself. *)
Lemma find_matches_diagonal (a : list R) (memoizers : list (R → K)) :
  ∃ matches,
    find_matches (LineMatcher_init a a memoizers) = Some matches
    ∧ StronglySorted run_before matches
    ∧ Forall (fun r => run_in_window r (0, py_len a, 0, py_len a)) matches
    ∧ Forall (fun p => p.1 = p.2) (positions matches).
Proof.
  set (self := LineMatcher_init a a memoizers).
  destruct (find_matches_spec self (queue_turns [first_window self]))
    as (matches & Hrun & _ & Hbefore & Hin); [done|].
  exists matches. split_and!; [done | done | done|].
  assert (Forall (fun r : run => 0 < r.2 → r.1.1 = r.1.2) matches) as Hdiag.
  { unfold find_matches_within in Hrun.
    destruct (find_matches_loop self _ _ _) as [found|] eqn:Hloop; [|done].
    simpl in Hrun. injection Hrun as <-. rewrite merge_sort_Permutation.
    eapply (find_matches_loop_inv self
              (fun w => w = first_window self
                        ∨ (let '(ai, aj, bi, bj) := w in
                           aj - ai ≤ 0 ∨ bj - bi ≤ 0)));
      [| | | |exact Hloop].
    - intros ai aj bi bj r HQ _ Hne Hlcs.
      destruct HQ as [[= -> -> -> ->] | Hempty]; [|done].
      cbn [lm_a lm_b self LineMatcher_init] in *.
      assert (a ≠ []) as Ha.
      { intros ->. apply Hne. left. unfold py_len. simpl. lia. }
      destruct (decide (memoizers = [])) as [Hms | Hms].
      + pose proof (lcs_sound a a memoizers 0 (py_len a) 0 (py_len a) r
                      ltac:(lia) Hlcs) as Hmatch.
        destruct r as [[sa sb] len]. simpl.
        assert (¬ 0 < len) as Hlen.
        { intros Hlen. destruct (Hmatch 0) as (_ & _ & x & y & m & _ & _ & Hm & _);
            [lia|]. rewrite Hms in Hm. by apply elem_of_nil in Hm. }
        split; intros ?; done.
      + unfold self in Hlcs. rewrite lcs_self in Hlcs by done.
        injection Hlcs as <-. simpl. split; [done|]. intros _.
        apply Forall_cons. split; [right; lia|].
        apply Forall_singleton. right. lia.
    - repeat constructor; unfold py_len; simpl; lia.
    - repeat constructor.
    - constructor. }
  apply Forall_forall. intros p (r & Hp & Hr)%list_elem_of_bind.
  rewrite Forall_forall in Hdiag. specialize (Hdiag r Hr).
  destruct r as [[sa sb] len]. simpl in Hdiag, Hp.
  apply list_elem_of_fmap in Hp as (i & -> & Hi).
  apply elem_of_seqZ in Hi. simpl. rewrite Hdiag; [done | lia].
Qed.
End find_matches_diagonal.

(** ** The walk when the remote side is the ancestor *)

Section unchanged_remote.
Context {St : Type}.
Context (conflict_handler :
  list ASSLine → list ASSLine → list ASSLine → St → option (list ASSLine * St)).
Context (c : cls) (A O B : list ASSLine) (st : St).
Context (RA : Forall (is_record c) A) (RO : Forall (is_record c) O)
        (RB : Forall (is_record c) B).
Context (TA : Forall (well_typed c) A) (TO : Forall (well_typed c) O)
        (TB : Forall (well_typed c) B).
Context (Hsame : same_lines B O).
Context (Hback : Forall (text_reads_back c) A).
(** The index map of the local side, within the sequences, and that of the
    remote side, which pairs every position with itself. *)
Context (o_to_a o_to_b : list (Z * Z)).
Context (Hwithin :
  Forall (fun p => 0 ≤ p.1 < py_len O ∧ 0 ≤ p.2 < py_len A) o_to_a).
Context (Hdiag : Forall (fun p => p.1 = p.2) o_to_b).

(** What holds of the variables of the walk between two turns: the cursors
    of the remote side and of the ancestor agree, the lines yielded are
    those of the local side up to its cursor, and the conflict handler was
    not called. *)
Definition remote_inv (w : @walk_state St) : Prop :=
  prev_b w = prev_o w
  ∧ -1 ≤ prev_a w < py_len A
  ∧ -1 ≤ prev_o w < py_len O
  ∧ same_lines (yielded w) (take (Z.to_nat (prev_a w + 1)) A)
  ∧ handler_state w = st.

Lemma walk_step_unchanged_remote w o a :
  remote_inv w → (o, a) ∈ o_to_a → prev_o w < o → prev_a w < a →
  ∃ w', walk_step conflict_handler gap_local_or_remote A O B o_to_b w (o, a)
        = Some w'
        ∧ remote_inv w'
        ∧ (w' = w ∨ (prev_o w' = o ∧ prev_a w' = a)).
Proof.
  intros (Hb & Ha & Ho & Hy & Hst) Hin Hpo Hpa.
  pose proof (same_lines_length _ _ Hsame) as Hlen.
  pose proof Hwithin as Hwithin'. rewrite Forall_forall in Hwithin'.
  destruct (Hwithin' _ Hin) as [Wo Wa]. simpl in Wo, Wa.
  unfold walk_step.
  destruct (od_get o o_to_b) as [b|] eqn:Hget.
  2: { exists w. split; [done|]. split; [|by left].
       unfold remote_inv. split_and!; (done || lia). }
  assert (b = o) as ->.
  { apply od_get_Some in Hget. pose proof Hdiag as Hdiag'.
    rewrite Forall_forall in Hdiag'. by specialize (Hdiag' _ Hget). }
  rewrite !py_index_nonneg by lia.
  destruct (lookup_lt_is_Some_2 O (Z.to_nat o)) as [parent Hparent];
    [unfold py_len in *; lia|].
  destruct (lookup_lt_is_Some_2 A (Z.to_nat a)) as [mine Hmine];
    [unfold py_len in *; lia|].
  destruct (lookup_lt_is_Some_2 B (Z.to_nat o)) as [their Htheir];
    [unfold py_len in *; lia|].
  rewrite Hparent, Hmine, Htheir. simpl.
  pose proof (same_lines_lookup _ _ _ _ _ Hsame Htheir Hparent) as Hview.
  pose proof (Forall_lookup_1 _ _ _ _ RO Hparent) as Rp.
  pose proof (Forall_lookup_1 _ _ _ _ RA Hmine) as Rm.
  pose proof (Forall_lookup_1 _ _ _ _ RB Htheir) as Rt.
  pose proof (Forall_lookup_1 _ _ _ _ TO Hparent) as Tp.
  pose proof (Forall_lookup_1 _ _ _ _ TA Hmine) as Tm.
  pose proof (Forall_lookup_1 _ _ _ _ TB Htheir) as Tt.
  pose proof (Forall_lookup_1 _ _ _ _ Hback Hmine) as Bm.
  assert (line_cls parent = c) as -> by (by destruct Rp).
  destruct (merge_unchanged_remote c mine parent their Rm Rp Rt Tm Tp Tt Hview Bm)
    as (line & -> & Hline).
  simpl.
  assert (∀ l, Forall (is_record c) l → Forall has_Type l) as Htype.
  { intros l Hl. eapply Forall_impl; [exact Hl|]. apply is_record_has_Type. }
  assert (process_hunks conflict_handler A O B
            (py_range (prev_a w + 1) a) (py_range (prev_b w + 1) o)
            (py_range (prev_o w + 1) o) (handler_state w)
          = Some (slice A (prev_a w + 1) a, handler_state w)) as Hflush.
  { eapply (process_hunks_unchanged_remote conflict_handler A O B _ _ _ _
              _ (slice B (prev_o w + 1) o) (slice O (prev_o w + 1) o));
      try by apply Htype.
    - apply hunk_lines_range; lia.
    - rewrite Hb. apply hunk_lines_range; lia.
    - apply hunk_lines_range; lia.
    - by apply same_lines_slice. }
  assert (same_lines (yielded w ++ slice A (prev_a w + 1) a ++ [line])
            (take (Z.to_nat (a + 1)) A)) as Hyield.
  { rewrite <- (take_slice_snoc A (prev_a w) a mine) by (done || lia).
    unfold same_lines in *. rewrite !fmap_app, Hy. simpl. by rewrite Hline. }
  unfold gap_local_or_remote. case_bool_decide as Hgap.
  - rewrite Hflush. simpl. eexists. split; [done|].
    split; [|by right]. unfold remote_inv. simpl. split_and!; try done; lia.
  - simpl. eexists. split; [done|].
    split; [|by right]. unfold remote_inv. simpl. split_and!; try done; try lia.
    assert (slice A (prev_a w + 1) a = []) as Hnil.
    { unfold slice. replace (Z.to_nat (a - (prev_a w + 1))) with 0%nat by lia.
      apply take_0. }
    by rewrite Hnil in Hyield.
Qed.

Lemma walk_unchanged_remote entries : ∀ w,
  remote_inv w →
  Forall (fun p => p ∈ o_to_a) entries →
  StronglySorted position_lt entries →
  Forall (fun p => prev_o w < p.1 ∧ prev_a w < p.2) entries →
  ∃ w', walk conflict_handler gap_local_or_remote A O B o_to_b w entries
        = Some w'
        ∧ remote_inv w'.
Proof.
  induction entries as [|[o a] entries IH]; intros w Hinv Hin Hs Hprev.
  - exists w. done.
  - apply Forall_cons in Hin as [Hin Hins].
    apply StronglySorted_cons in Hs as [Hhead Hs].
    apply Forall_cons in Hprev as [[Hpo Hpa] Hprev]. simpl in Hpo, Hpa.
    destruct (walk_step_unchanged_remote w o a Hinv Hin Hpo Hpa)
      as (w1 & Hstep & Hinv1 & Hcur).
    cbn [walk]. rewrite Hstep. simpl. apply IH; [done..|].
    destruct Hcur as [-> | [-> ->]]; [done|].
    eapply Forall_impl; [exact Hhead|]. intros p Hp. exact Hp.
Qed.
End unchanged_remote.

(** When the remote sequence shows the lines of the ancestor, with the same
    memoizer keys, [diff3] yields lines that show what the local side shows,
    and never calls the conflict handler: whatever the local side did to the
    ancestor goes through.  The texts of the local lines are to read back as
    written. *)
Theorem diff3_unchanged_remote {K : Type} `{Countable K} {St : Type}
    (conflict_handler :
       list ASSLine → list ASSLine → list ASSLine → St
       → option (list ASSLine * St))
    (memoizers : list (ASSLine → K)) (c : cls) (A O B : list ASSLine) (st : St) :
  Forall (is_record c) A → Forall (is_record c) O → Forall (is_record c) B →
  Forall (well_typed c) A → Forall (well_typed c) O → Forall (well_typed c) B →
  same_lines B O →
  Forall2 (same_keys memoizers) B O →
  Forall (text_reads_back c) A →
  ∃ out, diff3 conflict_handler memoizers A O B st = Some (out, st)
         ∧ same_lines out A.
Proof.
  intros RA RO RB TA TO TB Hsame Hkeys Hback.
  unfold diff3, diff3_with.
  rewrite (find_matches_same_keys O B O memoizers Hkeys).
  destruct (find_matches_spec (LineMatcher_init O A memoizers)
              (queue_turns [first_window (LineMatcher_init O A memoizers)]))
    as (matches & Hrun & _ & Hbefore & Hin); [done|].
  fold (find_matches (LineMatcher_init O A memoizers)) in Hrun.
  destruct (find_matches_diagonal O memoizers)
    as (matches_b & Hrun_b & Hbefore_b & _ & Hdiag).
  rewrite Hrun, Hrun_b. simpl.
  rewrite (map_indices_sorted matches Hbefore).
  rewrite (map_indices_sorted matches_b Hbefore_b).
  pose proof (positions_sorted matches Hbefore) as Hsorted.
  pose proof (positions_within matches (py_len O) (py_len A) Hin) as Hwithin.
  pose proof (same_lines_length _ _ Hsame) as Hlen.
  assert (0 ≤ py_len A ∧ 0 ≤ py_len O) as [HlenA HlenO]
    by (unfold py_len; lia).
  destruct (walk_unchanged_remote conflict_handler c A O B st RA RO RB TA TO TB
              Hsame Hback (positions matches) (positions matches_b)
              Hwithin Hdiag
              (positions matches) (mkWalk (-1) (-1) (-1) [] st))
    as (w & -> & Hb & Ha & Ho & Hy & Hst).
  { unfold remote_inv. simpl. split_and!; try done; lia. }
  { apply Forall_forall. auto. }
  { done. }
  { eapply Forall_impl; [exact Hwithin|]. simpl. intros p. lia. }
  simpl.
  assert (∀ l, Forall (is_record c) l → Forall has_Type l) as Htype.
  { intros l Hl. eapply Forall_impl; [exact Hl|]. apply is_record_has_Type. }
  rewrite (process_hunks_unchanged_remote conflict_handler A O B _ _ _ _
             (slice A (prev_a w + 1) (py_len A))
             (slice B (prev_o w + 1) (py_len O))
             (slice O (prev_o w + 1) (py_len O))
             (Htype A RA) (Htype O RO) (Htype B RB)).
  - simpl. rewrite Hst. eexists. split; [done|].
    unfold same_lines in *. rewrite fmap_app, Hy, <- fmap_app.
    unfold py_len. by rewrite take_slice_rest by lia.
  - apply hunk_lines_range; lia.
  - rewrite Hb, Hlen. apply hunk_lines_range; lia.
  - apply hunk_lines_range; lia.
  - by apply same_lines_slice.
Qed.

(** The local side added a line after the one of the ancestor, which the
    remote side kept: the output shows the two local lines. *)
Lemma diff3_unchanged_remote_witness :
  ∃ out,
    diff3 (dialogue_conflict_handler sample_args) event_memoizers
      [sample_E; sample_L] [sample_E] [sample_E] false
    = Some (out, false)
    ∧ same_lines out [sample_E; sample_L].
Proof.
  assert (∀ ty start stop text,
            ty = "Dialogue" →
            well_typed DialogueLine (sample_dialogue ty start stop text []))
    as Htyped.
  { intros ty start stop text ->. split_and!.
    - intros valid [= <-]. exists "Dialogue". split; [by vm_compute|].
      apply list_elem_of_here.
    - intros _. eexists. by vm_compute.
    - done. }
  apply (diff3_unchanged_remote (dialogue_conflict_handler sample_args)
           event_memoizers DialogueLine
           [sample_E; sample_L] [sample_E] [sample_E] false);
    try (repeat constructor; apply sample_dialogue_record);
    try (repeat constructor; by apply Htyped);
    try (by apply event_memoizers_same_keys);
    try done.
  repeat constructor; intros _ s Hs; vm_compute in Hs;
    injection Hs as <-; by vm_compute.
Defined.

(** ** The walk when the local side is the ancestor *)

Lemma position_lt_mono (l : list (Z * Z)) p q :
  StronglySorted position_lt l → p ∈ l → q ∈ l → p.1 < q.1 → p.2 < q.2.
Proof.
  induction l as [|x l IH]; [by intros _ ?%elem_of_nil|].
  rewrite StronglySorted_cons. intros [Hx Hl] Hp Hq Hlt.
  rewrite Forall_forall in Hx.
  apply elem_of_cons in Hp as [-> | Hp]; apply elem_of_cons in Hq as [-> | Hq].
  - lia.
  - by destruct (Hx q Hq).
  - destruct (Hx p Hp). lia.
  - by apply IH.
Qed.

Section unchanged_local.
Context {St : Type}.
Context (conflict_handler :
  list ASSLine → list ASSLine → list ASSLine → St → option (list ASSLine * St)).
Context (c : cls) (A O B : list ASSLine) (st : St).
Context (RA : Forall (is_record c) A) (RO : Forall (is_record c) O)
        (RB : Forall (is_record c) B).
Context (TA : Forall (well_typed c) A) (TO : Forall (well_typed c) O)
        (TB : Forall (well_typed c) B).
Context (Hsame : same_lines A O).
Context (Hback : Forall (text_reads_back c) B).
(** The index map of the local side, which pairs positions of the ancestor
    with themselves, and that of the remote side, in order and within the
    sequences. *)
Context (o_to_a o_to_b : list (Z * Z)).
Context (Hdiag : Forall (fun p => p.1 = p.2 ∧ 0 ≤ p.1 < py_len O) o_to_a).
Context (Hsorted : StronglySorted position_lt o_to_b).
Context (Hwithin :
  Forall (fun p => 0 ≤ p.1 < py_len O ∧ 0 ≤ p.2 < py_len B) o_to_b).

(** What holds of the variables of the walk between two turns: the cursors
    of the local side and of the ancestor agree, the cursors of the ancestor
    and of the remote side are at the start or at a pair of the remote index
    map, the lines yielded are those of the remote side up to its cursor, and
    the conflict handler was not called. *)
Definition local_inv (w : @walk_state St) : Prop :=
  prev_a w = prev_o w
  ∧ -1 ≤ prev_o w < py_len O
  ∧ -1 ≤ prev_b w < py_len B
  ∧ ((prev_o w = -1 ∧ prev_b w = -1) ∨ (prev_o w, prev_b w) ∈ o_to_b)
  ∧ same_lines (yielded w) (take (Z.to_nat (prev_b w + 1)) B)
  ∧ handler_state w = st.

Lemma walk_step_unchanged_local w o a :
  local_inv w → (o, a) ∈ o_to_a → prev_o w < o →
  ∃ w', walk_step conflict_handler gap_local_or_remote A O B o_to_b w (o, a)
        = Some w'
        ∧ local_inv w'
        ∧ (w' = w ∨ prev_o w' = o).
Proof.
  intros (Ha & Ho & Hb & Hprev & Hy & Hst) Hin Hpo.
  pose proof (same_lines_length _ _ Hsame) as Hlen.
  pose proof Hdiag as Hdiag'. rewrite Forall_forall in Hdiag'.
  destruct (Hdiag' _ Hin) as [Heq Wo]. simpl in Heq, Wo. subst a.
  unfold walk_step.
  destruct (od_get o o_to_b) as [b|] eqn:Hget.
  2: { exists w. split; [done|]. split; [|by left].
       unfold local_inv. split_and!; (done || lia). }
  apply od_get_Some in Hget.
  pose proof Hwithin as Hwithin'. rewrite Forall_forall in Hwithin'.
  destruct (Hwithin' _ Hget) as [_ Wb]. simpl in Wb.
  assert (prev_b w < b) as Hpb.
  { destruct Hprev as [[_ ->] | Hprev]; [lia|].
    by apply (position_lt_mono o_to_b (prev_o w, prev_b w) (o, b)). }
  rewrite !py_index_nonneg by lia.
  destruct (lookup_lt_is_Some_2 O (Z.to_nat o)) as [parent Hparent];
    [unfold py_len in *; lia|].
  destruct (lookup_lt_is_Some_2 A (Z.to_nat o)) as [mine Hmine];
    [unfold py_len in *; lia|].
  destruct (lookup_lt_is_Some_2 B (Z.to_nat b)) as [their Htheir];
    [unfold py_len in *; lia|].
  rewrite Hparent, Hmine, Htheir. simpl.
  pose proof (same_lines_lookup _ _ _ _ _ Hsame Hmine Hparent) as Hview.
  pose proof (Forall_lookup_1 _ _ _ _ RO Hparent) as Rp.
  pose proof (Forall_lookup_1 _ _ _ _ RA Hmine) as Rm.
  pose proof (Forall_lookup_1 _ _ _ _ RB Htheir) as Rt.
  pose proof (Forall_lookup_1 _ _ _ _ TO Hparent) as Tp.
  pose proof (Forall_lookup_1 _ _ _ _ TA Hmine) as Tm.
  pose proof (Forall_lookup_1 _ _ _ _ TB Htheir) as Tt.
  pose proof (Forall_lookup_1 _ _ _ _ Hback Htheir) as Bt.
  assert (line_cls parent = c) as -> by (by destruct Rp).
  destruct (merge_unchanged_local c mine parent their Rm Rp Rt Tm Tp Tt Hview Bt)
    as (line & -> & Hline).
  simpl.
  assert (∀ l, Forall (is_record c) l → Forall has_Type l) as Htype.
  { intros l Hl. eapply Forall_impl; [exact Hl|]. apply is_record_has_Type. }
  destruct (process_hunks_unchanged_local conflict_handler A O B
              (py_range (prev_a w + 1) o) (py_range (prev_b w + 1) b)
              (py_range (prev_o w + 1) o) (handler_state w)
              (slice A (prev_o w + 1) o) (slice B (prev_b w + 1) b)
              (slice O (prev_o w + 1) o))
    as (hunk & Hflush & Hhunk); try by apply Htype.
  { rewrite Ha. apply hunk_lines_range; lia. }
  { apply hunk_lines_range; lia. }
  { apply hunk_lines_range; lia. }
  { by apply same_lines_slice. }
  assert (∀ lines, same_lines lines (slice B (prev_b w + 1) b) →
            same_lines (yielded w ++ lines ++ [line])
              (take (Z.to_nat (b + 1)) B)) as Hyield.
  { intros lines Hlines.
    rewrite <- (take_slice_snoc B (prev_b w) b their) by (done || lia).
    unfold same_lines in *. rewrite !fmap_app, Hy, Hlines. simpl.
    by rewrite Hline. }
  unfold gap_local_or_remote. case_bool_decide as Hgap.
  - rewrite Hflush. simpl. eexists. split; [done|].
    split; [|by right]. unfold local_inv. simpl.
    split_and!; try done; try lia; [by right | by apply Hyield].
  - simpl. eexists. split; [done|].
    split; [|by right]. unfold local_inv. simpl.
    split_and!; try done; try lia; [by right|].
    apply (Hyield []). unfold slice.
    replace (Z.to_nat (b - (prev_b w + 1))) with 0%nat by lia.
    by rewrite take_0.
Qed.

Lemma walk_unchanged_local entries : ∀ w,
  local_inv w →
  Forall (fun p => p ∈ o_to_a) entries →
  StronglySorted position_lt entries →
  Forall (fun p => prev_o w < p.1) entries →
  ∃ w', walk conflict_handler gap_local_or_remote A O B o_to_b w entries
        = Some w'
        ∧ local_inv w'.
Proof.
  induction entries as [|[o a] entries IH]; intros w Hinv Hin Hs Hprev.
  - exists w. done.
  - apply Forall_cons in Hin as [Hin Hins].
    apply StronglySorted_cons in Hs as [Hhead Hs].
    apply Forall_cons in Hprev as [Hpo Hprev]. simpl in Hpo.
    destruct (walk_step_unchanged_local w o a Hinv Hin Hpo)
      as (w1 & Hstep & Hinv1 & Hcur).
    cbn [walk]. rewrite Hstep. simpl. apply IH; [done..|].
    destruct Hcur as [-> | ->]; [done|].
    eapply Forall_impl; [exact Hhead|]. intros p [Hp _]. exact Hp.
Qed.
End unchanged_local.

(** When the local sequence shows the lines of the ancestor, with the same
    memoizer keys, [diff3] yields lines that show what the remote side
    shows, and never calls the conflict handler: whatever the remote side did
    to the ancestor goes through.  The texts of the remote lines are to read
    back as written. *)
Theorem diff3_unchanged_local {K : Type} `{Countable K} {St : Type}
    (conflict_handler :
       list ASSLine → list ASSLine → list ASSLine → St
       → option (list ASSLine * St))
    (memoizers : list (ASSLine → K)) (c : cls) (A O B : list ASSLine) (st : St) :
  Forall (is_record c) A → Forall (is_record c) O → Forall (is_record c) B →
  Forall (well_typed c) A → Forall (well_typed c) O → Forall (well_typed c) B →
  same_lines A O →
  Forall2 (same_keys memoizers) A O →
  Forall (text_reads_back c) B →
  ∃ out, diff3 conflict_handler memoizers A O B st = Some (out, st)
         ∧ same_lines out B.
Proof.
  intros RA RO RB TA TO TB Hsame Hkeys Hback.
  unfold diff3, diff3_with.
  rewrite (find_matches_same_keys O A O memoizers Hkeys).
  destruct (find_matches_diagonal O memoizers)
    as (matches & Hrun & Hbefore & Hin & Hdiag).
  destruct (find_matches_spec (LineMatcher_init O B memoizers)
              (queue_turns [first_window (LineMatcher_init O B memoizers)]))
    as (matches_b & Hrun_b & _ & Hbefore_b & Hin_b); [done|].
  fold (find_matches (LineMatcher_init O B memoizers)) in Hrun_b.
  rewrite Hrun, Hrun_b. simpl.
  rewrite (map_indices_sorted matches Hbefore).
  rewrite (map_indices_sorted matches_b Hbefore_b).
  pose proof (positions_sorted matches Hbefore) as Hsorted.
  pose proof (positions_sorted matches_b Hbefore_b) as Hsorted_b.
  pose proof (positions_within matches (py_len O) (py_len O) Hin) as Hwithin.
  pose proof (positions_within matches_b (py_len O) (py_len B) Hin_b)
    as Hwithin_b.
  pose proof (same_lines_length _ _ Hsame) as Hlen.
  assert (0 ≤ py_len B ∧ 0 ≤ py_len O) as [HlenB HlenO]
    by (unfold py_len; lia).
  assert (Forall (fun p : Z * Z => p.1 = p.2 ∧ 0 ≤ p.1 < py_len O)
            (positions matches)) as Hdiag'.
  { apply Forall_forall. intros p Hp. rewrite Forall_forall in Hdiag, Hwithin.
    split; [by apply Hdiag | by apply Hwithin]. }
  destruct (walk_unchanged_local conflict_handler c A O B st RA RO RB TA TO TB
              Hsame Hback (positions matches) (positions matches_b)
              Hdiag' Hsorted_b Hwithin_b
              (positions matches) (mkWalk (-1) (-1) (-1) [] st))
    as (w & -> & Ha & Ho & Hb & _ & Hy & Hst).
  { unfold local_inv. simpl. split_and!; (done || lia || by left). }
  { apply Forall_forall. auto. }
  { done. }
  { eapply Forall_impl; [exact Hwithin|]. simpl. intros p. lia. }
  simpl.
  assert (∀ l, Forall (is_record c) l → Forall has_Type l) as Htype.
  { intros l Hl. eapply Forall_impl; [exact Hl|]. apply is_record_has_Type. }
  destruct (process_hunks_unchanged_local conflict_handler A O B
              (py_range (prev_a w + 1) (py_len A))
              (py_range (prev_b w + 1) (py_len B))
              (py_range (prev_o w + 1) (py_len O)) (handler_state w)
              (slice A (prev_o w + 1) (py_len O))
              (slice B (prev_b w + 1) (py_len B))
              (slice O (prev_o w + 1) (py_len O)))
    as (hunk & -> & Hhunk); try by apply Htype.
  - rewrite Ha, Hlen. apply hunk_lines_range; lia.
  - apply hunk_lines_range; lia.
  - apply hunk_lines_range; lia.
  - by apply same_lines_slice.
  - simpl. rewrite Hst. eexists. split; [done|].
    unfold same_lines in *. rewrite fmap_app, Hy, Hhunk, <- fmap_app.
    unfold py_len. by rewrite take_slice_rest by lia.
Qed.

(** The remote side replaced the line of the ancestor, which the local side
    kept: the output shows the remote line. *)
Lemma diff3_unchanged_local_witness :
  ∃ out,
    diff3 (dialogue_conflict_handler sample_args) event_memoizers
      [sample_E] [sample_E] [sample_R] false
    = Some (out, false)
    ∧ same_lines out [sample_R].
Proof.
  assert (∀ ty start stop text,
            ty = "Dialogue" →
            well_typed DialogueLine (sample_dialogue ty start stop text []))
    as Htyped.
  { intros ty start stop text ->. split_and!.
    - intros valid [= <-]. exists "Dialogue". split; [by vm_compute|].
      apply list_elem_of_here.
    - intros _. eexists. by vm_compute.
    - done. }
  apply (diff3_unchanged_local (dialogue_conflict_handler sample_args)
           event_memoizers DialogueLine
           [sample_E] [sample_E] [sample_R] false);
    try (repeat constructor; apply sample_dialogue_record);
    try (repeat constructor; by apply Htyped);
    try (by apply event_memoizers_same_keys);
    try done.
  repeat constructor; intros _ s Hs; vm_compute in Hs;
    injection Hs as <-; by vm_compute.
Defined.
